(** * Hermes gateway: routing core

    A shallow embedding of the routing and upstream-management code of the
    Hermes chat-completion gateway, with the properties its specification
    states about it.

    The first part embeds the code, one module per source file:
    - [ModelNormalizer]   : hermes/utils/model_normalizer.py
    - [RoutingScore]      : hermes/services/routing_score_service.py
    - [CircuitBreaker]    : hermes/services/circuit_breaker.py
    - [RateLimiter]       : hermes/services/rate_limiter.py
    - [ChatOrchestrator]  : hermes/controllers/chat.py with
                            [get_provider_for_model] of
                            hermes/services/dispatcher_service.py
    The second part states and proves the properties, in the modules
    [ModelNormalizerSpec], [RoutingScoreSpec], [CircuitBreakerSpec],
    [RateLimiterSpec] and [ChatOrchestratorSpec].

    Conventions.  Python [str] values are [string]s of ASCII code points.
    Python dictionaries are [gmap]s, except where the iteration order of
    the dictionary decides the result: there they are association lists in
    insertion order.  Python [float]s are exact numbers: rationals where
    only comparison, division and truncation are used (clocks), reals where
    the code exponentiates (the scorer); [math.exp], the one float
    operation of this code that raises, raises where its result is above
    the largest finite float.  An operation that runs under a
    lock reads the clock once: every [time.time()] of one call returns the
    same instant [now], which is an argument of the operation.  Random
    draws and the answers of other services are arguments as well. *)

From Stdlib Require Import ZArith QArith Qround Reals Lra Lia Bool Ascii String.
From stdpp Require Import gmap strings list sorting.

(** ** Python's stable sort *)

(** [l.sort(key=k, reverse=True)], given the strict order [lt] of the keys
    as a relation on the elements.  The sort is stable, also when reversed:
    of two elements neither of which is smaller than the other, the one
    that came first in [l] stays first. *)
Section StableSort.

Context {A : Type} (lt : A -> A -> bool).

Fixpoint insert_desc (x : A) (sorted : list A) : list A :=
  match sorted with
  | [] => [x]
  | y :: rest => if lt x y then y :: insert_desc x rest else x :: y :: rest
  end.

Definition sort_desc (l : list A) : list A := foldr insert_desc [] l.

End StableSort.

(** ** Model normalizer *)

Module ModelNormalizer.

Local Open Scope string_scope.
Local Open Scope Z_scope.

(** *** Characters and strings *)

(** [str.isspace] and the regex class [\s] on ASCII code points. *)
Definition is_space (c : ascii) : bool :=
  let n := N_of_ascii c in
  ((9 <=? n)%N && (n <=? 13)%N) || ((28 <=? n)%N && (n <=? 32)%N).

(** The regex class [\d] on ASCII code points. *)
Definition is_digit (c : ascii) : bool :=
  let n := N_of_ascii c in (48 <=? n)%N && (n <=? 57)%N.

Definition lower_char (c : ascii) : ascii :=
  let n := N_of_ascii c in
  if (65 <=? n)%N && (n <=? 90)%N then ascii_of_N (n + 32) else c.

(** [s.lower()] *)
Fixpoint lower (s : string) : string :=
  match s with
  | EmptyString => EmptyString
  | String c rest => String (lower_char c) (lower rest)
  end.

Fixpoint lstrip (s : string) : string :=
  match s with
  | String c rest => if is_space c then lstrip rest else s
  | EmptyString => EmptyString
  end.

(** [s.strip()] *)
Definition strip (s : string) : string :=
  String.rev (lstrip (String.rev (lstrip s))).

Fixpoint drop_chars (n : nat) (s : string) : string :=
  match n, s with
  | O, _ => s
  | S n', String _ rest => drop_chars n' rest
  | S _, EmptyString => EmptyString
  end.

(** [PREFIX_REGEX.sub("", s)] for [PREFIX_REGEX = ^(models|model|m)/] with
    [re.IGNORECASE]: the pattern is anchored, so at most the leading
    occurrence is removed; the alternatives are tried in order. *)
Definition strip_prefix (s : string) : string :=
  let l := lower s in
  if String.prefix "models/" l then drop_chars 7 s
  else if String.prefix "model/" l then drop_chars 6 s
  else if String.prefix "m/" l then drop_chars 2 s
  else s.

(** Pieces of [s] between the characters selected by [sep]; like
    [str.split], the result always has at least one piece. *)
Fixpoint split_when (sep : ascii -> bool) (s : string) : list string :=
  match s with
  | EmptyString => [EmptyString]
  | String c rest =>
      if sep c then EmptyString :: split_when sep rest
      else match split_when sep rest with
           | piece :: pieces => String c piece :: pieces
           | [] => [String c EmptyString]
           end
  end.

Definition is_slash (c : ascii) : bool := Ascii.eqb c "/".
Definition is_dot (c : ascii) : bool := Ascii.eqb c ".".

(** The class [[-_\s:]] of [SEPARATOR_REGEX]. *)
Definition is_separator (c : ascii) : bool :=
  Ascii.eqb c "-" || Ascii.eqb c "_" || is_space c || Ascii.eqb c ":".

Definition nonempty (s : string) : bool :=
  match s with EmptyString => false | _ => true end.

(** Python's [a or b] on strings: the empty string is falsy. *)
Definition str_or (a b : string) : string := if nonempty a then a else b.

Fixpoint all_digits (s : string) : bool :=
  match s with
  | EmptyString => true
  | String c rest => is_digit c && all_digits rest
  end.

(** [int(s)] for a string of decimal digits. *)
Fixpoint int_of_digits_from (acc : Z) (s : string) : Z :=
  match s with
  | EmptyString => acc
  | String c rest =>
      int_of_digits_from (10 * acc + (Z.of_N (N_of_ascii c) - 48)) rest
  end.

Definition int_of_digits (s : string) : Z := int_of_digits_from 0 s.

(** ["sep".join(l)] *)
Definition join (sep : string) (l : list string) : string := String.concat sep l.

(** *** The source's definitions *)

Definition VARIANT_TOKENS : gset string :=
  list_to_set
    ["latest"; "default"; "stable"; "fast"; "turbo"; "slow"; "high"; "low";
     "medium"; "mini"; "lite"; "light"; "pro"; "ultra"; "think"; "thinking";
     "instruct"; "chat"; "online"; "beta"; "preview"; "docs"; "free"; "max";
     "xhigh"].

Record NormalizedModel := {
  raw : string;
  cleaned : string;
  canonical : string;
  family_key : string;
  version_parts : list Z
}.

(** [re.match(r"^v?(\d+(?:\.\d+)+|\d+)$", token)] followed by the
    conversion of the dot-separated groups; [None] is Python's [None]. *)
Definition parse_version (token : string) : option (list Z) :=
  let body := match token with
              | String "v" rest => rest
              | _ => token
              end in
  let groups := split_when is_dot body in
  if forallb (fun g => nonempty g && all_digits g) groups
  then Some (map int_of_digits groups)
  else None.

(** [compare_version_parts]: [steps] iterations of the loop over
    [range(max_len)] starting at index [i]; an index past the end of a
    list reads as 0. *)
Fixpoint compare_from (steps i : nat) (a b : list Z) : Z :=
  match steps with
  | O => 0
  | S steps' =>
      let av := nth i a 0 in
      let bv := nth i b 0 in
      if av =? bv then compare_from steps' (S i) a b else av - bv
  end.

Definition compare_version_parts (a b : list Z) : Z :=
  compare_from (Nat.max (length a) (length b)) 0 a b.

(** [re.match(r"^\d{4,}$", token)] *)
Definition is_long_numeric (token : string) : bool :=
  all_digits token && (4 <=? String.length token)%nat.

(** [cleaned = PREFIX_REGEX.sub("", raw.strip()).lower()] *)
Definition clean (r : string) : string := lower (strip_prefix (strip r)).

(** [without_vendor]: the last [/]-segment of [cleaned], or [cleaned]
    itself when it has no [/] or ends in one. *)
Definition without_vendor (cleaned_form : string) : string :=
  if existsb is_slash (list_ascii_of_string cleaned_form)
  then str_or (List.last (split_when is_slash cleaned_form) EmptyString) cleaned_form
  else cleaned_form.

(** [[t for t in SEPARATOR_REGEX.split(without_vendor) if t]]: splitting
    at maximal separator runs and splitting at every separator character
    leave the same non-empty pieces. *)
Definition tokenize (s : string) : list string :=
  filter (fun t => nonempty t = true) (split_when is_separator s).

(** The accumulators of the token loop. *)
Record token_acc := {
  version_tokens : list (list Z);
  canonical_tokens : list string;
  family_tokens : list string
}.

(** One iteration of [for token in tokens]. *)
Definition token_step (acc : token_acc) (token : string) : token_acc :=
  if is_long_numeric token then acc
  else match parse_version token with
       | Some version =>
           {| version_tokens := version_tokens acc ++ [version];
              canonical_tokens := canonical_tokens acc ++ [token];
              family_tokens := family_tokens acc |}
       | None =>
           if bool_decide (token ∈ VARIANT_TOKENS) then acc
           else {| version_tokens := version_tokens acc;
                   canonical_tokens := canonical_tokens acc ++ [token];
                   family_tokens := family_tokens acc ++ [token] |}
       end.

Definition token_loop (tokens : list string) : token_acc :=
  foldl token_step
        {| version_tokens := []; canonical_tokens := []; family_tokens := [] |}
        tokens.

Definition normalize_model_name (r : string) : NormalizedModel :=
  let cleaned_form := clean r in
  let wv := without_vendor cleaned_form in
  let acc := token_loop (tokenize wv) in
  let version := match version_tokens acc with
                 | v :: _ => v
                 | [] => []
                 end in
  let canonical_base := join "-" (canonical_tokens acc) in
  let family_base := join "-" (family_tokens acc) in
  {| raw := r;
     cleaned := cleaned_form;
     canonical := str_or canonical_base wv;
     family_key := str_or family_base wv;
     version_parts := version |}.

(** *** Alias maps *)

Record ModelAliasMaps := {
  canonical_to_variants : gmap string (gset string);
  variant_to_canonical : gmap string string
}.

(** A provider record, as far as this module and the dispatcher read it.
    [provider.get("models", [])] reads a missing key as the empty list, which
    is how the record represents it. *)
Record provider := {
  id : string;
  name : string;
  status : string;
  models : list string
}.

(** An element of [entry["candidates"]]. *)
Record candidate := {
  cand_canonical : string;
  cand_version : list Z
}.

(** A value of [family_map]. *)
Record family_entry := {
  variants : gset string;
  candidates : list candidate
}.

(** [family_map] is iterated with [.items()], and a later family overwrites
    what an earlier one stored under the same key of the result, so its
    insertion order matters: an association list, oldest key first. *)
Fixpoint od_get {V : Type} (k : string) (d : list (string * V)) : option V :=
  match d with
  | [] => None
  | (k', v) :: rest => if String.eqb k' k then Some v else od_get k rest
  end.

(** [d[k] = v]: an existing key keeps its position, a new one goes last. *)
Fixpoint od_set {V : Type} (k : string) (v : V) (d : list (string * V))
  : list (string * V) :=
  match d with
  | [] => [(k, v)]
  | (k', v') :: rest =>
      if String.eqb k' k then (k', v) :: rest else (k', v') :: od_set k v rest
  end.

(** The body of the loop over [provider.get("models", [])]. *)
Definition record_model (family_map : list (string * family_entry))
    (raw_model : string) : list (string * family_entry) :=
  let info := normalize_model_name raw_model in
  let key := str_or (family_key info) (str_or (canonical info) (cleaned info)) in
  let family_map :=
    match od_get key family_map with
    | None => od_set key {| variants := ∅; candidates := [] |} family_map
    | Some _ => family_map
    end in
  match od_get key family_map with
  | Some entry =>
      od_set key
        {| variants := {[ raw_model ]} ∪ variants entry;
           candidates := candidates entry ++
             [ {| cand_canonical := str_or (canonical info) (cleaned info);
                  cand_version := version_parts info |} ] |}
        family_map
  | None => family_map
  end.

(** The first pair of loops of [build_model_alias_maps]. *)
Definition build_family_map (models_by_provider : list provider)
  : list (string * family_entry) :=
  foldl (fun fm p => foldl record_model fm (models p)) [] models_by_provider.

(** Python's [<] on lists of integers: the first differing element
    decides, and a proper prefix is smaller. *)
Fixpoint list_lt (a b : list Z) : bool :=
  match a, b with
  | _, [] => false
  | [], _ :: _ => true
  | x :: a', y :: b' => if x =? y then list_lt a' b' else x <? y
  end.

(** [with_version.sort(key=lambda x: x["version"], reverse=True)] *)
Definition version_lt (c d : candidate) : bool :=
  list_lt (cand_version c) (cand_version d).

(** A non-empty list is truthy. *)
Definition has_version (c : candidate) : bool :=
  match cand_version c with [] => false | _ => true end.

(** [preferred] of one family; [None] is the [IndexError] of
    [entry["candidates"][0]] on an empty list. *)
Definition preferred_candidate (cands : list candidate) : option candidate :=
  match cands with
  | [] => None
  | first :: _ =>
      let with_version := List.filter has_version cands in
      match sort_desc version_lt with_version with
      | best :: _ => Some best
      | [] => Some first
      end
  end.

(** The choice as the specification words it, to compare
    [preferred_candidate] with: the candidate whose version is highest
    under [compare_version_parts], which pads the shorter tuple with 0,
    and of several that compare equal the one seen first. *)
Definition padded_preferred (cands : list candidate) : option candidate :=
  match cands with
  | [] => None
  | first :: rest =>
      Some (foldl (fun best c =>
                     if 0 <? compare_version_parts (cand_version c)
                                                   (cand_version best)
                     then c else best)
                  first rest)
  end.

(** The keys of [variant_to_canonical] written by [for variant in
    variant_set].  Every write of the loop stores the same value, so the
    order in which the set is iterated does not show in the result. *)
Definition write_variants (pc : string) (vs : gset string)
    (v2c : gmap string string) : gmap string string :=
  foldl (fun m variant =>
           <[ variant := pc ]>
             (<[ canonical (normalize_model_name variant) := pc ]> m))
        v2c (elements vs).

(** The body of [for _, entry in family_map.items()]. *)
Definition process_family (maps : ModelAliasMaps) (entry : family_entry)
  : option ModelAliasMaps :=
  match preferred_candidate (candidates entry) with
  | None => None
  | Some preferred =>
      let pc := cand_canonical preferred in
      let variant_set := variants entry in
      let c2v := <[ pc := variant_set ]> (canonical_to_variants maps) in
      let v2c := write_variants pc variant_set (variant_to_canonical maps) in
      let preferred_norm := canonical (normalize_model_name pc) in
      let v2c := <[ pc := pc ]> v2c in
      let v2c := <[ preferred_norm := pc ]> v2c in
      Some {| canonical_to_variants := c2v; variant_to_canonical := v2c |}
  end.

Fixpoint process_families (maps : ModelAliasMaps)
    (fm : list (string * family_entry)) : option ModelAliasMaps :=
  match fm with
  | [] => Some maps
  | (_, entry) :: rest =>
      match process_family maps entry with
      | None => None
      | Some maps' => process_families maps' rest
      end
  end.

Definition build_model_alias_maps (models_by_provider : list provider)
  : option ModelAliasMaps :=
  process_families
    {| canonical_to_variants := ∅; variant_to_canonical := ∅ |}
    (build_family_map models_by_provider).

(** *** Notions and sample inputs used in the statements below *)

Local Open Scope list_scope.

(** Whether the loop keeps a token in [canonical_tokens], and in
    [family_tokens]. *)
Definition in_canonical (token : string) : bool :=
  negb (is_long_numeric token)
  && (bool_decide (is_Some (parse_version token))
      || negb (bool_decide (token ∈ VARIANT_TOKENS))).

Definition in_family (token : string) : bool :=
  negb (is_long_numeric token)
  && negb (bool_decide (is_Some (parse_version token)))
  && negb (bool_decide (token ∈ VARIANT_TOKENS)).

(** The key under which a raw identifier is grouped, and the candidate
    it contributes. *)
Definition family_of (raw_model : string) : string :=
  let info := normalize_model_name raw_model in
  str_or (family_key info) (str_or (canonical info) (cleaned info)).

Definition candidate_of (raw_model : string) : candidate :=
  let info := normalize_model_name raw_model in
  {| cand_canonical := str_or (canonical info) (cleaned info);
     cand_version := version_parts info |}.

(** What a family map holds for the identifiers it has recorded. *)
Definition recorded (fm : list (string * family_entry)) (r : string) : Prop :=
  exists k e, od_get k fm = Some e /\ r ∈ variants e.

Definition has_candidates (fm : list (string * family_entry)) : Prop :=
  Forall (fun ke => candidates ke.2 <> []) fm.

(** Which candidate [preferred_candidate] picks. *)
Definition first_highest (cands : list candidate) (best : candidate) : Prop :=
  (Forall (fun c => cand_version c = []) cands /\ head cands = Some best)
  \/ exists before after,
       List.filter has_version cands = before ++ best :: after
       /\ Forall (fun c => list_lt (cand_version c) (cand_version best) = true)
                 before
       /\ Forall (fun c => list_lt (cand_version best) (cand_version c) = false)
                 after.

(** One provider that lists the same model at version 1 and at 1.0. *)
Definition x_1_then_x_1_0 : list provider :=
  [ {| id := "a"; name := "A"; status := "active";
       models := ["x-1"; "x-1.0"] |} ].

Definition x_family : family_entry :=
  {| variants := {[ "x-1.0" ]} ∪ ({[ "x-1" ]} ∪ ∅);
     candidates := [ {| cand_canonical := "x-1"; cand_version := [1] |};
                     {| cand_canonical := "x-1.0"; cand_version := [1; 0] |} ] |}.

(** The canonical under which a family is stored, and the keys of
    [variant_to_canonical] that processing the family assigns. *)
Definition preferred_canonical (entry : family_entry) : option string :=
  cand_canonical <$> preferred_candidate (candidates entry).

Definition renormalized (variant : string) : string :=
  canonical (normalize_model_name variant).

Definition written_keys (entry : family_entry) : gset string :=
  match preferred_canonical entry with
  | None => ∅
  | Some pc =>
      {[ pc; renormalized pc ]} ∪ variants entry
        ∪ set_map renormalized (variants entry)
  end.

(** Every value of [variant_to_canonical] is a key of
    [canonical_to_variants]. *)
Definition consistent (maps : ModelAliasMaps) : Prop :=
  forall k c,
    variant_to_canonical maps !! k = Some c ->
    is_Some (canonical_to_variants maps !! c).

(** Two providers, two families. *)
Definition gpt_and_claude : list provider :=
  [ {| id := "a"; name := "A"; status := "active";
       models := ["gpt-4"; "gpt-4-turbo"] |};
    {| id := "b"; name := "B"; status := "active";
       models := ["claude-3"] |} ].

Definition gpt_family : family_entry :=
  {| variants := {[ "gpt-4-turbo" ]} ∪ ({[ "gpt-4" ]} ∪ ∅);
     candidates := [ {| cand_canonical := "gpt-4"; cand_version := [4] |};
                     {| cand_canonical := "gpt-4"; cand_version := [4] |} ] |}.

Definition claude_family : family_entry :=
  {| variants := {[ "claude-3" ]} ∪ ∅;
     candidates := [ {| cand_canonical := "claude-3"; cand_version := [3] |} ] |}.

(** One provider whose two identifiers have the same canonical, [2], in
    different families: [2] and [2-pro]. *)
Definition bare_versions : list provider :=
  [ {| id := "a"; name := "A"; status := "active";
       models := ["2"; "2-pro"] |} ].

End ModelNormalizer.

(** ** Router scorer *)

Module RoutingScore.

Local Open Scope R_scope.

Record ProviderStats := {
  alpha : R;
  beta : R;
  latency_ewma : R;
  last_updated : Z;
  samples : Z;
  total_success : Z;
  total_failure : Z
}.

Definition PRIOR_ALPHA : R := 1.
Definition PRIOR_BETA : R := 1.
Definition ALPHA_EWMA : R := 2 / 10.
Definition DECAY_HALF_LIFE_MS : Z := 12 * 60 * 60 * 1000.

(** The dataclass defaults, with the three fields the constructor call in
    [update] sets. *)
Definition new_stats (a b : R) (updated : Z) : ProviderStats :=
  {| alpha := a; beta := b; latency_ewma := 800; last_updated := updated;
     samples := 0; total_success := 0; total_failure := 0 |}.

Definition _key (provider_id model : string) : string :=
  (provider_id +:+ ":" +:+ model)%string.

(** [_apply_decay] assigns to the fields of the object it is given and
    returns that same object; the result here is the object's new
    contents. *)
Definition _apply_decay (stat : ProviderStats) (now : Z) : ProviderStats :=
  if (last_updated stat =? 0)%Z then stat
  else
    let age_ms := (now - last_updated stat)%Z in
    if (age_ms <=? 0)%Z then stat
    else
      let decay := Rpower 2 (IZR (- age_ms) / IZR DECAY_HALF_LIFE_MS) in
      {| alpha := PRIOR_ALPHA + (alpha stat - PRIOR_ALPHA) * decay;
         beta := PRIOR_BETA + (beta stat - PRIOR_BETA) * decay;
         latency_ewma := latency_ewma stat;
         last_updated := last_updated stat;
         samples := samples stat;
         total_success := total_success stat;
         total_failure := total_failure stat |}.

(** [update], on the class attribute [_stats], at clock reading [now]
    (milliseconds). *)
Definition update (_stats : gmap string ProviderStats)
    (provider_id model : string) (success : bool) (latency_ms : option Z)
    (now : Z) : gmap string ProviderStats :=
  let key := _key provider_id model in
  let stat := default (new_stats PRIOR_ALPHA PRIOR_BETA now) (_stats !! key) in
  let stat := _apply_decay stat now in
  let a := if success then alpha stat + 1 else alpha stat in
  let b := if success then beta stat else beta stat + 1 in
  let ts := if success then (total_success stat + 1)%Z else total_success stat in
  let tf := if success then total_failure stat else (total_failure stat + 1)%Z in
  let ewma := match latency_ms with
              | Some l => (1 - ALPHA_EWMA) * latency_ewma stat + ALPHA_EWMA * IZR l
              | None => latency_ewma stat
              end in
  <[ key := {| alpha := a; beta := b; latency_ewma := ewma;
               last_updated := now; samples := (samples stat + 1)%Z;
               total_success := ts; total_failure := tf |} ]> _stats.

(** [_betavariate]: [betavariate] is Python's [random.betavariate] as it
    behaves in this call; applied to the two parameters it gives [Some p]
    when the sampler returns the sample [p] and [None] when it raises
    [ValueError]. *)
Definition _betavariate (betavariate : R -> R -> option R) (a b : R) : R :=
  match betavariate a b with
  | Some p => p
  | None => a / (a + b)
  end.

(** The largest finite float, and [math.exp]: it raises [OverflowError],
    here [None], when the result is too large for a float; read on the
    reals, when it is above the largest finite one. *)
Definition DBL_MAX : R := (2 - / 2 ^ 52) * 2 ^ 1023.

Definition math_exp (x : R) : option R :=
  if Rlt_dec DBL_MAX (exp x) then None else Some (exp x).

(** [1.0 / (1.0 + math.exp((ewma - 3000) / 1000))]; [None] when
    [math.exp] raises. *)
Definition latency_multiplier (ewma : R) : option R :=
  match math_exp ((ewma - 3000) / 1000) with
  | Some e => Some (1 / (1 + e))
  | None => None
  end.

(** [score_for] at clock reading [now]; [betavariate] is the Beta sampler
    of this call and [u] the value [random.random()] returns.  The first
    component is the score returned, [None] when the call raises the
    [OverflowError] of [math.exp].  The statistics object fetched from
    [_stats] is the stored one, so the assignments that [_apply_decay]
    makes to it are assignments to the store, made before the latency
    factor is computed: the second component is [_stats] after the call,
    whether it returns or raises. *)
Definition score_for (_stats : gmap string ProviderStats)
    (provider_id model : string) (now : Z)
    (betavariate : R -> R -> option R) (u : R)
  : option R * gmap string ProviderStats :=
  let key := _key provider_id model in
  match _stats !! key with
  | None => (Some (_betavariate betavariate PRIOR_ALPHA PRIOR_BETA), _stats)
  | Some stat =>
      let stat := _apply_decay stat now in
      let sampled_success_rate :=
        _betavariate betavariate (alpha stat) (beta stat) in
      (match latency_multiplier (latency_ewma stat) with
       | Some lm =>
           Some (sampled_success_rate * (8 / 10)
                 + sampled_success_rate * (2 / 10) * lm
                 + u * (5 / 1000))
       | None => None
       end,
       <[ key := stat ]> _stats)
  end.

(** A call of the scorer's interface. *)
Inductive call :=
| Update (provider_id model : string) (success : bool) (latency_ms : option Z)
         (now : Z)
| Score (provider_id model : string) (now : Z)
        (betavariate : R -> R -> option R) (u : R).

Definition run_call (_stats : gmap string ProviderStats) (c : call)
  : gmap string ProviderStats :=
  match c with
  | Update p m s l now => update _stats p m s l now
  | Score p m now sampler u => snd (score_for _stats p m now sampler u)
  end.

(** The store after a sequence of calls, oldest first. *)
Definition run_calls (_stats : gmap string ProviderStats) (cs : list call)
  : gmap string ProviderStats :=
  foldl run_call _stats cs.

(** *** Notions and sample inputs used in the statements below *)

Definition at_least_prior (stat : ProviderStats) : Prop :=
  1 <= alpha stat /\ 1 <= beta stat.

(** The statistics of an arm after one successful request, at
    [first_seen] on the millisecond clock. *)
Definition first_seen : Z := 1700000000000.

Definition seen_once : gmap string ProviderStats :=
  update ∅ "p" "m" true None first_seen.


Definition decay_factor (stat : ProviderStats) (now : Z) : R :=
  Rpower 2 (IZR (- (now - last_updated stat)) / IZR DECAY_HALF_LIFE_MS).

(** The counters of an arm add up: every stored arm has been updated at
    least once, and its samples are its successes and failures. *)
Definition counted (stat : ProviderStats) : Prop :=
  (samples stat = total_success stat + total_failure stat)%Z
  /\ (1 <= samples stat)%Z
  /\ (0 <= total_success stat)%Z
  /\ (0 <= total_failure stat)%Z.

End RoutingScore.

(** ** Circuit breaker *)

Module CircuitBreaker.

Local Open Scope Z_scope.

Inductive CircuitState := CLOSED | OPEN | HALF_OPEN.

Record CircuitStats := {
  state : CircuitState;
  failure_count : Z;
  success_count : Z;
  last_failure_time : Q;
  opened_at : Q
}.

(** [CircuitStats()] *)
Definition new_stats : CircuitStats :=
  {| state := CLOSED; failure_count := 0; success_count := 0;
     last_failure_time := 0%Q; opened_at := 0%Q |}.

(** [CircuitStats.reset] *)
Definition reset_counters (s : CircuitStats) : CircuitStats :=
  {| state := state s; failure_count := 0; success_count := 0;
     last_failure_time := last_failure_time s; opened_at := opened_at s |}.

Definition set_state (st : CircuitState) (s : CircuitStats) : CircuitStats :=
  {| state := st; failure_count := failure_count s;
     success_count := success_count s;
     last_failure_time := last_failure_time s; opened_at := opened_at s |}.

(** The two settings of [hermes/config.py] that the breaker reads. *)
Record Config := {
  CIRCUIT_FAILURE_THRESHOLD : Z;
  CIRCUIT_RECOVERY_TIMEOUT : Z
}.

(** The configuration when the environment sets neither variable. *)
Definition config : Config :=
  {| CIRCUIT_FAILURE_THRESHOLD := 5; CIRCUIT_RECOVERY_TIMEOUT := 30 |}.

Record breaker := {
  failure_threshold : Z;
  recovery_timeout : Z;
  success_threshold : Z;
  _circuits : gmap string CircuitStats
}.

(** Python's [x or d] on an optional integer: [None] and 0 are falsy. *)
Definition int_or (x : option Z) (d : Z) : Z :=
  match x with
  | Some v => if v =? 0 then d else v
  | None => d
  end.

(** [CircuitBreaker.__init__] *)
Definition __init__ (cfg : Config) (failure_threshold recovery_timeout : option Z)
    (success_threshold : Z) : breaker :=
  {| failure_threshold := int_or failure_threshold (CIRCUIT_FAILURE_THRESHOLD cfg);
     recovery_timeout := int_or recovery_timeout (CIRCUIT_RECOVERY_TIMEOUT cfg);
     success_threshold := success_threshold;
     _circuits := ∅ |}.

(** The module's global instance, [CircuitBreaker()]. *)
Definition circuit_breaker : breaker := __init__ config None None 2.

Definition with_circuits (b : breaker) (cs : gmap string CircuitStats) : breaker :=
  {| failure_threshold := failure_threshold b;
     recovery_timeout := recovery_timeout b;
     success_threshold := success_threshold b;
     _circuits := cs |}.

(** [_get_stats]: the statistics of [key], stored first when the key is
    new. *)
Definition _get_stats (b : breaker) (key : string) : CircuitStats * breaker :=
  match _circuits b !! key with
  | Some stats => (stats, b)
  | None => (new_stats, with_circuits b (<[ key := new_stats ]> (_circuits b)))
  end.

(** Assignments to the fields of the object [_get_stats] returned. *)
Definition store (b : breaker) (key : string) (stats : CircuitStats) : breaker :=
  with_circuits b (<[ key := stats ]> (_circuits b)).

Definition is_allowed (b : breaker) (key : string) (now : Q) : bool * breaker :=
  let '(stats, b) := _get_stats b key in
  match state stats with
  | CLOSED => (true, b)
  | OPEN =>
      if Qle_bool (inject_Z (recovery_timeout b)) (now - opened_at stats)
      then (true, store b key (reset_counters (set_state HALF_OPEN stats)))
      else (false, b)
  | HALF_OPEN => (true, b)
  end.

Definition record_success (b : breaker) (key : string) : breaker :=
  let '(stats, b) := _get_stats b key in
  match state stats with
  | HALF_OPEN =>
      let stats :=
        {| state := state stats; failure_count := failure_count stats;
           success_count := success_count stats + 1;
           last_failure_time := last_failure_time stats;
           opened_at := opened_at stats |} in
      if success_threshold b <=? success_count stats
      then store b key (reset_counters (set_state CLOSED stats))
      else store b key stats
  | CLOSED =>
      store b key
        {| state := state stats; failure_count := 0;
           success_count := success_count stats;
           last_failure_time := last_failure_time stats;
           opened_at := opened_at stats |}
  | OPEN => b
  end.

Definition record_failure (b : breaker) (key : string) (now : Q) : breaker :=
  let '(stats, b) := _get_stats b key in
  let stats :=
    {| state := state stats; failure_count := failure_count stats + 1;
       success_count := success_count stats;
       last_failure_time := now; opened_at := opened_at stats |} in
  let open_now :=
    {| state := OPEN; failure_count := failure_count stats;
       success_count := success_count stats;
       last_failure_time := last_failure_time stats; opened_at := now |} in
  match state stats with
  | HALF_OPEN => store b key open_now
  | CLOSED =>
      if failure_threshold b <=? failure_count stats
      then store b key open_now
      else store b key stats
  | OPEN => store b key stats
  end.

(** [CircuitBreaker.reset], the manual reset of one key. *)
Definition reset (b : breaker) (key : string) : breaker :=
  match _circuits b !! key with
  | Some _ => store b key new_stats
  | None => b
  end.

(** The calls that change a breaker. *)
Inductive call :=
| IsAllowed (key : string) (now : Q)
| RecordSuccess (key : string)
| RecordFailure (key : string) (now : Q)
| Reset (key : string).

Definition run_call (b : breaker) (c : call) : breaker :=
  match c with
  | IsAllowed key now => snd (is_allowed b key now)
  | RecordSuccess key => record_success b key
  | RecordFailure key now => record_failure b key now
  | Reset key => reset b key
  end.

(** The statistics and the state of the circuit of [key]; a key never
    seen has those [_get_stats] would give it. *)
Definition stats_of (b : breaker) (key : string) : CircuitStats :=
  default new_stats (_circuits b !! key).

Definition state_of (b : breaker) (key : string) : CircuitState :=
  state (stats_of b key).

(** [is_allowed(key)] at each of the instants [nows] in turn: the state at
    entry and the answer of every call, and the breaker at the end. *)
Fixpoint allow_checks (b : breaker) (key : string) (nows : list Q)
  : list (CircuitState * bool) * breaker :=
  match nows with
  | [] => ([], b)
  | now :: rest =>
      let '(ok, b') := is_allowed b key now in
      let '(trace, b'') := allow_checks b' key rest in
      ((state_of b key, ok) :: trace, b'')
  end.

(** [n] calls of [record_failure(key)] at the instants [nows]. *)
Definition failures (b : breaker) (key : string) (nows : list Q) : breaker :=
  foldl (fun b now => record_failure b key now) b nows.

(** [n] calls of [record_success(key)]. *)
Definition successes (b : breaker) (key : string) (n : nat) : breaker :=
  Nat.iter n (fun b => record_success b key) b.

(** [int(x)] of a float: truncation toward zero. *)
Definition int (x : Q) : Z := Z.quot (Qnum x) (Z.pos (Qden x)).

(** How a [CircuitBreaker.call] ends: it raises [CircuitOpenError], it
    returns what the function returned, or it re-raises what the function
    raised. *)
Inductive call_outcome (A : Type) :=
| CircuitOpenError (key : string) (retry_after : Z)
| FuncReturned (result : A)
| FuncRaised.

Arguments CircuitOpenError {A} key retry_after.
Arguments FuncReturned {A} result.
Arguments FuncRaised {A}.

(** [CircuitBreaker.call(key, func)]; the name [call] is taken above.
    [func] is what awaiting the function gives if it is run, [Some] of its
    result or [None] when it raises; the function does not use the
    breaker.  [now] is the clock reading of the [is_allowed] check and
    [later] the one made after it, for the retry delay or for the failure
    record. *)
Definition call_through {A : Type} (b : breaker) (key : string) (now : Q)
    (func : option A) (later : Q) : call_outcome A * breaker :=
  let '(ok, b) := is_allowed b key now in
  if negb ok then
    let '(stats, b) := _get_stats b key in
    (CircuitOpenError key
       (Z.max 1 (int (inject_Z (recovery_timeout b) - (later - opened_at stats))%Q)),
     b)
  else
    match func with
    | Some result => (FuncReturned result, record_success b key)
    | None => (FuncRaised, record_failure b key later)
    end.

(** Calls of [call(key, func)] with a function that raises, one for each
    pair of clock readings. *)
Definition failing_calls (b : breaker) (key : string) (clock : list (Q * Q))
  : breaker :=
  foldl (fun b t => snd (call_through b key t.1 (None : option unit) t.2)) b clock.

(** *** Notions and sample inputs used in the statements below *)

(** The effect of each call on the statistics of its key. *)
Definition allow_step (b : breaker) (now : Q) (s : CircuitStats) : CircuitStats :=
  match state s with
  | OPEN =>
      if Qle_bool (inject_Z (recovery_timeout b)) (now - opened_at s)
      then reset_counters (set_state HALF_OPEN s) else s
  | _ => s
  end.

Definition allow_answer (b : breaker) (now : Q) (s : CircuitStats) : bool :=
  match state s with
  | OPEN => Qle_bool (inject_Z (recovery_timeout b)) (now - opened_at s)
  | _ => true
  end.

Definition success_step (b : breaker) (s : CircuitStats) : CircuitStats :=
  match state s with
  | HALF_OPEN =>
      if success_threshold b <=? success_count s + 1
      then {| state := CLOSED; failure_count := 0; success_count := 0;
              last_failure_time := last_failure_time s; opened_at := opened_at s |}
      else {| state := HALF_OPEN; failure_count := failure_count s;
              success_count := success_count s + 1;
              last_failure_time := last_failure_time s; opened_at := opened_at s |}
  | CLOSED =>
      {| state := CLOSED; failure_count := 0; success_count := success_count s;
         last_failure_time := last_failure_time s; opened_at := opened_at s |}
  | OPEN => s
  end.

Definition failure_step (b : breaker) (now : Q) (s : CircuitStats) : CircuitStats :=
  let opens :=
    match state s with
    | HALF_OPEN => true
    | CLOSED => failure_threshold b <=? failure_count s + 1
    | OPEN => false
    end in
  {| state := if opens then OPEN else state s;
     failure_count := failure_count s + 1;
     success_count := success_count s;
     last_failure_time := now;
     opened_at := if opens then now else opened_at s |}.

(** No call changes the thresholds. *)
Definition thresholds (b : breaker) : Z * Z * Z :=
  (failure_threshold b, recovery_timeout b, success_threshold b).

(** A provider's circuit after five failures in a row, the last at
    1700000100 s, and the same circuit once the check made 31 s later has
    made it half-open. *)
Definition tripped : breaker :=
  failures circuit_breaker "provider:p"
    [1700000096; 1700000097; 1700000098; 1700000099; 1700000100]%Q.

Definition probing : breaker :=
  snd (is_allowed tripped "provider:p" 1700000131%Q).

(** The key a call is about. *)
Definition call_key (c : call) : string :=
  match c with
  | IsAllowed key _ | RecordSuccess key | RecordFailure key _ | Reset key => key
  end.

(** What the counters of a circuit can be in each state, under the
    thresholds [ft] and [st]. *)
Definition counters_fit (ft st : Z) (s : CircuitStats) : Prop :=
  match state s with
  | CLOSED => 0 <= failure_count s < ft /\ success_count s = 0
  | HALF_OPEN => failure_count s = 0 /\ 0 <= success_count s < st
  | OPEN => 1 <= failure_count s /\ 0 <= success_count s
  end.

End CircuitBreaker.

(** ** Sliding-window rate limiter *)

Module RateLimiter.

Local Open Scope Z_scope.

Record RateLimitResult := {
  allowed : bool;
  limit : Z;
  remaining : Z;
  reset_at : Z;
  retry_after : Z
}.

Record SlidingWindowLimiter := {
  max_requests : Z;
  window_seconds : Z;
  slot_count : Z;
  slot_duration : Q;
  _windows : gmap string (gmap Z Z);
  _last_cleanup : Q;
  _cleanup_interval : Z
}.

(** [int(x)] of a float: truncation toward zero. *)
Definition int (x : Q) : Z := Z.quot (Qnum x) (Z.pos (Qden x)).

Definition is_zero (x : Q) : bool := Qnum x =? 0.

(** [SlidingWindowLimiter.__init__] at clock reading [now]; [None] is the
    [ZeroDivisionError] of [window_seconds / slot_count]. *)
Definition __init__ (max_requests window_seconds slot_count cleanup_interval : Z)
    (now : Q) : option SlidingWindowLimiter :=
  if slot_count =? 0 then None
  else Some {| max_requests := max_requests;
               window_seconds := window_seconds;
               slot_count := slot_count;
               slot_duration := (inject_Z window_seconds / inject_Z slot_count)%Q;
               _windows := ∅;
               _last_cleanup := now;
               _cleanup_interval := cleanup_interval |}.

(** [SlidingWindowLimiter(max_requests=60, window_seconds=60)] *)
Definition default_limiter (now : Q) : option SlidingWindowLimiter :=
  __init__ 60 60 12 300 now.

Definition with_windows (l : SlidingWindowLimiter)
    (w : gmap string (gmap Z Z)) : SlidingWindowLimiter :=
  {| max_requests := max_requests l; window_seconds := window_seconds l;
     slot_count := slot_count l; slot_duration := slot_duration l;
     _windows := w; _last_cleanup := _last_cleanup l;
     _cleanup_interval := _cleanup_interval l |}.

(** [_current_slot]; [None] is the [ZeroDivisionError] of a zero
    [slot_duration]. *)
Definition _current_slot (l : SlidingWindowLimiter) (now : Q) : option Z :=
  if is_zero (slot_duration l) then None
  else Some (int (now / slot_duration l)%Q).

(** [range(current - slot_count + 1, current + 1)] *)
Definition window_range (l : SlidingWindowLimiter) (current : Z) : list Z :=
  seqZ (current - slot_count l + 1) (slot_count l).

Definition _get_window_slots (l : SlidingWindowLimiter) (now : Q)
  : option (list Z) :=
  match _current_slot l now with
  | Some current => Some (window_range l current)
  | None => None
  end.

(** What the cleanup leaves of one key's slots: the slots not below
    [min_valid_slot], and nothing of a key left without slots. *)
Definition cleanup_slots (min_valid_slot : Z) (slots : gmap Z Z)
  : option (gmap Z Z) :=
  let kept := filter (fun kv => ¬ (kv.1 < min_valid_slot)) slots in
  if decide (kept = ∅) then None else Some kept.

Definition _cleanup_if_needed (l : SlidingWindowLimiter) (now : Q)
  : option SlidingWindowLimiter :=
  if negb (Qle_bool (inject_Z (_cleanup_interval l)) (now - _last_cleanup l))
  then Some l
  else
    match _current_slot l now with
    | None => None
    | Some current_slot =>
        let min_valid_slot := current_slot - slot_count l in
        Some {| max_requests := max_requests l;
                window_seconds := window_seconds l;
                slot_count := slot_count l;
                slot_duration := slot_duration l;
                _windows := omap (cleanup_slots min_valid_slot) (_windows l);
                _last_cleanup := now;
                _cleanup_interval := _cleanup_interval l |}
    end.

(** [w.get(slot, 0)] *)
Definition count_at (w : gmap Z Z) (slot : Z) : Z := default 0 (w !! slot).

(** [sum(window.get(slot, 0) for slot in window_slots)] *)
Definition window_sum (w : gmap Z Z) (slots : list Z) : Z :=
  foldr Z.add 0 (map (count_at w) slots).

(** [check(key)] at clock reading [now]: the result and the limiter after
    the call; [None] when the call raises. *)
Definition check (l : SlidingWindowLimiter) (key : string) (now : Q)
  : option (RateLimitResult * SlidingWindowLimiter) :=
  match _cleanup_if_needed l now with
  | None => None
  | Some l =>
    match _current_slot l now, _get_window_slots l now with
    | Some current_slot, Some window_slots =>
        (* [self._windows[key]] on a [defaultdict] stores an empty window
           for a key it does not have *)
        let window := default ∅ (_windows l !! key) in
        let l := with_windows l (<[ key := window ]> (_windows l)) in
        let current_count := window_sum window window_slots in
        let reset := int ((inject_Z (current_slot + 1)) * slot_duration l)%Q in
        if max_requests l <=? current_count
        then Some ({| allowed := false; limit := max_requests l;
                      remaining := 0; reset_at := reset;
                      retry_after := Z.max 1 (reset - int now) |}, l)
        else
          let window := <[ current_slot := count_at window current_slot + 1 ]> window in
          Some ({| allowed := true; limit := max_requests l;
                   remaining := max_requests l - current_count - 1;
                   reset_at := reset; retry_after := 0 |},
                with_windows l (<[ key := window ]> (_windows l)))
    | _, _ => None
    end
  end.

(** The count the limiter holds for [key] at [slot]: 0 where it holds
    none. *)
Definition count_of (l : SlidingWindowLimiter) (key : string) (slot : Z) : Z :=
  count_at (default ∅ (_windows l !! key)) slot.

(** Whether a [check] at [now] runs the cleanup. *)
Definition cleanup_due (l : SlidingWindowLimiter) (now : Q) : bool :=
  Qle_bool (inject_Z (_cleanup_interval l)) (now - _last_cleanup l).

(** [get_status(key)] at clock reading [now]: the result and the limiter
    after the call, which holds a window for [key] as [check] leaves one;
    [None] when the call raises. *)
Definition get_status (l : SlidingWindowLimiter) (key : string) (now : Q)
  : option (RateLimitResult * SlidingWindowLimiter) :=
  match _get_window_slots l now with
  | None => None
  | Some window_slots =>
      let window := default ∅ (_windows l !! key) in
      let l := with_windows l (<[ key := window ]> (_windows l)) in
      let current_count := window_sum window window_slots in
      match _current_slot l now with
      | None => None
      | Some current_slot =>
          let reset := int ((inject_Z (current_slot + 1)) * slot_duration l)%Q in
          Some ({| allowed := current_count <? max_requests l;
                   limit := max_requests l;
                   remaining := Z.max 0 (max_requests l - current_count);
                   reset_at := reset;
                   retry_after := if current_count <? max_requests l then 0
                                  else Z.max 1 (reset - int now) |}, l)
      end
  end.

(** [reset(key)] *)
Definition reset (l : SlidingWindowLimiter) (key : string) : SlidingWindowLimiter :=
  match _windows l !! key with
  | Some _ => with_windows l (delete key (_windows l))
  | None => l
  end.

(** [check(key)] at each of the instants [nows] in turn: the slot and the
    verdict of every call, and the limiter at the end; [None] when a call
    raises. *)
Fixpoint checks (l : SlidingWindowLimiter) (key : string) (nows : list Q)
  : option (list (Z * bool) * SlidingWindowLimiter) :=
  match nows with
  | [] => Some ([], l)
  | now :: rest =>
      match _current_slot l now, check l key now with
      | Some slot, Some (res, l') =>
          match checks l' key rest with
          | Some (trace, l'') => Some ((slot, allowed res) :: trace, l'')
          | None => None
          end
      | _, _ => None
      end
  end.

(** *** Notions and sample inputs used in the statements below *)

(** The limiter [SlidingWindowLimiter(max_requests=60, window_seconds=60)]
    created at 1700000000 s. *)
Definition sixty_per_minute : SlidingWindowLimiter :=
  {| max_requests := 60; window_seconds := 60; slot_count := 12;
     slot_duration := (inject_Z 60 / inject_Z 12)%Q; _windows := ∅;
     _last_cleanup := 1700000000%Q; _cleanup_interval := 300 |}.

(** A limiter of one request per six seconds, in twelve slots of half a
    second, created at 1700000000 s; and the same limiter after it has
    allowed a request 10.2 s later, in slot 3400000020. *)
Definition half_second_slots : SlidingWindowLimiter :=
  {| max_requests := 1; window_seconds := 6; slot_count := 12;
     slot_duration := (inject_Z 6 / inject_Z 12)%Q; _windows := ∅;
     _last_cleanup := 1700000000%Q; _cleanup_interval := 300 |}.

Definition one_request_in : SlidingWindowLimiter :=
  with_windows half_second_slots {[ "10.0.0.1" := {[ 3400000020 := 1 ]} ]}.

(** How many of the calls of a trace were allowed in a slot [s] with
    [lo <= s < hi]. *)
Definition allowed_between (trace : list (Z * bool)) (lo hi : Z) : nat :=
  length (List.filter (fun sv => sv.2 && (lo <=? sv.1) && (sv.1 <? hi)) trace).

(** What holds of a limiter whose clock has reached slot [c0], of the
    calls [past] made for [key] so far: the limiter counts the allowed
    ones, and no window has more of them than the limit. *)
Definition counts_allowed (l : SlidingWindowLimiter) (key : string)
    (past : list (Z * bool)) (c0 : Z) : Prop :=
  (forall s, c0 - slot_count l <= s ->
             count_of l key s = Z.of_nat (allowed_between past s (s + 1)))
  /\ Forall (fun sv => sv.1 <= c0) past
  /\ forall start,
       Z.of_nat (allowed_between past start (start + slot_count l))
         <= Z.max 0 (max_requests l).

End RateLimiter.

(** ** Dispatcher selection and chat orchestrator *)

Module ChatOrchestrator.

Import ModelNormalizer.

Local Open Scope string_scope.

(** What one call of [DispatcherService.get_provider_for_model] finds
    outside of its own code: the provider list the provider manager
    returns, the element [random.choice] picks, the answers of
    [_is_available] and the scores of [RoutingScoreService.score_for]
    for the candidates of this call, [None] where that call raises (the
    [OverflowError] of its [math.exp]). *)
Record world := {
  all_providers : list provider;
  choice : list string -> string;
  _is_available : provider -> string -> bool;
  score_for : provider -> string -> option Q
}.

(** An element of [scored]. *)
Record scored_entry := {
  sc_provider : provider;
  sc_resolved : string;
  sc_score : Q
}.

Definition score_lt (a b : scored_entry) : bool :=
  negb (Qle_bool (sc_score b) (sc_score a)).

(** What [get_provider_for_model] does: it returns a provider and the
    model to ask it for, it returns [None], or it raises. *)
Inductive selection :=
| Selected (p : provider) (resolved_model : string)
| NoSelection
| DispatchRaised.

Definition is_candidate (variant_list excluded_ids : list string) (p : provider)
  : bool :=
  (String.eqb (status p) "active" || String.eqb (status p) "syncing")
  && existsb (fun v => bool_decide (v ∈ models p)) variant_list
  && negb (bool_decide (id p ∈ excluded_ids)).

(** [resolved_model] of the loop body: one of the variants the candidate
    lists, picked by [random.choice], or the requested name when it lists
    none. *)
Definition resolve (w : world) (model_name : string)
    (variant_list : list string) (p : provider) : string :=
  let available_models :=
    List.filter (fun v => bool_decide (v ∈ models p)) variant_list in
  match available_models with
  | [] => model_name
  | _ => choice w available_models
  end.

(** The loop [for provider in candidates]: the list [scored] it builds,
    in the order of the candidates; [None] when a [score_for] call
    raises. *)
Fixpoint score_candidates (w : world) (model_name : string)
    (variant_list : list string) (candidates : list provider)
  : option (list scored_entry) :=
  match candidates with
  | [] => Some []
  | p :: rest =>
      let resolved_model := resolve w model_name variant_list p in
      if _is_available w p resolved_model
      then
        match score_for w p resolved_model with
        | None => None
        | Some score =>
            match score_candidates w model_name variant_list rest with
            | Some scored =>
                Some ({| sc_provider := p; sc_resolved := resolved_model;
                         sc_score := score |} :: scored)
            | None => None
            end
        end
      else score_candidates w model_name variant_list rest
  end.

Definition get_provider_for_model (w : world) (model_name : string)
    (excluded_ids : list string) : selection :=
  match build_model_alias_maps (all_providers w) with
  | None => DispatchRaised
  | Some alias_maps =>
      let normalized_input :=
        str_or (canonical (normalize_model_name model_name)) model_name in
      let canonical_name :=
        match variant_to_canonical alias_maps !! normalized_input with
        | Some c => str_or c normalized_input
        | None => normalized_input
        end in
      let variant_set :=
        default {[ model_name ]}
                (canonical_to_variants alias_maps !! canonical_name) in
      let variant_list := elements variant_set in
      let candidates :=
        List.filter (is_candidate variant_list excluded_ids) (all_providers w) in
      match candidates with
      | [] => NoSelection
      | _ =>
          match score_candidates w model_name variant_list candidates with
          | None => DispatchRaised
          | Some scored =>
              match sort_desc score_lt scored with
              | picked :: _ => Selected (sc_provider picked) (sc_resolved picked)
              | [] => NoSelection
              end
          end
      end
  end.

(** The content of a response: an upstream body passed through, or one of
    the gateway's own error envelopes (the second with its [last_error]
    member). *)
Inductive content :=
| Upstream (body : string)
| Error (message type code : string)
| UpstreamError (message type code : string) (last_error : option string).

Record response := {
  status_code : Z;
  body : content
}.

(** What [ProxyService.forward_request] does in one call: it returns a
    response or raises an exception with the given text. *)
Inductive forwarded :=
| Responded (r : response)
| Failed (error : string).

(** The surroundings of one request: the verdict of the key check, the
    stored [chatMaxRetries] setting, and, for each attempt, the world of
    its dispatcher call and the proxy's behaviour. *)
Record env := {
  key_valid : bool;
  chatMaxRetries : option Z;
  world_at : nat -> world;
  forward_request : nat -> provider -> string -> forwarded
}.

Inductive outcome :=
| Unauthorized
| Raised
| Returned (r : response).

(** [max(1, await ConfigService.get_number("chatMaxRetries", 3) or 3)] *)
Definition max_retries (e : env) : Z :=
  let n := default 3%Z (chatMaxRetries e) in
  Z.max 1 (if (n =? 0)%Z then 3 else n).

Definition not_found (model : string) : response :=
  {| status_code := 404;
     body := Error ("没有上游服务站支持模型 '" +:+ model +:+ "' (Model not supported).")
                   "invalid_request_error" "model_not_found" |}.

Definition bad_gateway (last_error : option string) : response :=
  {| status_code := 502;
     body := UpstreamError
               "所有上游提供商均无法响应 (All upstream providers failed)."
               "api_error" "upstream_error" last_error |}.

(** The code after the loop; a response object is truthy, so
    [if last_error_response] asks whether one was captured. *)
Definition after_loop (last_error_response : option response)
    (last_error : option string) : response :=
  match last_error_response with
  | Some r => r
  | None => bad_gateway last_error
  end.

Definition is_2xx (r : response) : bool :=
  (200 <=? status_code r)%Z && (status_code r <? 300)%Z.

(** The loop [for attempt in range(1, max_retries + 1)] from [attempt]
    on, with [remaining] iterations left, followed by the code after the
    loop.  The second component lists the forwards made, oldest first:
    provider, resolved model, what the proxy did. *)
Fixpoint retry_loop (e : env) (model : string) (remaining attempt : nat)
    (tried_provider_ids : gset string) (last_error_response : option response)
    (last_error : option string)
  : outcome * list (provider * string * forwarded) :=
  match remaining with
  | O => (Returned (after_loop last_error_response last_error), [])
  | S remaining =>
      match get_provider_for_model (world_at e attempt) model
                                   (elements tried_provider_ids) with
      | DispatchRaised => (Raised, [])
      | NoSelection =>
          if Nat.eqb attempt 1 then (Returned (not_found model), [])
          else (Returned (after_loop last_error_response last_error), [])
      | Selected p resolved_model =>
          let tried_provider_ids := {[ id p ]} ∪ tried_provider_ids in
          let result := forward_request e attempt p resolved_model in
          match result with
          | Responded r =>
              if is_2xx r then (Returned r, [(p, resolved_model, result)])
              else
                let '(out, rest) :=
                  retry_loop e model remaining (S attempt) tried_provider_ids
                             (Some r) last_error in
                (out, (p, resolved_model, result) :: rest)
          | Failed err =>
              let '(out, rest) :=
                retry_loop e model remaining (S attempt) tried_provider_ids
                           last_error_response (Some err) in
              (out, (p, resolved_model, result) :: rest)
          end
      end
  end.

Definition chat_completions (e : env) (model : string)
  : outcome * list (provider * string * forwarded) :=
  if negb (key_valid e) then (Unauthorized, [])
  else retry_loop e model (Z.to_nat (max_retries e)) 1 ∅ None None.

(** The last response among the forwards of a request, and the text of
    the last exception. *)
Definition last_response (trace : list (provider * string * forwarded))
  : option response :=
  foldl (fun acc t => match t.2 with Responded r => Some r | Failed _ => acc end)
        None trace.

Definition last_failure (trace : list (provider * string * forwarded))
  : option string :=
  foldl (fun acc t => match t.2 with Failed err => Some err | Responded _ => acc end)
        None trace.

(** *** Notions and sample inputs used in the statements below *)

Definition forwarded_ids (trace : list (provider * string * forwarded))
  : list string :=
  (fun t => id t.1.1) <$> trace.

Definition not_success (t : provider * string * forwarded) : Prop :=
  match t.2 with
  | Responded r => is_2xx r = false
  | Failed _ => True
  end.

(** The forwards of a request from attempt [attempt] on, when the ids in
    [tried] have been tried before: each goes to the provider, and asks
    for the model, that the dispatcher selects at that attempt with the ids
    tried so far excluded, and it is what the proxy does at that attempt. *)
Inductive forwards_from (e : env) (model : string)
  : nat -> gset string -> list (provider * string * forwarded) -> Prop :=
| forwards_nil attempt tried : forwards_from e model attempt tried []
| forwards_cons attempt tried p resolved_model rest :
    get_provider_for_model (world_at e attempt) model (elements tried) =
      Selected p resolved_model ->
    forwards_from e model (S attempt) ({[ id p ]} ∪ tried) rest ->
    forwards_from e model attempt tried
      ((p, resolved_model, forward_request e attempt p resolved_model) :: rest).

(** The answer after a loop that obtained no 2xx response: the response
    captured last, or the 502 envelope with the text of the exception
    caught last. *)
Definition error_answer (trace : list (provider * string * forwarded))
  : response :=
  match last_response trace with
  | Some r => r
  | None =>
      {| status_code := 502;
         body := UpstreamError
                   "所有上游提供商均无法响应 (All upstream providers failed)."
                   "api_error" "upstream_error" (last_failure trace) |}
  end.

(** Provider [a] lists the model [2] and provider [b] the model [2-pro];
    both are available, and [a] scores higher. *)
Definition lists_2 : provider :=
  {| id := "a"; name := "A"; status := "active"; models := ["2"] |}.

Definition lists_2_pro : provider :=
  {| id := "b"; name := "B"; status := "active"; models := ["2-pro"] |}.

Definition both_available : world :=
  {| all_providers := [lists_2; lists_2_pro];
     choice := fun l => List.hd "" l;
     _is_available := fun _ _ => true;
     score_for := fun p _ =>
       if String.eqb (id p) "a" then Some (9 # 10)%Q else Some (1 # 2)%Q |}.

(** Two providers advertise [claude-3-opus]; [a] scores higher and
    answers 500, [b] answers 200. *)
Definition provider_a : provider :=
  {| id := "a"; name := "A"; status := "active"; models := ["claude-3-opus"] |}.

Definition provider_b : provider :=
  {| id := "b"; name := "B"; status := "active"; models := ["claude-3-opus"] |}.

Definition error_500 : response :=
  {| status_code := 500; body := Upstream "overloaded" |}.

Definition ok_200 : response :=
  {| status_code := 200; body := Upstream "done" |}.

Definition a_fails_b_answers : env :=
  {| key_valid := true;
     chatMaxRetries := None;
     world_at := fun _ =>
       {| all_providers := [provider_a; provider_b];
          choice := fun l => List.hd "" l;
          _is_available := fun _ _ => true;
          score_for := fun p _ =>
            if String.eqb (id p) "a" then Some (9 # 10)%Q else Some (1 # 2)%Q |};
     forward_request := fun _ p _ =>
       if String.eqb (id p) "a" then Responded error_500
       else Responded ok_200 |}.

(** The variants a request for [model_name] can be served with, as
    [get_provider_for_model] works them out from the provider list;
    [None] when building the alias maps raises. *)
Definition variant_list_for (ps : list provider) (model_name : string)
  : option (list string) :=
  match build_model_alias_maps ps with
  | None => None
  | Some alias_maps =>
      let normalized_input :=
        str_or (canonical (normalize_model_name model_name)) model_name in
      let canonical_name :=
        match variant_to_canonical alias_maps !! normalized_input with
        | Some c => str_or c normalized_input
        | None => normalized_input
        end in
      Some (elements (default {[ model_name ]}
                        (canonical_to_variants alias_maps !! canonical_name)))
  end.

End ChatOrchestrator.

(** * Properties *)

(** ** The stable descending sort *)

Section SortHead.

Context {A : Type} (lt : A -> A -> bool).

Lemma insert_desc_elem (x : A) (l : list A) (y : A) :
  y ∈ insert_desc lt x l <-> y = x \/ y ∈ l.
Proof.
  induction l as [|z l IH]; simpl.
  - rewrite list_elem_of_singleton, elem_of_nil. tauto.
  - destruct (lt x z); rewrite !elem_of_cons, ?IH, ?elem_of_cons; tauto.
Qed.

Lemma sort_desc_elem (l : list A) (y : A) : y ∈ sort_desc lt l <-> y ∈ l.
Proof.
  induction l as [|x l IH]; simpl; [done|].
  rewrite insert_desc_elem, IH, elem_of_cons. tauto.
Qed.

(** The sorted list starts with the first element that no element is
    above. *)
Lemma sort_desc_head (before : list A) (best : A) (after : list A) :
  Forall (fun c => lt c best = true) before ->
  Forall (fun c => lt best c = false) after ->
  exists rest, sort_desc lt (before ++ best :: after) = best :: rest.
Proof.
  intros Hbefore Hafter.
  assert (exists rest, sort_desc lt (best :: after) = best :: rest) as Hbest.
  { simpl. destruct (sort_desc lt after) as [|y ys] eqn:E; simpl; [eauto|].
    assert (y ∈ after) as Hy by (apply sort_desc_elem; rewrite E; left).
    rewrite Forall_forall in Hafter. rewrite (Hafter y Hy). eauto. }
  induction Hbefore as [|c before Hc _ IH]; [exact Hbest|].
  destruct IH as [rest IH].
  change (sort_desc lt ((c :: before) ++ best :: after))
    with (insert_desc lt c (sort_desc lt (before ++ best :: after))).
  rewrite IH. simpl. rewrite Hc. eauto.
Qed.

Hypothesis lt_trans : forall a b c, lt a b = true -> lt b c = true -> lt a c = true.
Hypothesis lt_cotrans : forall a b c, lt a c = true -> lt a b = true \/ lt b c = true.

(** A list that is not empty has a first element that none is above. *)
Lemma first_maximum (l : list A) :
  l <> [] ->
  exists before best after,
    l = before ++ best :: after
    /\ Forall (fun c => lt c best = true) before
    /\ Forall (fun c => lt best c = false) after.
Proof.
  induction l as [|x l IH]; intros Hne; [done|].
  destruct l as [|y l'].
  - exists [], x, []. by repeat split.
  - destruct IH as (before & best & after & Heq & Hbefore & Hafter); [done|].
    destruct (lt x best) eqn:Hx.
    + exists (x :: before), best, after. rewrite Heq. repeat split; [|done].
      by constructor.
    + exists [], x, (y :: l'). repeat split; [done|]. rewrite Heq.
      apply Forall_app. split; [|constructor; [done|]].
      * eapply Forall_impl; [exact Hbefore|]. intros c Hc.
        destruct (lt x c) eqn:Hxc; [|done].
        by rewrite (lt_trans x c best) in Hx.
      * eapply Forall_impl; [exact Hafter|]. intros c Hc.
        destruct (lt x c) eqn:Hxc; [|done].
        destruct (lt_cotrans x best c Hxc); congruence.
Qed.

End SortHead.

(** ** Model normalizer *)

Module ModelNormalizerSpec.

Import ModelNormalizer.

Local Open Scope string_scope.
Local Open Scope Z_scope.
Local Open Scope list_scope.

(** *** The token loop *)

Lemma token_loop_from (tokens : list string) : forall acc,
  canonical_tokens (foldl token_step acc tokens) =
    (canonical_tokens acc ++ List.filter in_canonical tokens)%list
  /\ family_tokens (foldl token_step acc tokens) =
    (family_tokens acc ++ List.filter in_family tokens)%list.
Proof.
  induction tokens as [|t tokens IH]; intros acc; simpl.
  - by rewrite !app_nil_r.
  - destruct (IH (token_step acc t)) as [-> ->].
    unfold token_step, in_canonical, in_family.
    destruct (is_long_numeric t); simpl; [done|].
    destruct (parse_version t) as [v|] eqn:Ev; simpl.
    + by rewrite <- app_assoc.
    + destruct (bool_decide (t ∈ VARIANT_TOKENS)); simpl; [done|].
      by rewrite <- !app_assoc.
Qed.

(** C3, as corrected.  [cleaned] is the stripped input without its
    [models/], [model/] or [m/] prefix, in lower case.  [canonical] is
    the [-]-join of the tokens that are neither long numeric tags nor
    variant tokens (version tokens stay), [family_key] the join of those
    that are not version tokens either; when a join is empty the result
    is [without_vendor], the part of [cleaned] after its last [/], and
    not [cleaned] itself. *)
Theorem normalize_model_name_joins (r : string) :
  let tokens := tokenize (without_vendor (clean r)) in
  cleaned (normalize_model_name r) = lower (strip_prefix (strip r))
  /\ canonical (normalize_model_name r) =
       (if nonempty (join "-" (List.filter in_canonical tokens))
        then join "-" (List.filter in_canonical tokens)
        else without_vendor (clean r))
  /\ family_key (normalize_model_name r) =
       (if nonempty (join "-" (List.filter in_family tokens))
        then join "-" (List.filter in_family tokens)
        else without_vendor (clean r)).
Proof.
  simpl. unfold normalize_model_name, token_loop. simpl.
  destruct (token_loop_from (tokenize (without_vendor (clean r)))
              {| version_tokens := []; canonical_tokens := [];
                 family_tokens := [] |}) as [-> ->].
  done.
Qed.

(** C3 as stated fails: every token of [openai/pro] is dropped, and the
    result falls back to [pro], not to the cleaned form [openai/pro]. *)
Lemma fallback_is_without_vendor :
  cleaned (normalize_model_name "openai/pro") = "openai/pro"
  /\ canonical_tokens
       (token_loop (tokenize (without_vendor (clean "openai/pro")))) = []
  /\ canonical (normalize_model_name "openai/pro") = "pro"
  /\ family_key (normalize_model_name "openai/pro") = "pro"
  /\ canonical (normalize_model_name "openai/pro")
       <> cleaned (normalize_model_name "openai/pro").
Proof. vm_compute. repeat split. discriminate. Qed.

(** *** Python's order of integer lists *)

Lemma list_lt_trans (a b c : list Z) :
  list_lt a b = true -> list_lt b c = true -> list_lt a c = true.
Proof.
  revert b c. induction a as [|x a IH]; intros [|y b] [|z c]; simpl; try done.
  destruct (Z.eqb_spec x y), (Z.eqb_spec y z), (Z.eqb_spec x z);
    subst; try lia; eauto; intros; try lia;
    repeat match goal with H : (_ <? _) = true |- _ => apply Z.ltb_lt in H end;
    try lia; apply Z.ltb_lt; lia.
Qed.

Lemma list_lt_cotrans (a b c : list Z) :
  list_lt a c = true -> list_lt a b = true \/ list_lt b c = true.
Proof.
  revert b c. induction a as [|x a IH]; intros [|y b] [|z c]; simpl;
    try done; eauto.
  destruct (Z.eqb_spec x z), (Z.eqb_spec x y), (Z.eqb_spec y z);
    subst; try lia; eauto; intros H;
    try apply Z.ltb_lt in H; rewrite ?Z.ltb_lt; lia.
Qed.

(** *** The family map *)

Lemma od_get_set {V : Type} (k : string) (v : V) (d : list (string * V)) (k' : string) :
  od_get k' (od_set k v d) = if decide (k = k') then Some v else od_get k' d.
Proof.
  induction d as [|[k0 v0] d IH]; simpl.
  - destruct (String.eqb_spec k k'); by destruct (decide (k = k')).
  - destruct (String.eqb_spec k0 k) as [->|Hne]; simpl.
    + destruct (String.eqb_spec k k'); by destruct (decide (k = k')).
    + destruct (String.eqb_spec k0 k') as [->|]; [|exact IH].
      by rewrite decide_False by congruence.
Qed.

Lemma od_set_elem {V : Type} (k : string) (v : V) (d : list (string * V)) kv :
  kv ∈ od_set k v d -> kv = (k, v) \/ kv ∈ d.
Proof.
  induction d as [|[k0 v0] d IH]; simpl.
  - rewrite list_elem_of_singleton. tauto.
  - destruct (String.eqb k0 k) eqn:E; rewrite !elem_of_cons.
    + apply String.eqb_eq in E as ->. tauto.
    + intros [->|H]; [tauto|]. destruct (IH H); tauto.
Qed.

Lemma od_get_elem {V : Type} (k : string) (d : list (string * V)) (v : V) :
  od_get k d = Some v -> (k, v) ∈ d.
Proof.
  induction d as [|[k0 v0] d IH]; simpl; [done|].
  destruct (String.eqb_spec k0 k) as [->|].
  - intros [= ->]. left.
  - intros H. right. by apply IH.
Qed.

Lemma od_set_new {V : Type} (k : string) (v : V) (d : list (string * V)) :
  od_get k d = None -> od_set k v d = d ++ [(k, v)].
Proof.
  induction d as [|[k0 v0] d IH]; simpl; [done|].
  destruct (String.eqb k0 k); [done|]. intros H. by rewrite IH.
Qed.

Lemma od_set_last {V : Type} (k : string) (v v' : V) (d : list (string * V)) :
  od_get k d = None -> od_set k v' (d ++ [(k, v)]) = d ++ [(k, v')].
Proof.
  induction d as [|[k0 v0] d IH]; simpl.
  - by rewrite String.eqb_refl.
  - destruct (String.eqb k0 k); [done|]. intros H. by rewrite IH.
Qed.

Lemma od_get_app_new {V : Type} (k : string) (v : V) (d : list (string * V)) :
  od_get k d = None -> od_get k (d ++ [(k, v)]) = Some v.
Proof.
  induction d as [|[k0 v0] d IH]; simpl.
  - by rewrite String.eqb_refl.
  - destruct (String.eqb k0 k); [done|]. exact IH.
Qed.

Lemma record_model_new fm raw_model :
  od_get (family_of raw_model) fm = None ->
  record_model fm raw_model =
    fm ++ [(family_of raw_model,
            {| variants := {[ raw_model ]} ∪ ∅;
               candidates := [] ++ [candidate_of raw_model] |})].
Proof.
  intros Hnone. unfold record_model. fold (family_of raw_model).
  rewrite Hnone, (od_set_new _ _ _ Hnone), (od_get_app_new _ _ _ Hnone).
  by rewrite od_set_last.
Qed.

Lemma record_model_old fm raw_model entry :
  od_get (family_of raw_model) fm = Some entry ->
  record_model fm raw_model =
    od_set (family_of raw_model)
           {| variants := {[ raw_model ]} ∪ variants entry;
              candidates := candidates entry ++ [candidate_of raw_model] |}
           fm.
Proof.
  intros Hsome. unfold record_model. fold (family_of raw_model).
  by rewrite !Hsome.
Qed.

Lemma record_model_spec fm raw_model :
  has_candidates fm ->
  has_candidates (record_model fm raw_model)
  /\ recorded (record_model fm raw_model) raw_model
  /\ forall r, recorded fm r -> recorded (record_model fm raw_model) r.
Proof.
  intros Hc. destruct (od_get (family_of raw_model) fm) as [entry|] eqn:E.
  - rewrite (record_model_old _ _ _ E). split; [|split].
    + apply Forall_forall. intros kv Hin.
      apply od_set_elem in Hin as [->|Hin]; simpl.
      * by destruct (candidates entry).
      * unfold has_candidates in Hc. rewrite Forall_forall in Hc. by apply Hc.
    + exists (family_of raw_model). eexists.
      rewrite od_get_set, decide_True by done. split; [done|]. simpl.
      apply elem_of_union_l, elem_of_singleton. done.
    + intros r (k & e & Hk & Hr).
      destruct (decide (k = family_of raw_model)) as [->|Hne].
      * exists (family_of raw_model). eexists.
        rewrite od_get_set, decide_True by done. split; [done|]. simpl.
        apply elem_of_union_r. congruence.
      * exists k, e. by rewrite od_get_set, decide_False.
  - rewrite (record_model_new _ _ E). split; [|split].
    + apply Forall_app. split; [done|]. by constructor.
    + exists (family_of raw_model). eexists.
      rewrite od_get_app_new by done. split; [done|]. simpl.
      apply elem_of_union_l, elem_of_singleton. done.
    + intros r (k & e & Hk & Hr). exists k, e. split; [|done].
      rewrite <- (od_set_new _ {| variants := {[raw_model]} ∪ ∅;
                                 candidates := [] ++ [candidate_of raw_model] |}
                             _ E).
      rewrite od_get_set. destruct (decide _) as [<-|]; [congruence|done].
Qed.

Lemma build_family_map_spec (ps : list provider) :
  has_candidates (build_family_map ps)
  /\ forall p r, p ∈ ps -> r ∈ models p -> recorded (build_family_map ps) r.
Proof.
  unfold build_family_map.
  assert (forall (l : list string) fm,
            has_candidates fm ->
            has_candidates (foldl record_model fm l)
            /\ (forall r, r ∈ l -> recorded (foldl record_model fm l) r)
            /\ (forall r, recorded fm r -> recorded (foldl record_model fm l) r))
    as Hinner.
  { induction l as [|x l IH]; intros fm Hc; simpl.
    - split; [done|]. split; [|done]. intros r Hr. by apply elem_of_nil in Hr.
    - destruct (record_model_spec fm x Hc) as (Hc' & Hx & Hkeep).
      destruct (IH _ Hc') as (IH1 & IH2 & IH3). split; [done|]. split.
      + intros r Hr. apply elem_of_cons in Hr as [->|Hr]; eauto.
      + eauto. }
  assert (forall fm,
            has_candidates fm ->
            has_candidates
              (foldl (fun fm p => foldl record_model fm (models p)) fm ps)
            /\ (forall p r, p ∈ ps -> r ∈ models p ->
                  recorded (foldl (fun fm p => foldl record_model fm (models p))
                                  fm ps) r)
            /\ (forall r, recorded fm r ->
                  recorded (foldl (fun fm p => foldl record_model fm (models p))
                                  fm ps) r)) as Houter.
  { induction ps as [|q ps IH]; intros fm Hc; simpl.
    - split; [done|]. split; [|done]. intros p r Hp. by apply elem_of_nil in Hp.
    - destruct (Hinner (models q) fm Hc) as (Hc' & Hq & Hkeep).
      destruct (IH _ Hc') as (IH1 & IH2 & IH3). split; [done|]. split.
      + intros p r Hp Hr. apply elem_of_cons in Hp as [->|Hp]; eauto.
      + eauto. }
  destruct (Houter [] (Forall_nil_2 _)) as (H1 & H2 & _). eauto.
Qed.

(** *** The preferred candidate *)

Lemma version_lt_trans (a b c : candidate) :
  version_lt a b = true -> version_lt b c = true -> version_lt a c = true.
Proof. apply list_lt_trans. Qed.

Lemma version_lt_cotrans (a b c : candidate) :
  version_lt a c = true -> version_lt a b = true \/ version_lt b c = true.
Proof. apply list_lt_cotrans. Qed.

Lemma filter_nil_Forall {A : Type} (f : A -> bool) (l : list A) :
  List.filter f l = [] -> Forall (fun x => f x = false) l.
Proof.
  induction l as [|x l IH]; simpl; [done|].
  destruct (f x) eqn:E; [done|]. intros H. constructor; auto.
Qed.

Lemma preferred_candidate_spec (cands : list candidate) :
  cands <> [] ->
  exists best, preferred_candidate cands = Some best /\ first_highest cands best.
Proof.
  intros Hne. destruct cands as [|first rest]; [done|].
  unfold preferred_candidate.
  destruct (List.filter has_version (first :: rest)) as [|c cs] eqn:E.
  - exists first. split; [done|]. left. split; [|done].
    eapply Forall_impl; [apply filter_nil_Forall, E|]. intros c Hc.
    unfold has_version in Hc. by destruct (cand_version c).
  - destruct (first_maximum version_lt version_lt_trans version_lt_cotrans
                (c :: cs)) as (before & best & after & Heq & Hb & Ha); [done|].
    destruct (sort_desc_head version_lt before best after Hb Ha) as [tl Hs].
    exists best. rewrite Heq, Hs. split; [done|]. right.
    exists before, after. by rewrite <- E in Heq.
Qed.

(** C2, as corrected.  For every family group of
    [build_model_alias_maps], the family's variant set is stored under the
    canonical of its preferred candidate, which is: among the candidates
    that have a version, the one whose version tuple is highest in
    Python's order of lists (the first differing element decides, and a
    proper prefix is smaller: no padding), and of several with that same
    tuple the one seen first; the first candidate when none has a
    version. *)
Theorem preferred_is_first_highest (ps : list provider)
    (key : string) (entry : family_entry) (maps : ModelAliasMaps) :
  (key, entry) ∈ build_family_map ps ->
  exists best maps',
    preferred_candidate (candidates entry) = Some best
    /\ process_family maps entry = Some maps'
    /\ canonical_to_variants maps' !! cand_canonical best = Some (variants entry)
    /\ first_highest (candidates entry) best.
Proof.
  intros Hin. destruct (build_family_map_spec ps) as [Hc _].
  unfold has_candidates in Hc. rewrite Forall_forall in Hc.
  destruct (preferred_candidate_spec (candidates entry) (Hc _ Hin))
    as (best & Hbest & Hfirst).
  exists best. unfold process_family. rewrite Hbest. eexists.
  split; [done|]. split; [done|]. simpl. by rewrite lookup_insert_eq.
Qed.

Lemma x_family_built : build_family_map x_1_then_x_1_0 = [("x", x_family)].
Proof. vm_compute. reflexivity. Qed.

Lemma preferred_is_first_highest_witness :
  exists best maps',
    preferred_candidate (candidates x_family) = Some best
    /\ process_family {| canonical_to_variants := ∅; variant_to_canonical := ∅ |}
                      x_family = Some maps'
    /\ canonical_to_variants maps' !! cand_canonical best = Some (variants x_family)
    /\ first_highest (candidates x_family) best.
Proof.
  apply (preferred_is_first_highest x_1_then_x_1_0 "x").
  rewrite x_family_built. left.
Defined.

(** C2 as stated fails: the tuples [(1)] and [(1, 0)] are equal once
    padded, so the candidate seen first, [x-1], would be preferred; the
    code sorts by Python's list order, in which [(1, 0)] is higher, and
    stores the family under [x-1.0]. *)
Lemma padding_is_not_applied :
  build_family_map x_1_then_x_1_0 = [("x", x_family)]
  /\ compare_version_parts [1] [1; 0] = 0
  /\ padded_preferred (candidates x_family) =
       Some {| cand_canonical := "x-1"; cand_version := [1] |}
  /\ preferred_candidate (candidates x_family) =
       Some {| cand_canonical := "x-1.0"; cand_version := [1; 0] |}
  /\ option_map (fun maps => (canonical_to_variants maps !! "x-1.0",
                              canonical_to_variants maps !! "x-1"))
                (build_model_alias_maps x_1_then_x_1_0) =
       Some (Some (variants x_family), None).
Proof. repeat apply conj; vm_compute; reflexivity. Qed.

(** *** Processing the families *)

Lemma write_list_lookup (pc : string) (l : list string) (k : string) :
  forall m : gmap string string,
  foldl (fun m variant =>
           <[ variant := pc ]> (<[ renormalized variant := pc ]> m)) m l !! k =
    if decide (k ∈ l \/ k ∈ renormalized <$> l) then Some pc else m !! k.
Proof.
  induction l as [|v l IH]; intros m.
  - destruct (decide _) as [[H|H]|]; [| |done].
    + by apply elem_of_nil in H.
    + rewrite fmap_nil in H. by apply elem_of_nil in H.
  - cbn [foldl]. rewrite IH.
    destruct (decide (k ∈ l \/ k ∈ renormalized <$> l)) as [Hin|Hout];
      destruct (decide (k ∈ v :: l \/ k ∈ renormalized <$> v :: l))
        as [Hin'|Hout'];
      rewrite ?fmap_cons, ?elem_of_cons in *; try done.
    + exfalso. tauto.
    + rewrite !lookup_insert. repeat case_decide; subst; try done.
      exfalso. destruct Hin' as [[?|?]|[?|?]]; try tauto; congruence.
    + rewrite !lookup_insert. repeat case_decide; subst; try done;
        exfalso; tauto.
Qed.

Lemma write_variants_lookup pc (vs : gset string) (m : gmap string string) k :
  write_variants pc vs m !! k =
    if decide (k ∈ vs \/ k ∈ (set_map renormalized vs : gset string))
    then Some pc else m !! k.
Proof.
  unfold write_variants.
  change (fun (m0 : gmap string string) variant =>
            <[variant:=pc]> (<[canonical (normalize_model_name variant):=pc]> m0))
    with (fun (m0 : gmap string string) variant =>
            <[variant:=pc]> (<[renormalized variant:=pc]> m0)).
  rewrite write_list_lookup.
  assert ((k ∈ elements vs \/ k ∈ renormalized <$> elements vs)
          <-> (k ∈ vs \/ k ∈ (set_map renormalized vs : gset string))) as Hiff.
  { rewrite elem_of_elements, elem_of_map, list_elem_of_fmap.
    setoid_rewrite elem_of_elements. tauto. }
  destruct (decide (k ∈ elements vs \/ _)), (decide (k ∈ vs \/ _)); tauto.
Qed.

Lemma process_family_lookup maps entry pc :
  preferred_canonical entry = Some pc ->
  exists maps',
    process_family maps entry = Some maps'
    /\ (forall k,
          variant_to_canonical maps' !! k =
            if decide (k ∈ written_keys entry) then Some pc
            else variant_to_canonical maps !! k)
    /\ (forall c,
          canonical_to_variants maps' !! c =
            if decide (c = pc) then Some (variants entry)
            else canonical_to_variants maps !! c).
Proof.
  intros Hpc. unfold written_keys. rewrite Hpc.
  unfold preferred_canonical in Hpc. unfold process_family.
  destruct (preferred_candidate (candidates entry)) as [best|]; [|done].
  simpl in Hpc. injection Hpc as <-.
  eexists. split; [reflexivity|].
  cbn [variant_to_canonical canonical_to_variants].
  change (canonical (normalize_model_name (cand_canonical best)))
    with (renormalized (cand_canonical best)).
  split.
  - intros k. rewrite !lookup_insert, write_variants_lookup.
    destruct (decide (k ∈ _ ∪ _ ∪ _)) as [Hin|Hout];
      rewrite !elem_of_union, !elem_of_singleton in *;
      repeat case_decide; subst; try done; exfalso; intuition congruence.
  - intros c. rewrite lookup_insert. repeat case_decide; subst; done.
Qed.

Lemma process_families_app (l1 l2 : list (string * family_entry)) :
  forall maps,
  process_families maps (l1 ++ l2) =
    match process_families maps l1 with
    | Some maps' => process_families maps' l2
    | None => None
    end.
Proof.
  induction l1 as [|[k e] l1 IH]; intros maps; simpl; [done|].
  destruct (process_family maps e); [apply IH|done].
Qed.

Lemma variants_written (entry : family_entry) (pc r : string) :
  preferred_canonical entry = Some pc ->
  r ∈ variants entry -> r ∈ written_keys entry.
Proof.
  intros Hpc Hr. unfold written_keys. rewrite Hpc.
  apply elem_of_union_l, elem_of_union_r, Hr.
Qed.

Lemma preferred_canonical_some (entry : family_entry) :
  candidates entry <> [] -> exists pc, preferred_canonical entry = Some pc.
Proof.
  intros Hne. destruct (preferred_candidate_spec _ Hne) as (best & Hb & _).
  exists (cand_canonical best). unfold preferred_canonical. by rewrite Hb.
Qed.

Lemma process_families_spec (fm : list (string * family_entry)) :
  has_candidates fm ->
  forall maps,
  consistent maps ->
  exists maps',
    process_families maps fm = Some maps'
    /\ consistent maps'
    /\ (forall k, is_Some (variant_to_canonical maps !! k) ->
                  is_Some (variant_to_canonical maps' !! k))
    /\ (forall ke r, ke ∈ fm -> r ∈ variants ke.2 ->
                     is_Some (variant_to_canonical maps' !! r))
    /\ (forall k, Forall (fun ke => k ∉ written_keys ke.2) fm ->
                  variant_to_canonical maps' !! k = variant_to_canonical maps !! k)
    /\ (forall c, Forall (fun ke => preferred_canonical ke.2 <> Some c) fm ->
                  canonical_to_variants maps' !! c = canonical_to_variants maps !! c).
Proof.
  induction 1 as [|[key entry] fm Hne _ IH]; intros maps Hcons.
  - exists maps. repeat split; try done. intros ke r Hin.
    by apply elem_of_nil in Hin.
  - simpl in Hne. destruct (preferred_canonical_some entry Hne) as [pc Hpc].
    destruct (process_family_lookup maps entry pc Hpc) as (maps1 & Hp & Hv & Hc).
    assert (consistent maps1) as Hcons1.
    { intros k c. rewrite Hv, Hc. repeat case_decide; subst; try done; eauto.
      congruence. }
    destruct (IH maps1 Hcons1) as (maps' & Hrest & Hcons' & Hmono & Hcov & Hfv & Hfc).
    exists maps'. simpl. rewrite Hp. split; [done|]. split; [done|].
    split; [|split; [|split]].
    + intros k Hk. apply Hmono. rewrite Hv. by case_decide.
    + intros ke r Hin Hr. apply elem_of_cons in Hin as [->|Hin]; [|eauto].
      apply Hmono. rewrite Hv, decide_True; [done|].
      by eapply variants_written.
    + intros k Hk. apply Forall_cons in Hk as [Hk Hks]. simpl in Hk.
      rewrite Hfv by done. rewrite Hv. by rewrite decide_False.
    + intros c Hk. apply Forall_cons in Hk as [Hk Hks]. simpl in Hk.
      rewrite Hfc by done. rewrite Hc. rewrite decide_False; [done|].
      congruence.
Qed.

Lemma recorded_elem (fm : list (string * family_entry)) (r : string) :
  recorded fm r -> exists ke, ke ∈ fm /\ r ∈ variants ke.2.
Proof.
  intros (k & e & Hk & Hr). exists (k, e). split; [|done].
  by apply od_get_elem.
Qed.

(** What the alias maps do cover.  For every provider set and every raw
    identifier [r] of some provider's [models] list,
    [build_model_alias_maps] returns maps in which [variant_to_canonical]
    has an entry for [r], and [canonical_to_variants] has an entry for
    that canonical.  The entry is the variant set of [r]'s own family,
    which contains [r], when no family processed after it assigns the key
    [r] or is stored under the same preferred canonical; when one is, the
    later family's set replaces it. *)
Theorem alias_maps_cover_raw (ps : list provider) (p : provider) (r : string) :
  p ∈ ps -> r ∈ models p ->
  exists maps c,
    build_model_alias_maps ps = Some maps
    /\ variant_to_canonical maps !! r = Some c
    /\ is_Some (canonical_to_variants maps !! c)
    /\ forall before key entry after,
         build_family_map ps = before ++ (key, entry) :: after ->
         r ∈ variants entry ->
         Forall (fun ke => (r ∉ written_keys (ke.2))
                           /\ (preferred_canonical (ke.2)
                               <> preferred_canonical entry))
                after ->
         canonical_to_variants maps !! c = Some (variants entry).
Proof.
  intros Hp Hr. destruct (build_family_map_spec ps) as [Hcand Hrec].
  destruct (recorded_elem _ r (Hrec p r Hp Hr)) as (ke & Hke & Hrke).
  assert (consistent {| canonical_to_variants := ∅; variant_to_canonical := ∅ |})
    as Hempty by (intros k c; simpl; by rewrite lookup_empty).
  destruct (process_families_spec _ Hcand _ Hempty)
    as (maps & Hbuild & Hcons & _ & Hcov & _ & _).
  destruct (Hcov ke r Hke Hrke) as [c Hc].
  exists maps, c. split; [exact Hbuild|]. split; [exact Hc|].
  split; [by eapply Hcons|].
  intros before key entry after Hsplit Hin Hafter.
  unfold build_model_alias_maps in Hbuild.
  rewrite Hsplit in Hbuild, Hcand.
  unfold has_candidates in Hcand.
  apply Forall_app in Hcand as [Hcb Hca].
  apply Forall_cons in Hca as [Hce Hca]. simpl in Hce.
  rewrite process_families_app in Hbuild.
  destruct (process_families_spec before Hcb _ Hempty)
    as (maps0 & Hm0 & Hcons0 & _).
  rewrite Hm0 in Hbuild. simpl in Hbuild.
  destruct (preferred_canonical_some entry Hce) as [pc Hpc].
  destruct (process_family_lookup maps0 entry pc Hpc) as (maps1 & Hp1 & Hv & Hcv).
  rewrite Hp1 in Hbuild.
  assert (consistent maps1) as Hcons1.
  { intros k c'. rewrite Hv, Hcv. repeat case_decide; subst; try done; eauto.
    congruence. }
  destruct (process_families_spec after Hca maps1 Hcons1)
    as (maps2 & Hm2 & _ & _ & _ & Hfv & Hfc).
  rewrite Hm2 in Hbuild. injection Hbuild as ->.
  assert (variant_to_canonical maps !! r = Some pc) as Hrpc.
  { rewrite Hfv.
    - rewrite Hv, decide_True; [done|]. by eapply variants_written.
    - eapply Forall_impl; [exact Hafter|]. by intros ke' [? _]. }
  rewrite Hrpc in Hc. injection Hc as <-.
  rewrite Hfc.
  - by rewrite Hcv, decide_True.
  - eapply Forall_impl; [exact Hafter|]. intros ke' [_ Hd]. by rewrite <- Hpc.
Qed.

(** Decides a closed decidable proposition by evaluation. *)
Ltac by_evaluation :=
  match goal with
  | |- ?P => apply (bool_decide_unpack P); vm_compute; exact I
  end.

Lemma alias_maps_cover_raw_witness :
  exists maps c,
    build_model_alias_maps gpt_and_claude = Some maps
    /\ variant_to_canonical maps !! "gpt-4" = Some c
    /\ canonical_to_variants maps !! c = Some (variants gpt_family)
    /\ "gpt-4" ∈ variants gpt_family.
Proof.
  assert ("gpt-4" ∈ variants gpt_family) as Hin
    by by_evaluation.
  destruct (alias_maps_cover_raw gpt_and_claude
              {| id := "a"; name := "A"; status := "active";
                 models := ["gpt-4"; "gpt-4-turbo"] |} "gpt-4")
    as (maps & c & Hbuild & Hc & _ & Hback).
  - left.
  - left.
  - exists maps, c. split; [exact Hbuild|]. split; [exact Hc|].
    split; [|exact Hin].
    apply (Hback [] "gpt" gpt_family [("claude", claude_family)]).
    + vm_compute. reflexivity.
    + exact Hin.
    + constructor; [|constructor]. split.
      * by_evaluation.
      * vm_compute. discriminate.
Defined.

(** One provider that lists [2] and [2-pro]: the family of [2-pro],
    processed second, is stored under the canonical [2] as well and
    replaces the set of the family of [2]; [2] maps to the canonical [2],
    whose set does not contain it. *)
Lemma shared_canonical_loses_variant :
  option_map (fun maps => (variant_to_canonical maps !! "2",
                           canonical_to_variants maps !! "2"))
             (build_model_alias_maps bare_versions) =
    Some (Some "2", Some ({[ "2-pro" ]} ∪ ∅))
  /\ "2" ∉ ({[ "2-pro" ]} ∪ ∅ : gset string).
Proof.
  split; [vm_compute; reflexivity|]. by_evaluation.
Qed.

(** *** The version comparator *)

Lemma compare_from_opp (steps : nat) : forall i a b,
  compare_from steps i a b = - compare_from steps i b a.
Proof.
  induction steps as [|steps IH]; intros i a b; simpl; [done|].
  rewrite (Z.eqb_sym (nth i b 0) (nth i a 0)).
  destruct (Z.eqb_spec (nth i a 0) (nth i b 0)); [apply IH|lia].
Qed.

(** X13.  [compare_version_parts] is antisymmetric: exchanging the two
    versions changes the sign of the result and nothing else, so it orders
    any two versions the same way whichever is given first. *)
Theorem compare_version_parts_antisym (a b : list Z) :
  compare_version_parts a b = - compare_version_parts b a.
Proof.
  unfold compare_version_parts. rewrite (Nat.max_comm (length b)).
  apply compare_from_opp.
Qed.

Lemma compare_from_zero (steps : nat) : forall i a b,
  compare_from steps i a b = 0 <->
  forall j, (i <= j < i + steps)%nat -> nth j a 0 = nth j b 0.
Proof.
  induction steps as [|steps IH]; intros i a b; simpl.
  - split; [|done]. intros _ j Hj. lia.
  - destruct (Z.eqb_spec (nth i a 0) (nth i b 0)) as [Heq|Hne].
    + rewrite IH. split.
      * intros H j Hj. destruct (decide (j = i)) as [->|]; [done|].
        apply H. lia.
      * intros H j Hj. apply H. lia.
    + split; [lia|]. intros H. exfalso. apply Hne, H. lia.
Qed.

(** X14.  [compare_version_parts] returns 0 exactly for versions that
    are equal once the shorter one is padded with zeros: [1] and [1, 0]
    compare equal, and so do any two versions that differ by trailing zeros
    only. *)
Theorem compare_version_parts_zero (a b : list Z) :
  compare_version_parts a b = 0 <-> forall i, nth i a 0 = nth i b 0.
Proof.
  unfold compare_version_parts. rewrite compare_from_zero. split.
  - intros H i.
    destruct (Nat.lt_ge_cases i (Nat.max (length a) (length b))) as [Hlt|Hge].
    + apply H. lia.
    + rewrite !nth_overflow by lia. reflexivity.
  - intros H j _. apply H.
Qed.

Lemma compare_from_cons (steps : nat) : forall i x y a b,
  compare_from steps (S i) (x :: a) (y :: b) = compare_from steps i a b.
Proof.
  induction steps as [|steps IH]; intros i x y a b; simpl; [done|].
  by rewrite IH.
Qed.

(** X15.  On versions of the same length the comparator and the sort
    agree: [compare_version_parts a b] is negative exactly when [a < b]
    in Python's order of lists, which is the order
    [build_model_alias_maps] sorts the candidates by.  (They differ on
    versions of different lengths only: the comparator pads with zeros,
    the list order puts a proper prefix first.) *)
Theorem compare_version_parts_agrees_with_list_order (a b : list Z) :
  length a = length b ->
  (compare_version_parts a b < 0 <-> list_lt a b = true).
Proof.
  unfold compare_version_parts. intros Hlen. rewrite Hlen, Nat.max_id.
  revert b Hlen. induction a as [|x a IH]; intros [|y b] Hlen;
    simpl in *; try done.
  rewrite compare_from_cons.
  destruct (Z.eqb_spec x y) as [->|Hne].
  - apply IH. lia.
  - destruct (Z.ltb_spec x y); split; (done || lia).
Qed.

Lemma compare_version_parts_agrees_with_list_order_witness :
  compare_version_parts [1; 2] [1; 3] < 0 <-> list_lt [1; 2] [1; 3] = true.
Proof.
  apply (compare_version_parts_agrees_with_list_order [1; 2] [1; 3]).
  reflexivity.
Defined.

(** *** The alias maps are always built *)


(** *** Empty names *)

Lemma str_or_empty (a b : string) : str_or a b = "" <-> a = "" /\ b = "".
Proof.
  unfold str_or. destruct a as [|c a]; simpl; [|split; [done|by intros [? _]]].
  split; [done|by intros [_ ?]].
Qed.

Lemma without_vendor_empty (c : string) : without_vendor c = "" <-> c = "".
Proof.
  unfold without_vendor. split.
  - destruct (existsb _ _) eqn:E; [|done].
    intros H. by apply str_or_empty in H as [_ ?].
  - intros ->. reflexivity.
Qed.

(** X17.  [normalize_model_name] leaves no name empty that it can fill:
    [canonical] is empty only when [cleaned] is, and so is [family_key];
    an identifier made of variant tokens and date tags alone, such as
    [latest] or [20240229], keeps its vendor-less form as both.  So of the
    fallbacks [family_key or canonical or cleaned] that
    [build_model_alias_maps] groups by, and [canonical or cleaned] that it
    stores, the first is always the one taken. *)
Theorem names_empty_only_when_cleaned_is (r : string) :
  (canonical (normalize_model_name r) = "" <->
   cleaned (normalize_model_name r) = "")
  /\ (family_key (normalize_model_name r) = "" <->
      cleaned (normalize_model_name r) = "")
  /\ str_or (family_key (normalize_model_name r))
            (str_or (canonical (normalize_model_name r))
                    (cleaned (normalize_model_name r)))
       = family_key (normalize_model_name r)
  /\ str_or (canonical (normalize_model_name r))
            (cleaned (normalize_model_name r))
       = canonical (normalize_model_name r).
Proof.
  assert (clean r = "" -> normalize_model_name r =
            {| raw := r; cleaned := ""; canonical := ""; family_key := "";
               version_parts := [] |}) as Hempty.
  { intros Hc. unfold normalize_model_name. rewrite Hc. reflexivity. }
  assert (canonical (normalize_model_name r) = "" <-> clean r = "") as Hcan.
  { split; [|by intros ->%Hempty].
    unfold normalize_model_name. simpl. rewrite str_or_empty.
    intros [_ H]. by apply without_vendor_empty. }
  assert (family_key (normalize_model_name r) = "" <-> clean r = "") as Hfam.
  { split; [|by intros ->%Hempty].
    unfold normalize_model_name. simpl. rewrite str_or_empty.
    intros [_ H]. by apply without_vendor_empty. }
  change (cleaned (normalize_model_name r)) with (clean r).
  split; [exact Hcan|]. split; [exact Hfam|].
  assert (forall a b, a <> "" -> str_or a b = a) as Hne
    by (by intros [|c a] b).
  split.
  - destruct (decide (family_key (normalize_model_name r) = "")) as [E|E];
      [|by apply Hne].
    pose proof (proj1 Hfam E) as Hc.
    by rewrite E, (proj2 Hcan Hc), Hc.
  - destruct (decide (canonical (normalize_model_name r) = "")) as [E|E];
      [|by apply Hne].
    by rewrite E, (proj1 Hcan E).
Qed.

End ModelNormalizerSpec.

(** ** Router scorer *)

Module RoutingScoreSpec.

Import RoutingScore.

Local Open Scope R_scope.

Lemma decay_factor_pos x : 0 < Rpower 2 x.
Proof. unfold Rpower. apply exp_pos. Qed.

Lemma decay_factor_below_one x : x < 0 -> Rpower 2 x < 1.
Proof.
  intros Hx. unfold Rpower. rewrite <- exp_0. apply exp_increasing.
  assert (0 < ln 2) as Hln by (rewrite <- ln_1; apply ln_increasing; lra).
  nra.
Qed.

(** Decay moves a parameter that is at least 1 toward 1 and not across
    it. *)
Lemma _apply_decay_bounds stat now :
  1 <= alpha stat -> 1 <= beta stat ->
  1 <= alpha (_apply_decay stat now) <= alpha stat
  /\ 1 <= beta (_apply_decay stat now) <= beta stat.
Proof.
  intros Ha Hb. unfold _apply_decay.
  destruct (last_updated stat =? 0)%Z; [lra|].
  destruct (Z.leb_spec (now - last_updated stat) 0) as [|Hage]; [lra|].
  simpl. unfold PRIOR_ALPHA, PRIOR_BETA.
  set (x := IZR (- (now - last_updated stat)) / IZR DECAY_HALF_LIFE_MS).
  assert (x < 0) as Hx.
  { unfold x, DECAY_HALF_LIFE_MS. rewrite opp_IZR.
    apply IZR_lt in Hage.
    assert (0 < IZR (12 * 60 * 60 * 1000)) as Hh by (apply IZR_lt; lia).
    unfold Rdiv. assert (0 < / IZR (12 * 60 * 60 * 1000)) by
      (apply Rinv_0_lt_compat; exact Hh).
    nra. }
  pose proof (decay_factor_pos x). pose proof (decay_factor_below_one x Hx).
  nra.
Qed.

Lemma update_at_least_prior st p m success latency now :
  map_Forall (fun _ s => at_least_prior s) st ->
  map_Forall (fun _ s => at_least_prior s) (update st p m success latency now).
Proof.
  intros Hst. unfold update. apply map_Forall_insert_2; [|exact Hst].
  set (stat := default _ _).
  assert (at_least_prior stat) as [Ha Hb].
  { unfold stat. destruct (st !! _key p m) as [s|] eqn:E; simpl.
    - exact (Hst _ _ E).
    - unfold at_least_prior, PRIOR_ALPHA, PRIOR_BETA; simpl; lra. }
  destruct (_apply_decay_bounds stat now Ha Hb) as [Ha' Hb'].
  unfold at_least_prior. destruct success; simpl; lra.
Qed.

Lemma score_for_at_least_prior st p m now sampler u :
  map_Forall (fun _ s => at_least_prior s) st ->
  map_Forall (fun _ s => at_least_prior s) (snd (score_for st p m now sampler u)).
Proof.
  intros Hst. unfold score_for.
  destruct (st !! _key p m) as [s|] eqn:E; simpl; [|exact Hst].
  apply map_Forall_insert_2; [|exact Hst].
  destruct (Hst _ _ E) as [Ha Hb].
  destruct (_apply_decay_bounds s now Ha Hb). unfold at_least_prior. lra.
Qed.

(** C6.  After any sequence of [update] and [score_for] calls on the
    scorer, started with no statistics, every stored arm has
    [alpha >= 1] and [beta >= 1]. *)
Theorem parameters_at_least_prior (calls : list call) :
  map_Forall (fun _ stat => 1 <= alpha stat /\ 1 <= beta stat)
             (run_calls ∅ calls).
Proof.
  unfold run_calls.
  change (map_Forall (fun _ s => at_least_prior s) (foldl run_call ∅ calls)).
  assert (map_Forall (fun _ s => at_least_prior s)
                     (∅ : gmap string ProviderStats)) as H0
    by apply map_Forall_empty.
  revert H0. generalize (∅ : gmap string ProviderStats).
  induction calls as [|c calls IH]; intros st Hst; simpl; [exact Hst|].
  apply IH. destruct c; simpl.
  - by apply update_at_least_prior.
  - by apply score_for_at_least_prior.
Qed.

Lemma _apply_decay_latency stat now :
  latency_ewma (_apply_decay stat now) = latency_ewma stat.
Proof.
  unfold _apply_decay. destruct (_ =? _)%Z; [done|].
  by destruct (_ <=? _)%Z.
Qed.

(** *** When [math.exp] overflows *)

Lemma exp_nat (n : nat) : exp (INR n) = exp 1 ^ n.
Proof.
  induction n as [|n IH]; [simpl; apply exp_0|].
  rewrite S_INR, exp_plus, IH. simpl. ring.
Qed.


Lemma DBL_MAX_bounds : 2 ^ 1023 <= DBL_MAX < 2 ^ 1024.
Proof.
  unfold DBL_MAX.
  assert (0 < 2 ^ 1023) as Hp by (apply pow_lt; lra).
  assert (0 < / 2 ^ 52 <= 1) as [Hi0 Hi1].
  { split; [apply Rinv_0_lt_compat, pow_lt; lra|].
    assert (/ 2 ^ 52 <= / 1) as H; [|by rewrite Rinv_1 in H].
    apply Rinv_le_contravar; [lra|]. apply pow_R1_Rle. lra. }
  change (2 ^ 1024) with (2 * 2 ^ 1023). nra.
Qed.

(** Up to 645 the exponential is a finite float; from 1024 on it is
    not. *)
Lemma math_exp_returns (x : R) : x <= 645 -> math_exp x = Some (exp x).
Proof.
  intros Hx. unfold math_exp. destruct (Rlt_dec DBL_MAX (exp x)) as [Hlt|]; [|done].
  exfalso.
  assert (exp x <= exp 645) as H1.
  { destruct Hx as [Hx| ->]; [left; by apply exp_increasing|right; done]. }
  assert (exp 645 <= 3 ^ 645) as H2.
  { assert (exp 645 = exp 1 ^ 645) as ->
      by (rewrite <- exp_nat; f_equal; by rewrite INR_IZR_INZ).
    apply pow_incr. split; [left; apply exp_pos|apply exp_le_3]. }
  assert (3 ^ 645 <= 2 ^ 1023) as H3.
  { rewrite !pow_IZR. apply IZR_le. vm_compute. discriminate. }
  pose proof DBL_MAX_bounds. lra.
Qed.




Lemma seen_once_lookup :
  seen_once !! _key "p" "m" =
    Some {| alpha := PRIOR_ALPHA + 1; beta := PRIOR_BETA;
            latency_ewma := 800; last_updated := first_seen; samples := 0 + 1;
            total_success := 0 + 1; total_failure := 0 |}.
Proof. unfold seen_once, update. rewrite lookup_insert_eq. reflexivity. Qed.






(** *** Repeated scoring *)

Lemma _apply_decay_aged stat now :
  last_updated stat <> 0%Z -> (last_updated stat < now)%Z ->
  _apply_decay stat now =
    {| alpha := 1 + (alpha stat - 1) * decay_factor stat now;
       beta := 1 + (beta stat - 1) * decay_factor stat now;
       latency_ewma := latency_ewma stat;
       last_updated := last_updated stat;
       samples := samples stat;
       total_success := total_success stat;
       total_failure := total_failure stat |}.
Proof.
  intros H0 Hlt. unfold _apply_decay.
  destruct (Z.eqb_spec (last_updated stat) 0); [done|].
  destruct (Z.leb_spec (now - last_updated stat) 0); [lia|]. reflexivity.
Qed.

(** Each [score_for] writes the decayed parameters back and leaves
    [last_updated] as it was, so the next one decays them again over the
    whole time since the last update. *)
Lemma score_for_twice st p m now sampler u sampler' u' stat :
  st !! _key p m = Some stat ->
  last_updated stat <> 0%Z -> (last_updated stat < now)%Z ->
  snd (score_for (snd (score_for st p m now sampler u)) p m now sampler' u')
    !! _key p m =
    Some {| alpha := 1 + (alpha stat - 1) * decay_factor stat now
                                          * decay_factor stat now;
            beta := 1 + (beta stat - 1) * decay_factor stat now
                                        * decay_factor stat now;
            latency_ewma := latency_ewma stat;
            last_updated := last_updated stat;
            samples := samples stat;
            total_success := total_success stat;
            total_failure := total_failure stat |}.
Proof.
  intros Hst H0 Hlt. unfold score_for at 2. rewrite Hst. simpl.
  unfold score_for. rewrite lookup_insert_eq. simpl.
  rewrite lookup_insert_eq. rewrite (_apply_decay_aged stat now H0 Hlt).
  rewrite _apply_decay_aged by (simpl; assumption).
  unfold decay_factor. simpl. f_equal. f_equal; lra.
Qed.

Lemma half_life_factor :
  Rpower 2 (IZR (- DECAY_HALF_LIFE_MS) / IZR DECAY_HALF_LIFE_MS) = 1 / 2.
Proof.
  rewrite opp_IZR.
  replace (- IZR DECAY_HALF_LIFE_MS / IZR DECAY_HALF_LIFE_MS) with (- (1)).
  - rewrite Rpower_Ropp, Rpower_1 by lra. lra.
  - field. apply not_0_IZR. discriminate.
Qed.

(** C4 on the code: an arm updated once with a success ([alpha = 2])
    and scored twice one half-life later.  One decay over that time gives
    [alpha = 3/2]; the store holds [alpha = 5/4] after the second
    [score_for], and [last_updated] is still the time of the update. *)
Lemma repeated_scoring_ages_the_arm :
  exists before after,
    seen_once !! _key "p" "m" = Some before
    /\ alpha before = 2
    /\ alpha (_apply_decay before (first_seen + DECAY_HALF_LIFE_MS)) = 3 / 2
    /\ snd (score_for
              (snd (score_for seen_once "p" "m"
                              (first_seen + DECAY_HALF_LIFE_MS)
                              (fun _ _ => Some (1 / 2)) 0))
              "p" "m" (first_seen + DECAY_HALF_LIFE_MS)
              (fun _ _ => Some (1 / 2)) 0)
         !! _key "p" "m" = Some after
    /\ alpha after = 5 / 4
    /\ last_updated after = last_updated before.
Proof.
  assert (forall s, last_updated s = first_seen ->
                    decay_factor s (first_seen + DECAY_HALF_LIFE_MS) = 1 / 2)
    as Hd.
  { intros s Hs. unfold decay_factor. rewrite Hs.
    replace (first_seen + DECAY_HALF_LIFE_MS - first_seen)%Z
      with DECAY_HALF_LIFE_MS by lia.
    apply half_life_factor. }
  eexists _, _. split; [apply seen_once_lookup|].
  split; [unfold PRIOR_ALPHA; simpl; lra|]. split; [|split; [|split]].
  - rewrite _apply_decay_aged
      by (simpl; unfold first_seen, DECAY_HALF_LIFE_MS; lia).
    simpl alpha. rewrite Hd by reflexivity. unfold PRIOR_ALPHA. lra.
  - apply score_for_twice; [apply seen_once_lookup|..];
      simpl; unfold first_seen, DECAY_HALF_LIFE_MS; lia.
  - simpl alpha. rewrite Hd by reflexivity. unfold PRIOR_ALPHA. lra.
  - reflexivity.
Qed.

(** *** Bookkeeping *)

(** Decay changes the two Beta parameters and nothing else. *)
Lemma _apply_decay_keeps stat now :
  latency_ewma (_apply_decay stat now) = latency_ewma stat
  /\ last_updated (_apply_decay stat now) = last_updated stat
  /\ samples (_apply_decay stat now) = samples stat
  /\ total_success (_apply_decay stat now) = total_success stat
  /\ total_failure (_apply_decay stat now) = total_failure stat.
Proof.
  unfold _apply_decay. destruct (_ =? _)%Z; [done|].
  by destruct (_ <=? _)%Z.
Qed.

Lemma update_counted st p m success latency now :
  map_Forall (fun _ s => counted s) st ->
  map_Forall (fun _ s => counted s) (update st p m success latency now).
Proof.
  intros Hst. unfold update. apply map_Forall_insert_2; [|exact Hst].
  set (stat := default _ _).
  assert ((samples stat = total_success stat + total_failure stat)%Z
          /\ (0 <= samples stat)%Z /\ (0 <= total_success stat)%Z
          /\ (0 <= total_failure stat)%Z) as (H1 & H2 & H3 & H4).
  { unfold stat. destruct (st !! _key p m) as [s|] eqn:E; simpl.
    - destruct (Hst _ _ E) as (? & ? & ? & ?). repeat split; lia.
    - repeat split; lia. }
  destruct (_apply_decay_keeps stat now) as (_ & _ & -> & -> & ->).
  unfold counted. destruct success; simpl; repeat split; lia.
Qed.

Lemma score_for_counted st p m now sampler u :
  map_Forall (fun _ s => counted s) st ->
  map_Forall (fun _ s => counted s) (snd (score_for st p m now sampler u)).
Proof.
  intros Hst. unfold score_for.
  destruct (st !! _key p m) as [s|] eqn:E; simpl; [|exact Hst].
  apply map_Forall_insert_2; [|exact Hst].
  unfold counted.
  destruct (_apply_decay_keeps s now) as (_ & _ & -> & -> & ->).
  exact (Hst _ _ E).
Qed.

(** X9.  The counters of the scorer add up.  After any sequence of
    [update] and [score_for] calls on a scorer started with no statistics,
    every stored arm has [samples = total_success + total_failure], has at
    least one sample, and has no negative counter: arms are stored by
    [update] only, and neither the decay nor [score_for] touches a
    counter. *)
Theorem counters_add_up (calls : list call) :
  map_Forall (fun _ stat =>
                (samples stat = total_success stat + total_failure stat)%Z
                /\ (1 <= samples stat)%Z
                /\ (0 <= total_success stat)%Z
                /\ (0 <= total_failure stat)%Z)
             (run_calls ∅ calls).
Proof.
  unfold run_calls.
  change (map_Forall (fun _ s => counted s) (foldl run_call ∅ calls)).
  assert (map_Forall (fun _ s => counted s)
                     (∅ : gmap string ProviderStats)) as H0
    by apply map_Forall_empty.
  revert H0. generalize (∅ : gmap string ProviderStats).
  induction calls as [|c calls IH]; intros st Hst; simpl; [exact Hst|].
  apply IH. destruct c; simpl.
  - by apply update_counted.
  - by apply score_for_counted.
Qed.

(** X10.  Scoring is read-only but for the decay.  A [score_for] call,
    whether it returns or raises, stores no new arm and removes none,
    leaves every other arm as it is, and changes nothing of the scored arm
    but [alpha] and [beta], which it replaces by their decayed values:
    latency average, [last_updated] and the counters stay. *)
Theorem scoring_keeps_all_but_the_decay (st : gmap string ProviderStats)
    (provider_id model : string) (now : Z)
    (betavariate : R -> R -> option R) (u : R) (key : string) :
  snd (score_for st provider_id model now betavariate u) !! key =
    (if decide (key = _key provider_id model)
     then (fun stat => _apply_decay stat now) <$> st !! key
     else st !! key)
  /\ forall stat,
       latency_ewma (_apply_decay stat now) = latency_ewma stat
       /\ last_updated (_apply_decay stat now) = last_updated stat
       /\ samples (_apply_decay stat now) = samples stat
       /\ total_success (_apply_decay stat now) = total_success stat
       /\ total_failure (_apply_decay stat now) = total_failure stat.
Proof.
  split; [|intros stat; apply _apply_decay_keeps].
  unfold score_for.
  destruct (st !! _key provider_id model) as [s|] eqn:E; simpl.
  - rewrite lookup_insert. destruct (decide (key = _key provider_id model))
      as [->|Hne].
    + rewrite decide_True by done. by rewrite E.
    + by rewrite decide_False by done.
  - destruct (decide (key = _key provider_id model)) as [->|]; [|done].
    by rewrite E.
Qed.

(** X11.  An [update] records its observation on its own arm only.  The
    arm is stored with [last_updated = now]; every other arm is left as it
    is.  A reported latency moves the latency average toward it and not
    past it: the new average lies between the old one (800 ms for an arm
    not seen before) and the reported latency.  Without a reported latency
    the average stays. *)
Theorem update_records_the_observation (st : gmap string ProviderStats)
    (provider_id model : string) (success : bool) (latency_ms : option Z)
    (now : Z) :
  exists stat,
    update st provider_id model success latency_ms now
      !! _key provider_id model = Some stat
    /\ last_updated stat = now
    /\ (let old := match st !! _key provider_id model with
                   | Some before => latency_ewma before
                   | None => 800
                   end in
        match latency_ms with
        | Some l => Rmin old (IZR l) <= latency_ewma stat <= Rmax old (IZR l)
        | None => latency_ewma stat = old
        end)
    /\ forall key,
         key <> _key provider_id model ->
         update st provider_id model success latency_ms now !! key = st !! key.
Proof.
  unfold update. eexists. split; [apply lookup_insert_eq|]. simpl.
  split; [reflexivity|]. split.
  - rewrite _apply_decay_latency.
    assert (latency_ewma (default (new_stats PRIOR_ALPHA PRIOR_BETA now)
                                  (st !! _key provider_id model)) =
            match st !! _key provider_id model with
            | Some before => latency_ewma before
            | None => 800
            end) as -> by (by destruct (st !! _key provider_id model)).
    set (old := match st !! _key provider_id model with
                | Some before => latency_ewma before
                | None => 800
                end).
    destruct latency_ms as [l|]; [|reflexivity].
    unfold ALPHA_EWMA, Rmin, Rmax.
    destruct (Rle_dec old (IZR l)); lra.
  - intros key Hne. by rewrite lookup_insert_ne.
Qed.

(** *** The range of a score *)

Lemma run_calls_at_least_prior (calls : list call) :
  map_Forall (fun _ s => at_least_prior s) (run_calls ∅ calls).
Proof.
  unfold run_calls.
  assert (map_Forall (fun _ s => at_least_prior s)
                     (∅ : gmap string ProviderStats)) as H0
    by apply map_Forall_empty.
  revert H0. generalize (∅ : gmap string ProviderStats).
  induction calls as [|c calls IH]; intros st Hst; simpl; [exact Hst|].
  apply IH. destruct c; simpl.
  - by apply update_at_least_prior.
  - by apply score_for_at_least_prior.
Qed.

Lemma _betavariate_range sampler a b :
  (forall a b p, sampler a b = Some p -> 0 <= p <= 1) ->
  1 <= a -> 1 <= b ->
  0 <= _betavariate sampler a b <= 1.
Proof.
  intros Hs Ha Hb. unfold _betavariate.
  destruct (sampler a b) as [p|] eqn:E; [by eapply Hs|].
  assert (0 < a + b) as Hab by lra.
  assert (0 < / (a + b)) as Hinv by (by apply Rinv_0_lt_compat).
  unfold Rdiv. split; [nra|].
  apply (Rmult_le_reg_r (a + b)); [exact Hab|].
  rewrite Rmult_assoc, Rinv_l by lra. lra.
Qed.

(** X12.  The range of a score.  On a scorer started with no statistics
    and used through [update] and [score_for] only, with a Beta sampler
    whose draws lie in [[0, 1]] and a uniform draw in [[0, 1)], a score
    that [score_for] returns lies in [[0, 1.005)], for a known arm as for
    an unknown one, and also when the sampler raises and the mean
    [alpha / (alpha + beta)] stands in for the draw. *)
Theorem score_within_bounds (calls : list call) (provider_id model : string)
    (now : Z) (betavariate : R -> R -> option R) (u : R) (score : R) :
  (forall a b p, betavariate a b = Some p -> 0 <= p <= 1) ->
  0 <= u < 1 ->
  fst (score_for (run_calls ∅ calls) provider_id model now betavariate u)
    = Some score ->
  0 <= score < 1 + 5 / 1000.
Proof.
  intros Hs Hu. pose proof (run_calls_at_least_prior calls) as Hprior.
  unfold score_for.
  destruct (run_calls ∅ calls !! _key provider_id model) as [s|] eqn:E; simpl.
  - destruct (Hprior _ _ E) as [Ha Hb].
    destruct (_apply_decay_bounds s now Ha Hb) as [Ha' Hb'].
    pose proof (_betavariate_range betavariate _ _ Hs (proj1 Ha') (proj1 Hb'))
      as Hp.
    set (p := _betavariate _ _ _) in *.
    unfold latency_multiplier, math_exp.
    destruct (Rlt_dec _ _); [done|]. intros [= <-].
    set (x := (latency_ewma (_apply_decay s now) - 3000) / 1000).
    pose proof (exp_pos x) as He.
    assert (0 < 1 / (1 + exp x) < 1) as Hlm.
    { assert (0 < / (1 + exp x)) by (apply Rinv_0_lt_compat; lra).
      split; [lra|].
      apply (Rmult_lt_reg_r (1 + exp x)); [lra|].
      unfold Rdiv. rewrite Rmult_assoc, Rinv_l by lra. lra. }
    nra.
  - intros [= <-].
    pose proof (_betavariate_range betavariate PRIOR_ALPHA PRIOR_BETA Hs)
      as Hp.
    unfold PRIOR_ALPHA, PRIOR_BETA in *. lra.
Qed.

Lemma seen_once_score :
  fst (score_for (run_calls ∅ [Update "p" "m" true None first_seen])
                 "p" "m" first_seen (fun _ _ => Some (1 / 2)) (1 / 2)) =
    Some (1 / 2 * (8 / 10)
          + 1 / 2 * (2 / 10) * (1 / (1 + exp ((800 - 3000) / 1000)))
          + 1 / 2 * (5 / 1000)).
Proof.
  change (run_calls ∅ [Update "p" "m" true None first_seen]) with seen_once.
  unfold score_for. rewrite seen_once_lookup. simpl.
  unfold latency_multiplier.
  by rewrite math_exp_returns by lra.
Qed.

Lemma score_within_bounds_witness :
  0 <= 1 / 2 * (8 / 10)
       + 1 / 2 * (2 / 10) * (1 / (1 + exp ((800 - 3000) / 1000)))
       + 1 / 2 * (5 / 1000)
    < 1 + 5 / 1000.
Proof.
  apply (score_within_bounds [Update "p" "m" true None first_seen] "p" "m"
           first_seen (fun _ _ => Some (1 / 2)) (1 / 2)).
  - intros a b p [= <-]. lra.
  - lra.
  - exact seen_once_score.
Defined.

End RoutingScoreSpec.

(** ** Circuit breaker *)

Module CircuitBreakerSpec.

Import CircuitBreaker.

Local Open Scope Z_scope.

Lemma stats_of_store b key s key' :
  stats_of (store b key s) key' = if decide (key = key') then s else stats_of b key'.
Proof.
  unfold stats_of, store; simpl. rewrite lookup_insert.
  destruct (decide (key = key')); reflexivity.
Qed.

Lemma stats_of_get_stats b key key' :
  stats_of (snd (_get_stats b key)) key' = stats_of b key'
  /\ fst (_get_stats b key) = stats_of b key.
Proof.
  unfold _get_stats, stats_of.
  destruct (_circuits b !! key) as [s|] eqn:E; simpl; [done|].
  rewrite lookup_insert. destruct (decide (key = key')) as [<-|]; by rewrite ?E.
Qed.

Lemma get_stats_config b key :
  failure_threshold (snd (_get_stats b key)) = failure_threshold b
  /\ recovery_timeout (snd (_get_stats b key)) = recovery_timeout b
  /\ success_threshold (snd (_get_stats b key)) = success_threshold b.
Proof. unfold _get_stats. by destruct (_circuits b !! key). Qed.

Ltac open_get_stats b key :=
  let s := fresh "s" in let b' := fresh "b'" in let E := fresh "E" in
  let Hs := fresh "Hs" in let Hf := fresh "Hf" in
  pose proof (stats_of_get_stats b key) as Hs;
  pose proof (get_stats_config b key) as Hf;
  destruct (_get_stats b key) as [s b'] eqn:E; simpl in Hs, Hf;
  destruct Hf as (Hf1 & Hf2 & Hf3).

Ltac close_step Est :=
  simpl; rewrite ?stats_of_store; repeat case_decide; subst;
  simpl; rewrite ?Est; first [reflexivity | congruence].

Lemma is_allowed_stats b key now key' :
  stats_of (snd (is_allowed b key now)) key' =
    if decide (key = key') then allow_step b now (stats_of b key)
    else stats_of b key'.
Proof.
  unfold is_allowed, allow_step. open_get_stats b key.
  destruct (Hs key') as [Hk' ->]. rewrite Hf2.
  destruct (state (stats_of b key)) eqn:Est;
    try destruct (Qle_bool _ _); close_step Est.
Qed.

Lemma is_allowed_answer b key now :
  fst (is_allowed b key now) = allow_answer b now (stats_of b key).
Proof.
  unfold is_allowed, allow_answer. open_get_stats b key.
  destruct (Hs key) as [_ ->]. rewrite Hf2.
  destruct (state (stats_of b key)); simpl; try done.
  by destruct (Qle_bool _ _).
Qed.

Lemma record_success_stats b key key' :
  stats_of (record_success b key) key' =
    if decide (key = key') then success_step b (stats_of b key)
    else stats_of b key'.
Proof.
  unfold record_success, success_step. open_get_stats b key.
  destruct (Hs key') as [Hk' ->]. rewrite Hf3.
  destruct (state (stats_of b key)) eqn:Est; simpl;
    try destruct (_ <=? _); close_step Est.
Qed.

Lemma record_failure_stats b key now key' :
  stats_of (record_failure b key now) key' =
    if decide (key = key') then failure_step b now (stats_of b key)
    else stats_of b key'.
Proof.
  unfold record_failure, failure_step. open_get_stats b key.
  destruct (Hs key') as [Hk' ->]. rewrite Hf1. simpl.
  destruct (state (stats_of b key)) eqn:Est; simpl;
    try destruct (_ <=? _); close_step Est.
Qed.

Lemma reset_stats b key key' :
  stats_of (reset b key) key' =
    if decide (key = key') then new_stats else stats_of b key'.
Proof.
  unfold reset. destruct (_circuits b !! key) as [s|] eqn:E.
  - apply stats_of_store.
  - destruct (decide (key = key')) as [<-|]; [|done].
    unfold stats_of. by rewrite E.
Qed.

Lemma thresholds_get_stats b key : thresholds (snd (_get_stats b key)) = thresholds b.
Proof. unfold _get_stats. by destruct (_circuits b !! key). Qed.

Lemma thresholds_run_call b c : thresholds (run_call b c) = thresholds b.
Proof.
  destruct c as [key now|key|key now|key]; simpl.
  - unfold is_allowed. pose proof (thresholds_get_stats b key) as H.
    destruct (_get_stats b key) as [s b']; simpl in H.
    destruct (state s); try destruct (Qle_bool _ _); simpl; exact H.
  - unfold record_success. pose proof (thresholds_get_stats b key) as H.
    destruct (_get_stats b key) as [s b']; simpl in H.
    destruct (state s); try destruct (_ <=? _); simpl; exact H.
  - unfold record_failure. pose proof (thresholds_get_stats b key) as H.
    destruct (_get_stats b key) as [s b']; simpl in H.
    destruct (state s); simpl; try destruct (_ <=? _); simpl; exact H.
  - unfold reset. by destruct (_circuits b !! key).
Qed.

Lemma thresholds_record_failure b key now :
  failure_threshold (record_failure b key now) = failure_threshold b.
Proof.
  pose proof (thresholds_run_call b (RecordFailure key now)) as H.
  unfold thresholds in H; simpl in H. congruence.
Qed.

Lemma thresholds_record_success b key :
  success_threshold (record_success b key) = success_threshold b.
Proof.
  pose proof (thresholds_run_call b (RecordSuccess key)) as H.
  unfold thresholds in H; simpl in H. congruence.
Qed.

Lemma thresholds_is_allowed b key now :
  recovery_timeout (snd (is_allowed b key now)) = recovery_timeout b.
Proof.
  pose proof (thresholds_run_call b (IsAllowed key now)) as H.
  unfold thresholds in H; simpl in H. congruence.
Qed.

(** Once half-open, the circuit answers every further check with [true]
    and is not changed by it. *)
Lemma allow_checks_half_open key nows : forall b,
  state_of b key = HALF_OPEN ->
  fst (allow_checks b key nows) = replicate (length nows) (HALF_OPEN, true)
  /\ stats_of (snd (allow_checks b key nows)) key = stats_of b key.
Proof.
  induction nows as [|now rest IH]; intros b Hst; [done|].
  simpl. pose proof (is_allowed_answer b key now) as Ha.
  pose proof (is_allowed_stats b key now key) as Hs.
  destruct (is_allowed b key now) as [ok b'] eqn:E; simpl in Ha, Hs.
  rewrite decide_True in Hs by done.
  unfold allow_answer in Ha. unfold allow_step in Hs.
  unfold state_of in Hst. rewrite Hst in Ha, Hs. subst ok.
  destruct (IH b') as [IH1 IH2]; [unfold state_of; by rewrite Hs|].
  destruct (allow_checks b' key rest) as [trace b'']; simpl in *.
  split; [|congruence]. unfold state_of. by rewrite Hst, IH1.
Qed.

(** While the recovery timeout has not elapsed, an open circuit answers
    [false] and stays as it is; the first check after it has elapsed is
    answered [true] and makes the circuit half-open with both counters
    reset. *)
Lemma allow_checks_open key early t late : forall b,
  state_of b key = OPEN ->
  Forall (fun t' => (t' - opened_at (stats_of b key)
                     < inject_Z (recovery_timeout b))%Q) early ->
  (inject_Z (recovery_timeout b) <= t - opened_at (stats_of b key))%Q ->
  fst (allow_checks b key (early ++ t :: late)) =
    replicate (length early) (OPEN, false)
      ++ (OPEN, true) :: replicate (length late) (HALF_OPEN, true)
  /\ stats_of (snd (allow_checks b key (early ++ t :: late))) key =
       {| state := HALF_OPEN; failure_count := 0; success_count := 0;
          last_failure_time := last_failure_time (stats_of b key);
          opened_at := opened_at (stats_of b key) |}.
Proof.
  induction early as [|t' early IH]; intros b Hst Hearly Ht; simpl.
  - pose proof (is_allowed_answer b key t) as Ha.
    pose proof (is_allowed_stats b key t key) as Hs.
    destruct (is_allowed b key t) as [ok b'] eqn:E; simpl in Ha, Hs.
    rewrite decide_True in Hs by done.
    unfold allow_answer in Ha. unfold allow_step in Hs.
    unfold state_of in Hst. rewrite Hst in Ha, Hs.
    apply Qle_bool_iff in Ht. rewrite Ht in Ha, Hs. subst ok.
    destruct (allow_checks_half_open key late b') as [H1 H2];
      [unfold state_of; by rewrite Hs|].
    destruct (allow_checks b' key late) as [trace b'']; simpl in *.
    unfold state_of. rewrite Hst, H1, H2, Hs. done.
  - apply Forall_cons in Hearly as [Ht' Hearly].
    pose proof (is_allowed_answer b key t') as Ha.
    pose proof (is_allowed_stats b key t' key) as Hs.
    pose proof (thresholds_is_allowed b key t') as Hc.
    destruct (is_allowed b key t') as [ok b'] eqn:E; simpl in Ha, Hs, Hc.
    rewrite decide_True in Hs by done.
    unfold allow_answer in Ha. unfold allow_step in Hs.
    pose proof Hst as Hst'. unfold state_of in Hst'. rewrite Hst' in Ha, Hs.
    assert (Qle_bool (inject_Z (recovery_timeout b))
                     (t' - opened_at (stats_of b key)) = false) as Hf.
    { destruct (Qle_bool _ _) eqn:Eq; [|done].
      apply Qle_bool_iff in Eq. exfalso. eapply Qlt_not_le; eauto. }
    rewrite Hf in Ha, Hs. subst ok.
    destruct (IH b') as [IH1 IH2].
    + unfold state_of. by rewrite Hs.
    + rewrite Hs, Hc. exact Hearly.
    + rewrite Hs, Hc. exact Ht.
    + destruct (allow_checks b' key (early ++ t :: late)) as [trace b''].
      simpl in *. rewrite Hst, IH1, IH2, Hs. done.
Qed.

(** Failures of a closed circuit are counted until they reach the
    threshold. *)
Lemma failures_below_threshold key nows : forall b,
  state_of b key = CLOSED ->
  failure_count (stats_of b key) + Z.of_nat (length nows) < failure_threshold b ->
  state_of (failures b key nows) key = CLOSED
  /\ failure_count (stats_of (failures b key nows) key) =
       failure_count (stats_of b key) + Z.of_nat (length nows)
  /\ failure_threshold (failures b key nows) = failure_threshold b.
Proof.
  induction nows as [|now rest IH]; intros b Hst Hlt; simpl in *.
  - split; [done|]. split; [lia|done].
  - pose proof (record_failure_stats b key now key) as Hs.
    rewrite decide_True in Hs by done.
    pose proof (thresholds_record_failure b key now) as Hc.
    unfold state_of in Hst.
    assert (stats_of (record_failure b key now) key =
              {| state := CLOSED;
                 failure_count := failure_count (stats_of b key) + 1;
                 success_count := success_count (stats_of b key);
                 last_failure_time := now;
                 opened_at := opened_at (stats_of b key) |}) as Hs'.
    { rewrite Hs. unfold failure_step. rewrite Hst.
      destruct (Z.leb_spec (failure_threshold b)
                  (failure_count (stats_of b key) + 1)); [lia|done]. }
    destruct (IH (record_failure b key now)) as (IH1 & IH2 & IH3).
    + unfold state_of. by rewrite Hs'.
    + rewrite Hs', Hc. simpl. lia.
    + unfold failures in *. simpl. rewrite IH1, IH2, IH3, Hs', Hc. simpl.
      repeat split; lia.
Qed.

Lemma failures_snoc b key nows t :
  failures b key (nows ++ [t]) = record_failure (failures b key nows) key t.
Proof. unfold failures. by rewrite foldl_app. Qed.

Lemma successes_below_threshold key n : forall b,
  state_of b key = HALF_OPEN ->
  success_count (stats_of b key) = 0 ->
  Z.of_nat n < success_threshold b ->
  stats_of (successes b key n) key =
    {| state := HALF_OPEN; failure_count := failure_count (stats_of b key);
       success_count := Z.of_nat n;
       last_failure_time := last_failure_time (stats_of b key);
       opened_at := opened_at (stats_of b key) |}
  /\ success_threshold (successes b key n) = success_threshold b.
Proof.
  induction n as [|n IH]; intros b Hst H0 Hlt.
  - split; [|done]. simpl. unfold state_of in Hst.
    destruct (stats_of b key); simpl in *; by subst.
  - destruct (IH b Hst H0) as (IH1 & IH2); [lia|].
    change (successes b key (S n)) with (record_success (successes b key n) key).
    pose proof (record_success_stats (successes b key n) key key) as Hs.
    rewrite decide_True in Hs by done.
    rewrite thresholds_record_success.
    rewrite Hs. unfold success_step. rewrite IH1, IH2. simpl.
    destruct (Z.leb_spec (success_threshold b) (Z.of_nat n + 1)); [lia|].
    split; [|done]. f_equal. lia.
Qed.

(** C7, as corrected.  A circuit that is open: the checks made before
    the recovery timeout has elapsed are denied and change nothing; the
    next check, made once [now - opened_at >= recovery_timeout], is
    allowed, and that one call makes the circuit half-open with both
    counters reset; it is the only check that finds the circuit open and is
    allowed, but not the only one that is allowed: every later check finds
    the circuit half-open and is allowed as well.  A closed circuit whose failure count is 0 stays
    closed while fewer than [failure_threshold] failures have followed one
    another and opens at the failure that reaches the threshold; a success
    sets the count back to 0.  A circuit that has just become half-open
    stays so while fewer than [success_threshold] successes have followed
    one another and closes, counters reset, at the success that reaches the
    threshold.  The global breaker has the thresholds 5 and 2 and the
    timeout 30. *)
Theorem breaker_lifecycle (b : breaker) (key : string) :
  (forall early t late,
      state_of b key = OPEN ->
      Forall (fun t' => (t' - opened_at (stats_of b key)
                         < inject_Z (recovery_timeout b))%Q) early ->
      (inject_Z (recovery_timeout b) <= t - opened_at (stats_of b key))%Q ->
      fst (allow_checks b key (early ++ t :: late)) =
        replicate (length early) (OPEN, false)
          ++ (OPEN, true) :: replicate (length late) (HALF_OPEN, true)
      /\ stats_of (snd (allow_checks b key (early ++ t :: late))) key =
           {| state := HALF_OPEN; failure_count := 0; success_count := 0;
              last_failure_time := last_failure_time (stats_of b key);
              opened_at := opened_at (stats_of b key) |})
  /\ (state_of b key = CLOSED ->
      failure_count (stats_of b key) = 0 ->
      (forall nows,
          Z.of_nat (length nows) < failure_threshold b ->
          state_of (failures b key nows) key = CLOSED)
      /\ (forall nows t,
          Z.of_nat (length nows) + 1 = failure_threshold b ->
          state_of (failures b key (nows ++ [t])) key = OPEN
          /\ opened_at (stats_of (failures b key (nows ++ [t])) key) = t))
  /\ (state_of b key = CLOSED ->
      state_of (record_success b key) key = CLOSED
      /\ failure_count (stats_of (record_success b key) key) = 0)
  /\ (state_of b key = HALF_OPEN ->
      success_count (stats_of b key) = 0 ->
      (forall n,
          Z.of_nat n < success_threshold b ->
          state_of (successes b key n) key = HALF_OPEN)
      /\ (forall n,
          Z.of_nat n + 1 = success_threshold b ->
          stats_of (successes b key (S n)) key =
            {| state := CLOSED; failure_count := 0; success_count := 0;
               last_failure_time := last_failure_time (stats_of b key);
               opened_at := opened_at (stats_of b key) |}))
  /\ thresholds circuit_breaker = (5, 30, 2).
Proof.
  split; [|split; [|split; [|split]]].
  - intros early t late Hst Hearly Ht. by apply allow_checks_open.
  - intros Hst H0. split.
    + intros nows Hlt. apply failures_below_threshold; [done|lia].
    + intros nows t Hlen.
      destruct (failures_below_threshold key nows b Hst) as (H1 & H2 & H3); [lia|].
      rewrite failures_snoc.
      pose proof (record_failure_stats (failures b key nows) key t key) as Hs.
      rewrite decide_True in Hs by done.
      unfold state_of in *. rewrite Hs. unfold failure_step. rewrite H1, H2, H3.
      destruct (Z.leb_spec (failure_threshold b)
                  (failure_count (stats_of b key) + Z.of_nat (length nows) + 1));
        [done|lia].
  - intros Hst. pose proof (record_success_stats b key key) as Hs.
    rewrite decide_True in Hs by done.
    unfold state_of in *. rewrite Hs. unfold success_step. by rewrite Hst.
  - intros Hst H0. split.
    + intros n Hlt.
      destruct (successes_below_threshold key n b Hst H0 Hlt) as [H1 _].
      unfold state_of. by rewrite H1.
    + intros n Hlen.
      destruct (successes_below_threshold key n b Hst H0) as (H1 & H2); [lia|].
      change (successes b key (S n)) with (record_success (successes b key n) key).
      pose proof (record_success_stats (successes b key n) key key) as Hs.
      rewrite decide_True in Hs by done.
      rewrite Hs. unfold success_step. rewrite H1, H2. simpl.
      destruct (Z.leb_spec (success_threshold b) (Z.of_nat n + 1)); [done|lia].
  - reflexivity.
Qed.

Lemma breaker_lifecycle_witness :
  fst (allow_checks tripped "provider:p"
         [1700000110; 1700000129; 1700000131; 1700000140; 1700000141]%Q) =
    [(OPEN, false); (OPEN, false); (OPEN, true);
     (HALF_OPEN, true); (HALF_OPEN, true)]
  /\ state_of (failures circuit_breaker "provider:p" [1; 2; 3; 4]%Q)
              "provider:p" = CLOSED
  /\ state_of (failures circuit_breaker "provider:p" ([1; 2; 3; 4] ++ [5])%Q)
              "provider:p" = OPEN
  /\ state_of (successes probing "provider:p" 1) "provider:p" = HALF_OPEN
  /\ state_of (successes probing "provider:p" 2) "provider:p" = CLOSED.
Proof.
  assert (state_of tripped "provider:p" = OPEN) as Hopen
    by (vm_compute; reflexivity).
  assert (state_of circuit_breaker "provider:p" = CLOSED) as Hclosed
    by (vm_compute; reflexivity).
  assert (failure_count (stats_of circuit_breaker "provider:p") = 0) as Hzero
    by (vm_compute; reflexivity).
  assert (state_of probing "provider:p" = HALF_OPEN) as Hhalf
    by (vm_compute; reflexivity).
  assert (success_count (stats_of probing "provider:p") = 0) as Hnone
    by (vm_compute; reflexivity).
  destruct (breaker_lifecycle tripped "provider:p") as (Ho & _).
  destruct (breaker_lifecycle circuit_breaker "provider:p") as (_ & Hc & _).
  destruct (breaker_lifecycle probing "provider:p") as (_ & _ & _ & Hh & _).
  destruct (Hc Hclosed Hzero) as [Hc1 Hc2].
  destruct (Hh Hhalf Hnone) as [Hh1 Hh2].
  split; [|split; [|split; [|split]]].
  - apply (Ho [1700000110; 1700000129]%Q 1700000131%Q
              [1700000140; 1700000141]%Q Hopen).
    + repeat constructor.
    + vm_compute. discriminate.
  - apply Hc1. vm_compute. reflexivity.
  - apply (Hc2 [1; 2; 3; 4]%Q 5%Q). vm_compute. reflexivity.
  - apply (Hh1 1%nat). vm_compute. reflexivity.
  - unfold state_of. rewrite (Hh2 1%nat); [reflexivity|].
    vm_compute. reflexivity.
Defined.

(** C7 as stated fails: [is_allowed] does not return [true] exactly
    once.  On the circuit opened at 1700000100 s, with the timeout of 30 s,
    the check at 1700000131 s is allowed and makes the circuit half-open,
    and the checks one and two seconds later are allowed too, with nothing
    recorded in between. *)
Lemma allowed_again_when_half_open :
  state_of tripped "provider:p" = OPEN
  /\ opened_at (stats_of tripped "provider:p") = 1700000100%Q
  /\ recovery_timeout tripped = 30
  /\ fst (allow_checks tripped "provider:p"
             [1700000131; 1700000132; 1700000133]%Q) =
       [(OPEN, true); (HALF_OPEN, true); (HALF_OPEN, true)].
Proof. repeat apply conj; vm_compute; reflexivity. Qed.

(** C10, as corrected.  A half-open circuit answers every check with
    [true] and is not changed by it, whenever the check is made.  A call
    after which the circuit is no longer half-open is a [record_success]
    that reaches [success_threshold] (the circuit is then closed), a
    [record_failure] (then open), or a manual [reset] of the key (then
    closed); each of these does leave the state. *)
Theorem half_open_behaviour (b : breaker) (key : string) :
  state_of b key = HALF_OPEN ->
  (forall now, is_allowed b key now = (true, b))
  /\ (forall c,
        state_of (run_call b c) key <> HALF_OPEN ->
        (c = RecordSuccess key
         /\ success_threshold b <= success_count (stats_of b key) + 1
         /\ state_of (run_call b c) key = CLOSED)
        \/ (exists now, c = RecordFailure key now
                        /\ state_of (run_call b c) key = OPEN)
        \/ (c = Reset key /\ state_of (run_call b c) key = CLOSED))
  /\ (success_threshold b <= success_count (stats_of b key) + 1 ->
      state_of (record_success b key) key = CLOSED)
  /\ (forall now, state_of (record_failure b key now) key = OPEN)
  /\ state_of (reset b key) key = CLOSED.
Proof.
  intros Hst. unfold state_of in *.
  split; [|split; [|split; [|split]]].
  - intros now. unfold is_allowed, _get_stats. unfold stats_of in Hst.
    destruct (_circuits b !! key) as [s|]; simpl in *; [|done].
    by rewrite Hst.
  - intros [k now|k|k now|k] Hleft; simpl in *.
    + exfalso. apply Hleft. rewrite is_allowed_stats. case_decide; [|done].
      subst k. unfold allow_step. by rewrite Hst.
    + rewrite record_success_stats in Hleft |- *.
      case_decide; [subst k|done]. left. unfold success_step in *.
      rewrite Hst in Hleft |- *.
      destruct (Z.leb_spec (success_threshold b)
                  (success_count (stats_of b key) + 1)); [done|].
      by exfalso.
    + rewrite record_failure_stats in Hleft |- *.
      case_decide; [subst k|done]. right; left. exists now.
      unfold failure_step. by rewrite Hst.
    + rewrite reset_stats in Hleft |- *.
      case_decide; [subst k|done]. right; right. done.
  - intros Hle. rewrite record_success_stats, decide_True by done.
    unfold success_step. rewrite Hst.
    by destruct (Z.leb_spec (success_threshold b)
                   (success_count (stats_of b key) + 1)); [|lia].
  - intros now. rewrite record_failure_stats, decide_True by done.
    unfold failure_step. by rewrite Hst.
  - by rewrite reset_stats, decide_True.
Qed.

Lemma half_open_behaviour_witness :
  is_allowed probing "provider:p" 1700000500%Q = (true, probing)
  /\ state_of (record_failure probing "provider:p" 1700000132%Q)
              "provider:p" = OPEN
  /\ state_of (reset probing "provider:p") "provider:p" = CLOSED.
Proof.
  assert (state_of probing "provider:p" = HALF_OPEN) as Hhalf
    by (vm_compute; reflexivity).
  destruct (half_open_behaviour probing "provider:p" Hhalf)
    as (H1 & _ & _ & H4 & H5).
  exact (conj (H1 1700000500%Q) (conj (H4 1700000132%Q) H5)).
Defined.

(** C10 as stated fails: a manual reset takes the half-open circuit
    [probing] to closed, and it is neither a [record_success] nor a
    [record_failure]. *)
Lemma half_open_left_by_reset :
  state_of probing "provider:p" = HALF_OPEN
  /\ state_of (run_call probing (Reset "provider:p")) "provider:p" = CLOSED
  /\ ~ (forall c,
          state_of (run_call probing c) "provider:p" <> HALF_OPEN ->
          c = RecordSuccess "provider:p"
          \/ exists now, c = RecordFailure "provider:p" now).
Proof.
  split; [vm_compute; reflexivity|]. split; [vm_compute; reflexivity|].
  intros H. destruct (H (Reset "provider:p")) as [Hc|[now Hc]];
    [vm_compute|..]; discriminate.
Qed.

Lemma stats_of_run_call b c key' :
  call_key c <> key' -> stats_of (run_call b c) key' = stats_of b key'.
Proof.
  intros Hne. destruct c as [key now|key|key now|key]; simpl in *.
  - by rewrite is_allowed_stats, decide_False.
  - by rewrite record_success_stats, decide_False.
  - by rewrite record_failure_stats, decide_False.
  - by rewrite reset_stats, decide_False.
Qed.

(** X5.  Circuits are independent: calls about other keys, however many,
    leave the state, the counters and the times of a circuit as they
    were. *)
Theorem other_circuits_untouched (b : breaker) (cs : list call) (key : string) :
  Forall (fun c => call_key c <> key) cs ->
  stats_of (foldl run_call b cs) key = stats_of b key.
Proof.
  intros H. revert b. induction H as [|c cs Hc _ IH]; intros b; [done|].
  simpl. rewrite IH. by apply stats_of_run_call.
Qed.

Lemma other_circuits_untouched_witness :
  stats_of (foldl run_call tripped
              [RecordSuccess "provider:q"; RecordFailure "provider:q" 1700000101%Q;
               Reset "provider:q"; IsAllowed "provider:q" 1700000200%Q])
           "provider:p" =
    stats_of tripped "provider:p".
Proof.
  apply (other_circuits_untouched tripped
           [RecordSuccess "provider:q"; RecordFailure "provider:q" 1700000101%Q;
            Reset "provider:q"; IsAllowed "provider:q" 1700000200%Q]
           "provider:p").
  repeat constructor; discriminate.
Defined.

Lemma counters_fit_run_call ft st b c :
  0 < ft -> 0 < st ->
  failure_threshold b = ft -> success_threshold b = st ->
  (forall key, counters_fit ft st (stats_of b key)) ->
  forall key, counters_fit ft st (stats_of (run_call b c) key).
Proof.
  intros Hft Hst Eft Est Hfit key.
  destruct (decide (call_key c = key)) as [<-|Hne];
    [|rewrite stats_of_run_call by done; apply Hfit].
  specialize (Hfit (call_key c)). unfold counters_fit in *.
  destruct c as [k now|k|k now|k]; simpl in *.
  - rewrite is_allowed_stats, decide_True by done. unfold allow_step.
    destruct (state (stats_of b k)) eqn:E; rewrite ?E; try done.
    destruct (Qle_bool _ _); simpl; rewrite ?E; [lia|done].
  - rewrite record_success_stats, decide_True by done. unfold success_step.
    rewrite Est.
    destruct (state (stats_of b k)) eqn:E; simpl; rewrite ?E; try lia.
    destruct (Z.leb_spec st (success_count (stats_of b k) + 1)); simpl; lia.
  - rewrite record_failure_stats, decide_True by done. unfold failure_step.
    rewrite Eft.
    destruct (state (stats_of b k)) eqn:E; simpl; try lia.
    destruct (Z.leb_spec ft (failure_count (stats_of b k) + 1)); simpl; lia.
  - rewrite reset_stats, decide_True by done. simpl. lia.
Qed.

Lemma counters_fit_calls ft st cs : forall b,
  0 < ft -> 0 < st ->
  failure_threshold b = ft -> success_threshold b = st ->
  (forall key, counters_fit ft st (stats_of b key)) ->
  forall key, counters_fit ft st (stats_of (foldl run_call b cs) key).
Proof.
  induction cs as [|c cs IH]; intros b Hft Hst Eft Est Hfit; [exact Hfit|].
  simpl. pose proof (thresholds_run_call b c) as Hth. unfold thresholds in Hth.
  apply IH; try done; try congruence.
  by apply counters_fit_run_call.
Qed.

(** X6.  The counters stay within the thresholds.  On a breaker that
    starts with no circuits and positive thresholds, after any calls of
    [is_allowed], [record_success], [record_failure] and [reset], every
    key's circuit has, when closed, fewer than [failure_threshold] failures
    counted and no successes; when half-open, no failures and fewer than
    [success_threshold] successes; when open, at least one failure. *)
Theorem counters_within_thresholds (b : breaker) (cs : list call) (key : string) :
  0 < failure_threshold b ->
  0 < success_threshold b ->
  _circuits b = ∅ ->
  counters_fit (failure_threshold b) (success_threshold b)
               (stats_of (foldl run_call b cs) key).
Proof.
  intros Hft Hst Hempty. apply counters_fit_calls; try done.
  intros k. unfold counters_fit, stats_of. rewrite Hempty, lookup_empty.
  simpl. lia.
Qed.

Lemma counters_within_thresholds_witness :
  counters_fit 5 2
    (stats_of (foldl run_call circuit_breaker
                 [RecordFailure "provider:p" 1700000096%Q;
                  IsAllowed "provider:p" 1700000097%Q;
                  RecordSuccess "provider:p"])
              "provider:p").
Proof.
  apply (counters_within_thresholds circuit_breaker
           [RecordFailure "provider:p" 1700000096%Q;
            IsAllowed "provider:p" 1700000097%Q;
            RecordSuccess "provider:p"] "provider:p").
  - reflexivity.
  - reflexivity.
  - reflexivity.
Defined.

(** *** Calls through the breaker *)

Lemma int_le (a b : Q) : (a <= b)%Q -> int a <= int b.
Proof.
  unfold Qle, int. intros H.
  rewrite <- (Z.quot_mul_cancel_r (Qnum a) (Z.pos (Qden a)) (Z.pos (Qden b)))
    by lia.
  rewrite <- (Z.quot_mul_cancel_r (Qnum b) (Z.pos (Qden b)) (Z.pos (Qden a)))
    by lia.
  rewrite (Z.mul_comm (Z.pos (Qden b)) (Z.pos (Qden a))).
  apply Z.quot_le_mono; lia.
Qed.

Lemma int_inject_Z (z : Z) : int (inject_Z z) = z.
Proof. unfold int. simpl. apply Z.quot_1_r. Qed.

Lemma state_open_lookup b key :
  state_of b key = OPEN -> _circuits b !! key = Some (stats_of b key).
Proof.
  unfold state_of, stats_of. by destruct (_circuits b !! key).
Qed.

Lemma not_elapsed (timeout elapsed : Q) :
  (elapsed < timeout)%Q -> Qle_bool timeout elapsed = false.
Proof.
  intros H. destruct (Qle_bool _ _) eqn:E; [|done].
  apply Qle_bool_iff in E. exfalso. eapply Qlt_not_le; eauto.
Qed.

(** An open circuit whose timeout has not elapsed refuses the check and
    stays as it is. *)
Lemma is_allowed_open b key now :
  state_of b key = OPEN ->
  (now - opened_at (stats_of b key) < inject_Z (recovery_timeout b))%Q ->
  is_allowed b key now = (false, b).
Proof.
  intros Hst Hlt. pose proof (state_open_lookup b key Hst) as Hl.
  unfold is_allowed, _get_stats. rewrite Hl.
  unfold state_of in Hst. rewrite Hst. by rewrite not_elapsed.
Qed.

(** X7.  A [call] on an open circuit whose recovery timeout has not
    elapsed fails fast: whatever the function is, it is not run, the call
    raises [CircuitOpenError] and the breaker is left as it was.  The retry
    delay it reports is [max(1, int(recovery_timeout - (later -
    opened_at)))]: at least 1 and, on a clock that has not gone back behind
    the opening, at most [recovery_timeout] (or 1). *)
Theorem open_circuit_fails_fast {A : Type} (b : breaker) (key : string)
    (now : Q) (func : option A) (later : Q) :
  state_of b key = OPEN ->
  (now - opened_at (stats_of b key) < inject_Z (recovery_timeout b))%Q ->
  (opened_at (stats_of b key) <= later)%Q ->
  exists retry_after,
    call_through b key now func later = (CircuitOpenError key retry_after, b)
    /\ retry_after =
         Z.max 1 (int (inject_Z (recovery_timeout b)
                       - (later - opened_at (stats_of b key)))%Q)
    /\ 1 <= retry_after <= Z.max 1 (recovery_timeout b).
Proof.
  intros Hst Hlt Hlater. unfold call_through.
  rewrite (is_allowed_open b key now Hst Hlt). simpl.
  unfold _get_stats. rewrite (state_open_lookup b key Hst).
  eexists. split; [reflexivity|]. split; [reflexivity|].
  assert (int (inject_Z (recovery_timeout b)
               - (later - opened_at (stats_of b key)))%Q
          <= recovery_timeout b); [|lia].
  rewrite <- (int_inject_Z (recovery_timeout b)) at 2.
  apply int_le.
  rewrite <- (Qplus_0_r (inject_Z (recovery_timeout b))) at 2.
  unfold Qminus. apply Qplus_le_r.
  apply (Qopp_le_compat 0), (Qplus_le_l _ _ (opened_at (stats_of b key))).
  ring_simplify. exact Hlater.
Qed.

Lemma open_circuit_fails_fast_witness :
  exists retry_after,
    call_through tripped "provider:p" 1700000110%Q (Some "response")
                 1700000110%Q =
      (CircuitOpenError "provider:p" retry_after, tripped)
    /\ retry_after =
         Z.max 1 (int (inject_Z (recovery_timeout tripped)
                       - (1700000110
                          - opened_at (stats_of tripped "provider:p")))%Q)
    /\ 1 <= retry_after <= Z.max 1 (recovery_timeout tripped).
Proof.
  apply (open_circuit_fails_fast tripped "provider:p" 1700000110%Q
           (Some "response") 1700000110%Q).
  - reflexivity.
  - reflexivity.
  - vm_compute. discriminate.
Defined.

Lemma get_stats_again b key :
  _get_stats (snd (_get_stats b key)) key = _get_stats b key.
Proof.
  unfold _get_stats. destruct (_circuits b !! key) as [s|] eqn:E; simpl.
  - by rewrite E.
  - by rewrite lookup_insert_eq.
Qed.

Lemma record_after_get_stats b key :
  record_success (snd (_get_stats b key)) key = record_success b key
  /\ forall now, record_failure (snd (_get_stats b key)) key now =
                 record_failure b key now.
Proof.
  unfold record_success, record_failure. by rewrite get_stats_again.
Qed.

(** A [call] that finds the circuit closed runs the function and records
    what it did. *)
Lemma call_through_closed {A : Type} b key now (func : option A) later :
  state_of b key = CLOSED ->
  call_through b key now func later =
    match func with
    | Some result => (FuncReturned result, record_success b key)
    | None => (FuncRaised, record_failure b key later)
    end.
Proof.
  intros Hst. unfold call_through.
  assert (is_allowed b key now = (true, snd (_get_stats b key))) as ->.
  { unfold is_allowed. pose proof (stats_of_get_stats b key key) as [_ Hs].
    destruct (_get_stats b key) as [s b1]. simpl in *.
    unfold state_of in Hst. by rewrite Hs, Hst. }
  simpl. destruct (record_after_get_stats b key) as [-> ->].
  by destruct func.
Qed.

Lemma failing_calls_below_threshold key clock : forall b,
  state_of b key = CLOSED ->
  failure_count (stats_of b key) = 0 ->
  Z.of_nat (length clock) < failure_threshold b ->
  failing_calls b key clock = failures b key clock.*2.
Proof.
  induction clock as [|t clock IH] using rev_ind; intros b Hst H0 Hlt; [done|].
  rewrite length_app in Hlt. simpl in Hlt.
  unfold failing_calls in *. rewrite foldl_app. simpl.
  rewrite IH by (done || lia).
  rewrite fmap_app. change ([t].*2) with [t.2]. rewrite failures_snoc.
  destruct (failures_below_threshold key clock.*2 b Hst) as (Hst' & _).
  { rewrite length_fmap. lia. }
  by rewrite (call_through_closed _ _ _ _ _ Hst').
Qed.

(** X8.  Failures seen through [call] trip the breaker.  On a closed
    circuit with no failure counted, [failure_threshold] calls in a row
    whose function raises leave the circuit open, opened at the instant of
    the last failure; from then on, while [recovery_timeout] has not
    elapsed since that instant, every [call] raises [CircuitOpenError]
    without running its function and without changing the breaker. *)
Theorem failing_calls_trip_the_breaker (b : breaker) (key : string)
    (clock : list (Q * Q)) (t : Q * Q) :
  state_of b key = CLOSED ->
  failure_count (stats_of b key) = 0 ->
  Z.of_nat (length clock) + 1 = failure_threshold b ->
  state_of (failing_calls b key (clock ++ [t])) key = OPEN
  /\ opened_at (stats_of (failing_calls b key (clock ++ [t])) key) = t.2
  /\ forall (A : Type) (now : Q) (func : option A) (later : Q),
       (now - t.2 < inject_Z (recovery_timeout b))%Q ->
       exists retry_after,
         call_through (failing_calls b key (clock ++ [t])) key now func later =
           (CircuitOpenError key retry_after,
            failing_calls b key (clock ++ [t])).
Proof.
  intros Hst H0 Hlen.
  assert (failing_calls b key (clock ++ [t]) =
          record_failure (failures b key clock.*2) key t.2) as Hrun.
  { unfold failing_calls. rewrite foldl_app. simpl.
    fold (failing_calls b key clock).
    rewrite failing_calls_below_threshold by (done || lia).
    destruct (failures_below_threshold key clock.*2 b Hst) as (Hst' & _).
    { rewrite length_fmap. lia. }
    by rewrite (call_through_closed _ _ _ _ _ Hst'). }
  destruct (failures_below_threshold key clock.*2 b Hst) as (Hst' & Hn & Hft).
  { rewrite length_fmap. lia. }
  rewrite length_fmap in Hn.
  assert (stats_of (failing_calls b key (clock ++ [t])) key =
          {| state := OPEN;
             failure_count := failure_count (stats_of b key)
                              + Z.of_nat (length clock) + 1;
             success_count := success_count (stats_of (failures b key clock.*2) key);
             last_failure_time := t.2;
             opened_at := t.2 |}) as Hstats.
  { rewrite Hrun, record_failure_stats, decide_True by done.
    unfold failure_step. unfold state_of in Hst'. rewrite Hst', Hn, Hft.
    destruct (Z.leb_spec (failure_threshold b)
                (failure_count (stats_of b key) + Z.of_nat (length clock) + 1));
      [done|lia]. }
  assert (state_of (failing_calls b key (clock ++ [t])) key = OPEN) as Hopen
    by (unfold state_of; by rewrite Hstats).
  split; [exact Hopen|]. split; [by rewrite Hstats|].
  intros A now func later Hlt.
  unfold call_through. rewrite is_allowed_open; [|exact Hopen|].
  - simpl. unfold _get_stats. rewrite (state_open_lookup _ _ Hopen).
    eexists. reflexivity.
  - rewrite Hstats. simpl. rewrite Hrun.
    pose proof (thresholds_run_call (failures b key clock.*2)
                  (RecordFailure key t.2)) as Hth.
    unfold thresholds in Hth. simpl in Hth.
    assert (recovery_timeout (failures b key clock.*2) = recovery_timeout b)
      as Hrt.
    { clear. generalize (clock.*2). intros nows. revert b.
      induction nows as [|n nows IH]; intros b; [done|].
      unfold failures in *. simpl. rewrite IH.
      pose proof (thresholds_run_call b (RecordFailure key n)) as Hth.
      unfold thresholds in Hth. simpl in Hth. congruence. }
    assert (recovery_timeout (record_failure (failures b key clock.*2) key t.2)
            = recovery_timeout b) as -> by congruence.
    exact Hlt.
Qed.

Lemma failing_calls_trip_the_breaker_witness :
  state_of (failing_calls circuit_breaker "provider:p"
              ([(1700000095, 1700000096); (1700000096, 1700000097);
                (1700000097, 1700000098); (1700000098, 1700000099)]
               ++ [(1700000099, 1700000100)])%Q)
           "provider:p" = OPEN
  /\ opened_at (stats_of (failing_calls circuit_breaker "provider:p"
                            ([(1700000095, 1700000096); (1700000096, 1700000097);
                              (1700000097, 1700000098); (1700000098, 1700000099)]
                             ++ [(1700000099, 1700000100)])%Q)
                         "provider:p") = 1700000100%Q.
Proof.
  destruct (failing_calls_trip_the_breaker circuit_breaker "provider:p"
              [(1700000095, 1700000096); (1700000096, 1700000097);
               (1700000097, 1700000098); (1700000098, 1700000099)]%Q
              (1700000099, 1700000100)%Q) as (H1 & H2 & _).
  - reflexivity.
  - reflexivity.
  - reflexivity.
  - split; [exact H1|exact H2].
Defined.

End CircuitBreakerSpec.

(** ** Sliding-window rate limiter *)

Module RateLimiterSpec.

Import RateLimiter.

Local Open Scope Z_scope.

Lemma count_at_filter (mv : Z) (slots : gmap Z Z) (slot : Z) :
  count_at (filter (fun kv : Z * Z => ¬ (kv.1 < mv)) slots) slot =
    if decide (slot < mv) then 0 else count_at slots slot.
Proof.
  unfold count_at.
  destruct (filter _ slots !! slot) as [n|] eqn:E.
  - apply map_lookup_filter_Some in E as [E Hge]. simpl in Hge.
    rewrite E. by rewrite decide_False.
  - apply map_lookup_filter_None in E as [E|E].
    + rewrite E. by destruct (decide _).
    + destruct (slots !! slot) as [n|] eqn:E'; [|by destruct (decide _)].
      destruct (decide (slot < mv)); [done|]. exfalso. by apply (E n).
Qed.

Lemma cleanup_slots_default (mv : Z) (w : option (gmap Z Z)) (slot : Z) :
  count_at (default ∅ (w ≫= cleanup_slots mv)) slot =
    if decide (slot < mv) then 0 else count_at (default ∅ w) slot.
Proof.
  destruct w as [slots|]; simpl.
  - unfold cleanup_slots. destruct (decide _) as [Heq|]; simpl.
    + rewrite <- (count_at_filter mv slots slot), Heq. reflexivity.
    + apply count_at_filter.
  - unfold count_at. rewrite lookup_empty. by destruct (decide _).
Qed.

(** The cleanup removes the counts of the slots below
    [current_slot - slot_count] when it is due, and nothing else. *)
Lemma cleanup_counts l now current_slot :
  _current_slot l now = Some current_slot ->
  exists l1,
    _cleanup_if_needed l now = Some l1
    /\ max_requests l1 = max_requests l
    /\ slot_count l1 = slot_count l
    /\ slot_duration l1 = slot_duration l
    /\ forall key slot,
         count_of l1 key slot =
           if cleanup_due l now && bool_decide (slot < current_slot - slot_count l)
           then 0 else count_of l key slot.
Proof.
  intros Hcs. unfold _cleanup_if_needed, cleanup_due.
  destruct (Qle_bool _ _); simpl.
  - rewrite Hcs. eexists. split; [reflexivity|]. simpl.
    repeat split. intros key slot. unfold count_of; simpl.
    rewrite lookup_omap, cleanup_slots_default.
    by destruct (decide _); [rewrite bool_decide_true|rewrite bool_decide_false].
  - exists l. by repeat split.
Qed.

Lemma window_sum_ext (w w' : gmap Z Z) (slots : list Z) :
  (forall slot, slot ∈ slots -> count_at w slot = count_at w' slot) ->
  window_sum w slots = window_sum w' slots.
Proof.
  unfold window_sum. induction slots as [|s slots IH]; intros H; [done|].
  simpl. rewrite (H s) by set_solver. rewrite IH; [done|].
  intros slot Hin. apply H. set_solver.
Qed.

Lemma window_range_above l current slot :
  slot ∈ window_range l current -> ¬ (slot < current - slot_count l).
Proof. unfold window_range. rewrite elem_of_seqZ. lia. Qed.

Lemma count_of_with_windows l key w key' slot :
  count_of (with_windows l (<[ key := w ]> (_windows l))) key' slot =
    if decide (key = key') then count_at w slot else count_of l key' slot.
Proof.
  unfold count_of; simpl. rewrite lookup_insert.
  by destruct (decide (key = key')).
Qed.

Lemma count_at_increment w current slot :
  count_at (<[ current := count_at w current + 1 ]> w) slot =
    count_at w slot + if decide (current = slot) then 1 else 0.
Proof.
  unfold count_at. rewrite lookup_insert.
  destruct (decide (current = slot)) as [->|]; simpl; lia.
Qed.

(** C8, as corrected.  A [check(key)] on a limiter whose slots have a
    duration returns.  The request is allowed exactly when the counts of
    [key] in the latest [slot_count] slots, as the limiter holds them at
    entry, sum to less than [max_requests].  When it is allowed, the count
    of [key] at the current slot goes up by one and
    [remaining = max_requests - sum - 1]; when it is denied,
    [remaining = 0] and [retry_after = max(1, reset_at - int(now))].
    Apart from that one increment, a count changes only when the periodic
    cleanup is due, which drops the counts of the slots below
    [current_slot - slot_count], all of them older than the window. *)
Theorem check_behaviour (l : SlidingWindowLimiter) (key : string) (now : Q) :
  is_zero (slot_duration l) = false ->
  exists res l' current_slot,
    check l key now = Some (res, l')
    /\ _current_slot l now = Some current_slot
    /\ (allowed res = true <->
        window_sum (default ∅ (_windows l !! key)) (window_range l current_slot)
          < max_requests l)
    /\ reset_at res = int (inject_Z (current_slot + 1) * slot_duration l)%Q
    /\ (allowed res = true ->
        remaining res =
          max_requests l
          - window_sum (default ∅ (_windows l !! key))
                       (window_range l current_slot) - 1
        /\ retry_after res = 0)
    /\ (allowed res = false ->
        remaining res = 0
        /\ retry_after res = Z.max 1 (reset_at res - int now))
    /\ forall key' slot,
         count_of l' key' slot =
           (if cleanup_due l now
               && bool_decide (slot < current_slot - slot_count l)
            then 0 else count_of l key' slot)
           + (if allowed res && bool_decide (key' = key /\ slot = current_slot)
              then 1 else 0).
Proof.
  intros Hz.
  set (cs := int (now / slot_duration l)%Q).
  assert (_current_slot l now = Some cs) as Hcs
    by (unfold _current_slot; by rewrite Hz).
  destruct (cleanup_counts l now cs Hcs) as (l1 & Hcl & Hmax & Hsc & Hdur & Hcount).
  assert (_current_slot l1 now = Some cs) as Hcs1
    by (unfold _current_slot; by rewrite Hdur, Hz).
  assert (window_sum (default ∅ (_windows l1 !! key)) (window_range l1 cs) =
          window_sum (default ∅ (_windows l !! key)) (window_range l cs)) as Hsum.
  { unfold window_range at 1. rewrite Hsc. apply window_sum_ext.
    intros slot Hin. specialize (Hcount key slot). unfold count_of in Hcount.
    rewrite Hcount. apply window_range_above in Hin.
    rewrite (bool_decide_false _ Hin). by rewrite andb_false_r. }
  unfold check. rewrite Hcl. unfold _get_window_slots. rewrite Hcs1. simpl.
  rewrite Hsum, Hmax, Hdur.
  set (total := window_sum (default ∅ (_windows l !! key)) (window_range l cs)).
  destruct (Z.leb_spec (max_requests l) total) as [Hdeny|Hallow].
  - eexists _, _, cs. split; [reflexivity|]. simpl.
    split; [exact Hcs|]. split; [split; [done|lia]|]. split; [done|].
    split; [done|]. split; [done|].
    intros key' slot. rewrite count_of_with_windows, Z.add_0_r.
    destruct (decide (key = key')) as [<-|]; [|apply Hcount].
    rewrite <- Hcount. reflexivity.
  - eexists _, _, cs. split; [reflexivity|]. simpl.
    split; [exact Hcs|]. split; [done|]. split; [done|].
    split; [done|]. split; [done|].
    intros key' slot. rewrite count_of_with_windows. simpl.
    destruct (decide (key = key')) as [<-|Hne].
    + rewrite count_at_increment. rewrite <- Hcount. unfold count_of.
      f_equal.
      destruct (decide (cs = slot)) as [->|].
      * by rewrite (bool_decide_true (key = key /\ slot = slot)).
      * rewrite (bool_decide_false (key = key /\ slot = cs)); [done|].
        intros [_ ?]. congruence.
    + rewrite count_of_with_windows, decide_False by done.
      rewrite Hcount, (bool_decide_false (key' = key /\ slot = cs)); [lia|].
      intros [? _]. congruence.
Qed.

Lemma check_behaviour_witness :
  default_limiter 1700000000%Q = Some sixty_per_minute
  /\ exists res l' current_slot,
       check sixty_per_minute "10.0.0.1" (17000000102 # 10)%Q = Some (res, l')
       /\ _current_slot sixty_per_minute (17000000102 # 10)%Q = Some current_slot
       /\ (allowed res = true <->
           window_sum (default ∅ (_windows sixty_per_minute !! "10.0.0.1"))
                      (window_range sixty_per_minute current_slot)
             < max_requests sixty_per_minute)
       /\ reset_at res =
            int (inject_Z (current_slot + 1) * slot_duration sixty_per_minute)%Q
       /\ (allowed res = true ->
           remaining res =
             max_requests sixty_per_minute
             - window_sum (default ∅ (_windows sixty_per_minute !! "10.0.0.1"))
                          (window_range sixty_per_minute current_slot) - 1
           /\ retry_after res = 0)
       /\ (allowed res = false ->
           remaining res = 0
           /\ retry_after res = Z.max 1 (reset_at res - int (17000000102 # 10)%Q))
       /\ forall key' slot,
            count_of l' key' slot =
              (if cleanup_due sixty_per_minute (17000000102 # 10)%Q
                  && bool_decide (slot < current_slot - slot_count sixty_per_minute)
               then 0 else count_of sixty_per_minute key' slot)
              + (if allowed res
                    && bool_decide (key' = "10.0.0.1" /\ slot = current_slot)
                 then 1 else 0).
Proof.
  split; [reflexivity|].
  apply (check_behaviour sixty_per_minute "10.0.0.1" (17000000102 # 10)%Q).
  reflexivity.
Defined.

(** C8 as stated fails: the second request, 10.3 s after the limiter's
    creation, is denied in the slot that ends 10.5 s after it, so
    [reset_at] and [int(now)] are both 1700000010, and [retry_after] is 1,
    not [reset_at - now]. *)
Lemma retry_after_is_at_least_one :
  __init__ 1 6 12 300 1700000000%Q = Some half_second_slots
  /\ check half_second_slots "10.0.0.1" (17000000102 # 10)%Q =
       Some ({| allowed := true; limit := 1; remaining := 0;
                reset_at := 1700000010; retry_after := 0 |}, one_request_in)
  /\ check one_request_in "10.0.0.1" (17000000103 # 10)%Q =
       Some ({| allowed := false; limit := 1; remaining := 0;
                reset_at := 1700000010; retry_after := 1 |}, one_request_in)
  /\ 1700000010 - int (17000000103 # 10)%Q = 0.
Proof. repeat apply conj; vm_compute; reflexivity. Qed.

(** What [check] returns and leaves behind, in terms of the counts at
    entry. *)
Lemma check_effect l key now :
  is_zero (slot_duration l) = false ->
  exists l',
    check l key now =
      Some (let cs := int (now / slot_duration l)%Q in
            let total := window_sum (default ∅ (_windows l !! key))
                                    (window_range l cs) in
            let reset := int (inject_Z (cs + 1) * slot_duration l)%Q in
            {| allowed := negb (max_requests l <=? total);
               limit := max_requests l;
               remaining := if max_requests l <=? total then 0
                            else max_requests l - total - 1;
               reset_at := reset;
               retry_after := if max_requests l <=? total
                              then Z.max 1 (reset - int now) else 0 |}, l')
    /\ max_requests l' = max_requests l
    /\ slot_count l' = slot_count l
    /\ slot_duration l' = slot_duration l
    /\ forall key' slot,
         count_of l' key' slot =
           (if cleanup_due l now
               && bool_decide (slot < int (now / slot_duration l)%Q - slot_count l)
            then 0 else count_of l key' slot)
           + (if negb (max_requests l <=?
                         window_sum (default ∅ (_windows l !! key))
                           (window_range l (int (now / slot_duration l)%Q)))
                 && bool_decide (key' = key /\ slot = int (now / slot_duration l)%Q)
              then 1 else 0).
Proof.
  intros Hz.
  set (cs := int (now / slot_duration l)%Q).
  assert (_current_slot l now = Some cs) as Hcs
    by (unfold _current_slot; by rewrite Hz).
  destruct (cleanup_counts l now cs Hcs) as (l1 & Hcl & Hmax & Hsc & Hdur & Hcount).
  assert (_current_slot l1 now = Some cs) as Hcs1
    by (unfold _current_slot; by rewrite Hdur, Hz).
  assert (window_sum (default ∅ (_windows l1 !! key)) (window_range l1 cs) =
          window_sum (default ∅ (_windows l !! key)) (window_range l cs)) as Hsum.
  { unfold window_range at 1. rewrite Hsc. apply window_sum_ext.
    intros slot Hin. specialize (Hcount key slot). unfold count_of in Hcount.
    rewrite Hcount. apply window_range_above in Hin.
    rewrite (bool_decide_false _ Hin). by rewrite andb_false_r. }
  unfold check. rewrite Hcl. unfold _get_window_slots. rewrite Hcs1. simpl.
  rewrite Hsum, Hmax, Hdur.
  set (total := window_sum (default ∅ (_windows l !! key)) (window_range l cs)).
  destruct (Z.leb_spec (max_requests l) total) as [Hdeny|Hallow].
  - eexists. split; [reflexivity|]. simpl.
    split; [done|]. split; [done|]. split; [done|].
    intros key' slot. rewrite count_of_with_windows, Z.add_0_r.
    destruct (decide (key = key')) as [<-|]; [|apply Hcount].
    rewrite <- Hcount. reflexivity.
  - eexists. split; [reflexivity|]. simpl.
    split; [done|]. split; [done|]. split; [done|].
    intros key' slot. rewrite count_of_with_windows. simpl.
    destruct (decide (key = key')) as [<-|Hne].
    + rewrite count_at_increment. rewrite <- Hcount. unfold count_of.
      f_equal.
      destruct (decide (cs = slot)) as [->|].
      * by rewrite (bool_decide_true (key = key /\ slot = slot)).
      * rewrite (bool_decide_false (key = key /\ slot = cs)); [done|].
        intros [_ ?]. congruence.
    + rewrite count_of_with_windows, decide_False by done.
      rewrite Hcount, (bool_decide_false (key' = key /\ slot = cs)); [lia|].
      intros [? _]. congruence.
Qed.

Lemma window_sum_empty (slots : list Z) : window_sum ∅ slots = 0.
Proof.
  unfold window_sum. induction slots as [|s slots IH]; [done|].
  simpl. rewrite IH. unfold count_at. by rewrite lookup_empty.
Qed.

(** X1.  [get_status(key)] on a limiter whose slots have a duration
    returns, changes no count, and tells what a [check(key)] at the same
    instant answers: the same verdict, limit, reset time and retry delay,
    and a [remaining] that is one more than that of an allowed [check],
    which counts its own request. *)
Theorem get_status_predicts_check (l : SlidingWindowLimiter) (key : string)
    (now : Q) :
  is_zero (slot_duration l) = false ->
  exists st l1 res l2,
    get_status l key now = Some (st, l1)
    /\ check l key now = Some (res, l2)
    /\ (forall key' slot, count_of l1 key' slot = count_of l key' slot)
    /\ allowed st = allowed res
    /\ limit st = limit res
    /\ reset_at st = reset_at res
    /\ retry_after st = retry_after res
    /\ remaining st = remaining res + (if allowed res then 1 else 0)
    /\ 0 <= remaining st.
Proof.
  intros Hz.
  destruct (check_effect l key now Hz) as (l2 & Hcheck & _).
  unfold get_status, _get_window_slots, _current_slot. simpl. rewrite Hz.
  eexists _, _, _, l2. split; [reflexivity|]. split; [exact Hcheck|].
  simpl. set (total := window_sum _ _).
  split.
  { intros key' slot. rewrite count_of_with_windows.
    by destruct (decide (key = key')) as [<-|]. }
  destruct (Z.leb_spec (max_requests l) total) as [Hdeny|Hallow];
    destruct (Z.ltb_spec total (max_requests l)); try lia;
    simpl; repeat split; lia.
Qed.

Lemma get_status_predicts_check_witness :
  exists st l1 res l2,
    get_status one_request_in "10.0.0.1" (17000000103 # 10)%Q = Some (st, l1)
    /\ check one_request_in "10.0.0.1" (17000000103 # 10)%Q = Some (res, l2)
    /\ (forall key' slot, count_of l1 key' slot = count_of one_request_in key' slot)
    /\ allowed st = allowed res
    /\ limit st = limit res
    /\ reset_at st = reset_at res
    /\ retry_after st = retry_after res
    /\ remaining st = remaining res + (if allowed res then 1 else 0)
    /\ 0 <= remaining st.
Proof.
  apply (get_status_predicts_check one_request_in "10.0.0.1" (17000000103 # 10)%Q).
  reflexivity.
Defined.

Lemma reset_windows l key key' :
  _windows (reset l key) !! key' =
    if decide (key = key') then None else _windows l !! key'.
Proof.
  unfold reset. destruct (_windows l !! key) eqn:E; simpl.
  - rewrite lookup_delete. by destruct (decide (key = key')).
  - destruct (decide (key = key')) as [<-|]; done.
Qed.

Lemma reset_config l key :
  max_requests (reset l key) = max_requests l
  /\ slot_count (reset l key) = slot_count l
  /\ slot_duration (reset l key) = slot_duration l.
Proof. unfold reset. by destruct (_windows l !! key). Qed.

(** X2.  After [reset(key)] the limiter holds nothing for [key] and what
    it held for every other key: the next [check(key)] is allowed exactly
    when [max_requests] is positive, whatever was counted before, and then
    leaves [max_requests - 1] requests. *)
Theorem reset_then_check (l : SlidingWindowLimiter) (key : string) (now : Q) :
  is_zero (slot_duration l) = false ->
  exists res l',
    check (reset l key) key now = Some (res, l')
    /\ (allowed res = true <-> 0 < max_requests l)
    /\ (allowed res = true -> remaining res = max_requests l - 1)
    /\ (forall slot, count_of (reset l key) key slot = 0)
    /\ (forall key' slot,
          key' <> key -> count_of (reset l key) key' slot = count_of l key' slot).
Proof.
  intros Hz.
  destruct (reset_config l key) as (Hmax & Hsc & Hdur).
  destruct (check_effect (reset l key) key now) as (l' & Hcheck & _);
    [by rewrite Hdur|].
  eexists _, l'. split; [exact Hcheck|]. simpl.
  rewrite reset_windows, decide_True by done. simpl.
  rewrite window_sum_empty, Hmax.
  split; [|split; [|split]].
  - destruct (Z.leb_spec (max_requests l) 0); simpl; split; (done || lia).
  - destruct (Z.leb_spec (max_requests l) 0); simpl; [done|lia].
  - intros slot. unfold count_of. rewrite reset_windows, decide_True by done.
    unfold count_at. simpl. by rewrite lookup_empty.
  - intros key' slot Hne. unfold count_of.
    rewrite reset_windows, decide_False by done. reflexivity.
Qed.

Lemma reset_then_check_witness :
  exists res l',
    check (reset one_request_in "10.0.0.1") "10.0.0.1" (17000000103 # 10)%Q =
      Some (res, l')
    /\ (allowed res = true <-> 0 < max_requests one_request_in)
    /\ (allowed res = true -> remaining res = max_requests one_request_in - 1)
    /\ (forall slot, count_of (reset one_request_in "10.0.0.1") "10.0.0.1" slot = 0)
    /\ (forall key' slot,
          key' <> "10.0.0.1" ->
          count_of (reset one_request_in "10.0.0.1") key' slot =
            count_of one_request_in key' slot).
Proof.
  apply (reset_then_check one_request_in "10.0.0.1" (17000000103 # 10)%Q).
  reflexivity.
Defined.

(** Truncation does not reverse the order of two numbers, so on a clock
    that does not go back the slot index does not go down. *)
Lemma int_mono (a b : Q) : (a <= b)%Q -> int a <= int b.
Proof.
  unfold Qle, int. intros H.
  rewrite <- (Z.quot_mul_cancel_r (Qnum a) (Z.pos (Qden a)) (Z.pos (Qden b)))
    by lia.
  rewrite <- (Z.quot_mul_cancel_r (Qnum b) (Z.pos (Qden b)) (Z.pos (Qden a)))
    by lia.
  rewrite (Z.mul_comm (Z.pos (Qden b)) (Z.pos (Qden a))).
  apply Z.quot_le_mono; lia.
Qed.

Lemma positive_not_zero (d : Q) : (0 < d)%Q -> is_zero d = false.
Proof.
  unfold Qlt, is_zero. simpl. intros H. apply Z.eqb_neq. lia.
Qed.

Lemma slot_mono (d t t' : Q) :
  (0 < d)%Q -> (t <= t')%Q -> int (t / d) <= int (t' / d).
Proof.
  intros Hd Ht. apply int_mono. unfold Qdiv.
  apply Qmult_le_compat_r; [exact Ht|].
  apply Qlt_le_weak, Qinv_lt_0_compat, Hd.
Qed.

(** X3.  Keys do not share a budget: after a [check] of one key, a
    [check] of another key at that instant or later answers what it would
    have answered without the first. *)
Theorem check_keys_independent (l : SlidingWindowLimiter) (key key' : string)
    (now now' : Q) (res : RateLimitResult) (l1 : SlidingWindowLimiter) :
  (0 < slot_duration l)%Q ->
  key <> key' ->
  (now <= now')%Q ->
  check l key now = Some (res, l1) ->
  exists res' l2 l2',
    check l key' now' = Some (res', l2)
    /\ check l1 key' now' = Some (res', l2').
Proof.
  intros Hd Hne Hle Hcheck.
  pose proof (positive_not_zero _ Hd) as Hz.
  destruct (check_effect l key now Hz) as (l1' & Hc1 & Hmax & Hsc & Hdur & Hcount).
  rewrite Hcheck in Hc1. injection Hc1 as _ <-.
  destruct (check_effect l key' now' Hz) as (l2 & Hc2 & _).
  destruct (check_effect l1 key' now') as (l2' & Hc2' & _); [by rewrite Hdur|].
  cbv zeta in Hc2, Hc2'. rewrite Hmax, Hdur in Hc2'.
  eexists _, l2, l2'. split; [exact Hc2|]. rewrite Hc2'.
  assert (window_sum (default ∅ (_windows l1 !! key'))
                     (window_range l1 (int (now' / slot_duration l)%Q)) =
          window_sum (default ∅ (_windows l !! key'))
                     (window_range l (int (now' / slot_duration l)%Q))) as ->;
    [|reflexivity].
  unfold window_range at 1. rewrite Hsc. apply window_sum_ext.
  intros slot Hin. specialize (Hcount key' slot). unfold count_of in Hcount.
  rewrite Hcount.
  rewrite (bool_decide_false (key' = key /\ _)) by (intros [? _]; congruence).
  rewrite andb_false_r, Z.add_0_r.
  apply window_range_above in Hin.
  pose proof (slot_mono _ _ _ Hd Hle).
  rewrite (bool_decide_false (slot < _)) by lia.
  by rewrite andb_false_r.
Qed.

Lemma check_keys_independent_witness :
  exists res' l2 l2',
    check half_second_slots "10.0.0.2" (17000000103 # 10)%Q = Some (res', l2)
    /\ check one_request_in "10.0.0.2" (17000000103 # 10)%Q = Some (res', l2').
Proof.
  apply (check_keys_independent half_second_slots "10.0.0.1" "10.0.0.2"
           (17000000102 # 10)%Q (17000000103 # 10)%Q
           {| allowed := true; limit := 1; remaining := 0;
              reset_at := 1700000010; retry_after := 0 |} one_request_in).
  - reflexivity.
  - discriminate.
  - discriminate.
  - vm_compute; reflexivity.
Defined.

(** *** The window guarantee *)

Lemma allowed_between_app (a b : list (Z * bool)) (lo hi : Z) :
  allowed_between (a ++ b) lo hi =
    (allowed_between a lo hi + allowed_between b lo hi)%nat.
Proof. unfold allowed_between. by rewrite List.filter_app, length_app. Qed.

Lemma allowed_between_split (t : list (Z * bool)) (lo mid hi : Z) :
  lo <= mid <= hi ->
  allowed_between t lo hi =
    (allowed_between t lo mid + allowed_between t mid hi)%nat.
Proof.
  intros H. unfold allowed_between.
  induction t as [|[s ok] t IH]; [done|]. simpl.
  destruct ok; simpl; [|exact IH].
  destruct (Z.leb_spec lo s), (Z.ltb_spec s hi), (Z.leb_spec mid s),
    (Z.ltb_spec s mid); simpl; lia.
Qed.

Lemma allowed_between_empty (t : list (Z * bool)) (lo hi : Z) :
  hi <= lo -> allowed_between t lo hi = 0%nat.
Proof.
  intros H. unfold allowed_between.
  induction t as [|[s ok] t IH]; [done|]. simpl.
  destruct ok; simpl; [|exact IH].
  destruct (Z.leb_spec lo s), (Z.ltb_spec s hi); simpl; lia.
Qed.

Lemma allowed_between_mono (t : list (Z * bool)) (lo lo' hi hi' : Z) :
  lo' <= lo -> hi <= hi' ->
  (allowed_between t lo hi <= allowed_between t lo' hi')%nat.
Proof.
  intros Hlo Hhi. destruct (Z.le_gt_cases hi lo) as [He|Hlt].
  - rewrite (allowed_between_empty t lo hi He). lia.
  - rewrite (allowed_between_split t lo' lo hi') by lia.
    rewrite (allowed_between_split t lo hi hi') by lia. lia.
Qed.

(** No call of the trace is in a slot above [c]. *)
Lemma allowed_between_below (t : list (Z * bool)) (c lo hi : Z) :
  Forall (fun sv => sv.1 <= c) t -> c + 1 <= hi ->
  allowed_between t lo hi = allowed_between t lo (c + 1).
Proof.
  intros Ht Hhi. destruct (Z.le_gt_cases lo (c + 1)) as [Hlo|Hlo].
  - rewrite (allowed_between_split t lo (c + 1) hi) by lia.
    assert (allowed_between t (c + 1) hi = 0%nat) as ->; [|lia].
    unfold allowed_between. induction Ht as [|[s ok] t Hs _ IH]; [done|].
    simpl in *. destruct ok; simpl; [|exact IH].
    destruct (Z.leb_spec (c + 1) s); simpl; [lia|exact IH].
  - unfold allowed_between. induction Ht as [|[s ok] t Hs _ IH]; [done|].
    simpl in *. destruct ok; simpl; [|exact IH].
    destruct (Z.leb_spec lo s); simpl; [lia|exact IH].
Qed.

(** A window whose counts are the numbers of allowed calls sums to the
    number of calls allowed in its slots. *)
Lemma window_sum_allowed (w : gmap Z Z) (t : list (Z * bool)) (n : nat) :
  forall lo,
  (forall s, lo <= s < lo + Z.of_nat n ->
             count_at w s = Z.of_nat (allowed_between t s (s + 1))) ->
  window_sum w (seqZ lo (Z.of_nat n)) =
    Z.of_nat (allowed_between t lo (lo + Z.of_nat n)).
Proof.
  induction n as [|n IH]; intros lo H.
  - simpl. rewrite allowed_between_empty by lia. reflexivity.
  - rewrite seqZ_cons by lia. unfold window_sum in *. simpl.
    replace (Z.pred (Z.of_nat (S n))) with (Z.of_nat n) by lia.
    rewrite IH by (intros s Hs; apply H; lia).
    rewrite H by lia.
    rewrite (allowed_between_split t lo (lo + 1) (lo + Z.of_nat (S n))) by lia.
    replace (Z.succ lo + Z.of_nat n) with (lo + Z.of_nat (S n)) by lia.
    replace (Z.succ lo) with (lo + 1) by lia. lia.
Qed.

Lemma check_counts_allowed l key past c0 now :
  (0 < slot_duration l)%Q ->
  counts_allowed l key past c0 ->
  c0 <= int (now / slot_duration l)%Q ->
  exists res l',
    check l key now = Some (res, l')
    /\ max_requests l' = max_requests l
    /\ slot_count l' = slot_count l
    /\ slot_duration l' = slot_duration l
    /\ counts_allowed l' key
         (past ++ [(int (now / slot_duration l)%Q, allowed res)])
         (int (now / slot_duration l)%Q).
Proof.
  intros Hd (Hcount & Hpast & Hbound) Hc0.
  destruct (check_effect l key now (positive_not_zero _ Hd))
    as (l' & Hcheck & Hmax & Hsc & Hdur & Hcount').
  set (c := int (now / slot_duration l)%Q) in *.
  set (total := window_sum (default ∅ (_windows l !! key)) (window_range l c))
    in *.
  eexists _, l'. split; [exact Hcheck|]. cbn [allowed].
  split; [exact Hmax|]. split; [exact Hsc|]. split; [exact Hdur|].
  assert (forall s, allowed_between [(c, negb (max_requests l <=? total))] s (s + 1)
                    = if negb (max_requests l <=? total) && bool_decide (s = c)
                      then 1%nat else 0%nat) as Hone.
  { intros s. unfold allowed_between. simpl.
    destruct (negb _); simpl; [|done].
    destruct (Z.leb_spec s c), (Z.ltb_spec c (s + 1)); simpl;
      case_bool_decide; (done || lia). }
  split; [|split].
  - intros s Hs. rewrite Hsc in Hs. rewrite Hcount', allowed_between_app, Hone.
    rewrite (bool_decide_false (s < c - slot_count l)) by lia.
    rewrite andb_false_r, Hcount by lia.
    destruct (negb _); simpl; [|lia].
    repeat case_bool_decide; try lia; exfalso; intuition congruence.
  - apply Forall_app. split.
    + eapply Forall_impl; [exact Hpast|]. simpl. intros; lia.
    + constructor; [simpl; lia|constructor].
  - intros start. rewrite Hsc, Hmax, allowed_between_app.
    destruct (Z.le_gt_cases (slot_count l) 0) as [Hsc0|Hsc0].
    { rewrite !allowed_between_empty by lia. lia. }
    specialize (Hbound start).
    unfold allowed_between at 2. simpl. fold total.
    destruct (Z.leb_spec (max_requests l) total) as [Hdeny|Hallow]; simpl;
      [lia|].
    destruct (Z.leb_spec start c), (Z.ltb_spec c (start + slot_count l));
      simpl; try lia.
    assert (Z.of_nat (allowed_between past start (start + slot_count l))
            <= total); [|lia].
    rewrite (allowed_between_below past c) by
      first [lia | eapply Forall_impl; [exact Hpast|simpl; intros; lia]].
    etrans.
    { apply inj_le.
      apply (allowed_between_mono past start (c - slot_count l + 1)
                                  (c + 1) (c + 1)); lia. }
    pose proof (window_sum_allowed (default ∅ (_windows l !! key)) past
                  (Z.to_nat (slot_count l)) (c - slot_count l + 1)) as Hw.
    rewrite Z2Nat.id in Hw by lia.
    unfold total, window_range. rewrite Hw.
    + replace (c - slot_count l + 1 + slot_count l) with (c + 1) by lia. lia.
    + intros s Hs. apply (Hcount s). lia.
Qed.

Lemma checks_counts_allowed key (nows : list Q) :
  forall l past c0,
  (0 < slot_duration l)%Q ->
  counts_allowed l key past c0 ->
  StronglySorted Qle nows ->
  Forall (fun now => c0 <= int (now / slot_duration l)%Q) nows ->
  exists trace l',
    checks l key nows = Some (trace, l')
    /\ trace.*1 = (fun now => int (now / slot_duration l)%Q) <$> nows
    /\ forall start,
         Z.of_nat (allowed_between (past ++ trace) start (start + slot_count l))
           <= Z.max 0 (max_requests l).
Proof.
  induction nows as [|now nows IH]; intros l past c0 Hd Hinv Hsorted Hc0.
  - exists [], l. split; [done|]. split; [done|].
    rewrite app_nil_r. apply Hinv.
  - apply StronglySorted_inv in Hsorted as [Hsorted Hnow].
    apply Forall_cons in Hc0 as [Hc Hc0].
    destruct (check_counts_allowed l key past c0 now Hd Hinv Hc)
      as (res & l1 & Hcheck & Hmax & Hsc & Hdur & Hinv1).
    destruct (IH l1 _ _ ltac:(by rewrite Hdur) Hinv1 Hsorted)
      as (trace & l' & Hchecks & Hslots & Hbound).
    { rewrite Hdur. eapply Forall_impl; [exact Hnow|]. simpl.
      intros now' Hle. by apply slot_mono. }
    simpl. unfold _current_slot at 1.
    rewrite (positive_not_zero _ Hd), Hcheck, Hchecks.
    eexists _, l'. split; [reflexivity|]. split.
    + rewrite !fmap_cons, Hslots, Hdur. reflexivity.
    + intros start. specialize (Hbound start).
      rewrite <- app_assoc, Hsc, Hmax in Hbound. exact Hbound.
Qed.

(** X4.  The sliding-window guarantee.  On a clock that does not go back,
    with slots of positive duration, the [check]s of a key the limiter
    holds nothing for all return, each in the slot of its instant, and of
    those made in any [slot_count] consecutive slots at most
    [max_requests] are allowed (none when [max_requests] is not
    positive). *)
Theorem window_never_exceeds_limit (l : SlidingWindowLimiter) (key : string)
    (nows : list Q) :
  (0 < slot_duration l)%Q ->
  _windows l !! key = None ->
  Sorted Qle nows ->
  exists trace l',
    checks l key nows = Some (trace, l')
    /\ trace.*1 = (fun now => int (now / slot_duration l)%Q) <$> nows
    /\ forall start,
         Z.of_nat (allowed_between trace start (start + slot_count l))
           <= Z.max 0 (max_requests l).
Proof.
  intros Hd Hnone Hsorted.
  apply Sorted_StronglySorted in Hsorted; [|intros x y z; apply Qle_trans].
  destruct nows as [|now nows].
  { exists [], l. repeat split. intros start. unfold allowed_between. simpl. lia. }
  apply (checks_counts_allowed key (now :: nows) l []
           (int (now / slot_duration l)%Q) Hd); [|exact Hsorted|].
  - split; [|split].
    + intros s _. unfold count_of. rewrite Hnone. unfold count_at. simpl.
      by rewrite lookup_empty.
    + constructor.
    + intros start. unfold allowed_between. simpl. lia.
  - constructor; [lia|].
    apply StronglySorted_inv in Hsorted as [_ Hnow].
    eapply Forall_impl; [exact Hnow|]. simpl.
    intros now' Hle. by apply slot_mono.
Qed.

Lemma window_never_exceeds_limit_witness :
  exists trace l',
    checks half_second_slots "10.0.0.1"
           [(17000000102 # 10); (17000000103 # 10); 1700000013]%Q =
      Some (trace, l')
    /\ trace.*1 =
         (fun now => int (now / slot_duration half_second_slots)%Q)
           <$> [(17000000102 # 10); (17000000103 # 10); 1700000013]%Q
    /\ forall start,
         Z.of_nat (allowed_between trace start
                                   (start + slot_count half_second_slots))
           <= Z.max 0 (max_requests half_second_slots).
Proof.
  apply (window_never_exceeds_limit half_second_slots "10.0.0.1"
           [(17000000102 # 10); (17000000103 # 10); 1700000013]%Q).
  - reflexivity.
  - reflexivity.
  - repeat constructor; discriminate.
Defined.

End RateLimiterSpec.

(** ** Dispatcher selection and chat orchestrator *)

Module ChatOrchestratorSpec.

Import ModelNormalizer ChatOrchestrator.

Local Open Scope string_scope.
Local Open Scope list_scope.

(** What the loop over the candidates puts into [scored]. *)
Lemma score_candidates_elem w model variant_list cands : forall scored s,
  score_candidates w model variant_list cands = Some scored ->
  s ∈ scored ->
  sc_provider s ∈ cands
  /\ sc_resolved s = resolve w model variant_list (sc_provider s)
  /\ _is_available w (sc_provider s) (sc_resolved s) = true
  /\ score_for w (sc_provider s) (sc_resolved s) = Some (sc_score s).
Proof.
  induction cands as [|p cands IH]; intros scored s; simpl.
  - intros [= <-] Hs. by apply elem_of_nil in Hs.
  - destruct (_is_available w p _) eqn:Eav.
    + destruct (score_for w p _) as [score|] eqn:Esc; [|done].
      destruct (score_candidates w model variant_list cands) as [rest|]; [|done].
      intros [= <-] Hs. apply elem_of_cons in Hs as [->|Hs].
      * simpl. split; [left|done].
      * destruct (IH rest s eq_refl Hs) as (H1 & H2). split; [by right|done].
    + intros Hsc Hs. destruct (IH scored s Hsc Hs) as (H1 & H2).
      split; [by right|done].
Qed.

(** The dispatcher selects a provider of its list whose id is not
    excluded. *)
Lemma selected_not_excluded w model excluded p resolved :
  get_provider_for_model w model excluded = Selected p resolved ->
  p ∈ all_providers w /\ id p ∉ excluded.
Proof.
  unfold get_provider_for_model.
  destruct (build_model_alias_maps (all_providers w)) as [maps|]; [|done].
  set (variant_list := elements _).
  destruct (List.filter _ (all_providers w)) as [|c cs] eqn:Ecands; [done|].
  destruct (score_candidates w model variant_list (c :: cs))
    as [scored|] eqn:Escored; [|done].
  destruct (sort_desc score_lt scored) as [|picked rest] eqn:Esort; [done|].
  intros [= <- <-].
  assert (picked ∈ sort_desc score_lt scored) as Hin by (rewrite Esort; left).
  apply sort_desc_elem in Hin.
  destruct (score_candidates_elem _ _ _ _ _ _ Escored Hin) as (Hq & _).
  rewrite <- Ecands in Hq. apply list_elem_of_In, filter_In in Hq as [Hq Hcand].
  split; [by apply list_elem_of_In|].
  unfold is_candidate in Hcand.
  apply andb_true_iff in Hcand as [_ Hex]. apply negb_true_iff in Hex.
  by apply bool_decide_eq_false in Hex.
Qed.

Lemma forwards_from_fresh e model attempt tried trace :
  forwards_from e model attempt tried trace ->
  NoDup (forwarded_ids trace)
  /\ forall i, i ∈ forwarded_ids trace -> i ∉ tried.
Proof.
  induction 1 as [|attempt tried p m rest Hsel _ [IHnd IHnot]]; simpl.
  - split; [constructor|]. intros i Hi. by apply elem_of_nil in Hi.
  - apply selected_not_excluded in Hsel as [_ Hfresh].
    rewrite elem_of_elements in Hfresh. split.
    + constructor; [|done]. intros Hin. apply (IHnot _ Hin).
      apply elem_of_union_l, elem_of_singleton. done.
    + intros i Hi. apply elem_of_cons in Hi as [->|Hi]; [done|].
      intros Hin. apply (IHnot _ Hi). by apply elem_of_union_r.
Qed.

Lemma tried_after_cons (i : string) (ids : list string) (tried : gset string) :
  list_to_set ids ∪ ({[ i ]} ∪ tried) = list_to_set (i :: ids) ∪ tried.
Proof.
  apply set_eq. intros x. simpl.
  rewrite !elem_of_union, elem_of_singleton. tauto.
Qed.

(** The loop, from any attempt on: what it forwards, and how it ends.
    It ends with the first 2xx response, which it returns; or, none having
    been obtained, when the attempts are used up, when the dispatcher
    selects nothing, or when the dispatcher raises. *)
Lemma retry_loop_run e model remaining :
  forall attempt tried lr lf out trace,
  retry_loop e model remaining attempt tried lr lf = (out, trace) ->
  forwards_from e model attempt tried trace
  /\ (length trace <= remaining)%nat
  /\ ((exists pre p m r,
         trace = pre ++ [(p, m, Responded r)] /\ Forall not_success pre
         /\ is_2xx r = true /\ out = Returned r)
      \/ (Forall not_success trace
          /\ let captured :=
               foldl (fun acc t => match t.2 with
                                   | Responded r => Some r
                                   | Failed _ => acc
                                   end) lr trace in
             let raised :=
               foldl (fun acc t => match t.2 with
                                   | Failed err => Some err
                                   | Responded _ => acc
                                   end) lf trace in
             let next :=
               get_provider_for_model
                 (world_at e (attempt + length trace)) model
                 (elements (list_to_set (forwarded_ids trace) ∪ tried)) in
             (length trace = remaining
              /\ out = Returned (after_loop captured raised))
             \/ ((length trace < remaining)%nat
                 /\ next = NoSelection
                 /\ out = Returned (if Nat.eqb (attempt + length trace) 1
                                    then not_found model
                                    else after_loop captured raised))
             \/ ((length trace < remaining)%nat
                 /\ next = DispatchRaised
                 /\ out = Raised))).
Proof.
  induction remaining as [|remaining IH];
    intros attempt tried lr lf out trace; simpl.
  - intros [= <- <-]. split; [constructor|]. split; [done|].
    right. split; [constructor|]. left. done.
  - assert (forall p m f lr' lf' o rest,
              get_provider_for_model (world_at e attempt) model (elements tried)
                = Selected p m ->
              f = forward_request e attempt p m ->
              not_success (p, m, f) ->
              lr' = match f with Responded r => Some r | Failed _ => lr end ->
              lf' = match f with Failed err => Some err | Responded _ => lf end ->
              retry_loop e model remaining (S attempt) ({[id p]} ∪ tried)
                         lr' lf' = (o, rest) ->
              forwards_from e model attempt tried ((p, m, f) :: rest)
              /\ (length ((p, m, f) :: rest) <= S remaining)%nat
              /\ ((exists pre q m' r,
                     (p, m, f) :: rest = pre ++ [(q, m', Responded r)]
                     /\ Forall not_success pre
                     /\ is_2xx r = true /\ o = Returned r)
                  \/ (Forall not_success ((p, m, f) :: rest)
                      /\ let captured :=
                           foldl (fun acc t => match t.2 with
                                               | Responded r => Some r
                                               | Failed _ => acc
                                               end) lr ((p, m, f) :: rest) in
                         let raised :=
                           foldl (fun acc t => match t.2 with
                                               | Failed err => Some err
                                               | Responded _ => acc
                                               end) lf ((p, m, f) :: rest) in
                         let next :=
                           get_provider_for_model
                             (world_at e (attempt + length ((p, m, f) :: rest)))
                             model
                             (elements
                                (list_to_set (forwarded_ids ((p, m, f) :: rest))
                                 ∪ tried)) in
                         (length ((p, m, f) :: rest) = S remaining
                          /\ o = Returned (after_loop captured raised))
                         \/ ((length ((p, m, f) :: rest) < S remaining)%nat
                             /\ next = NoSelection
                             /\ o = Returned
                                      (if Nat.eqb (attempt
                                                   + length ((p, m, f) :: rest)) 1
                                       then not_found model
                                       else after_loop captured raised))
                         \/ ((length ((p, m, f) :: rest) < S remaining)%nat
                             /\ next = DispatchRaised
                             /\ o = Raised)))) as Hstep.
    { intros p m f lr' lf' o rest Hsel -> Hfail -> -> Hrest.
      destruct (IH _ _ _ _ _ _ Hrest) as (Hfw & Hlen & Hend).
      split; [by constructor|]. split; [simpl; lia|].
      destruct Hend as [(pre & q & m' & r & -> & Hpre & Hr & ->)|[Hall Hend]].
      - left. exists ((p, m, forward_request e attempt p m) :: pre), q, m', r.
        repeat split; try done. by constructor.
      - right. split; [by constructor|]. cbv zeta in Hend |- *.
        change (forwarded_ids ((p, m, forward_request e attempt p m) :: rest))
          with (id p :: forwarded_ids rest).
        rewrite <- tried_after_cons.
        change (length ((p, m, forward_request e attempt p m) :: rest))
          with (S (length rest)).
        rewrite Nat.add_succ_r. simpl foldl.
        assert (Nat.eqb (S (attempt + length rest)) 1
                = Nat.eqb (S attempt + length rest) 1) as -> by done.
        change (S (attempt + length rest)) with (S attempt + length rest)%nat.
        destruct Hend as [[Hl Ho]|[(Hl & Hn & Ho)|(Hl & Hn & Ho)]].
        + left. split; [lia|done].
        + right; left. split; [lia|done].
        + right; right. split; [lia|done]. }
    destruct (get_provider_for_model _ _ _) as [p resolved| |] eqn:Esel.
    + destruct (forward_request e attempt p resolved) as [r|err] eqn:Efwd.
      * destruct (is_2xx r) eqn:E2.
        -- intros [= <- <-]. split.
           { rewrite <- Efwd. constructor; [done|constructor]. }
           split; [simpl; lia|].
           left. by exists [], p, resolved, r.
        -- destruct (retry_loop e model remaining _ _ _ _) as [o rest] eqn:Er.
           intros [= <- <-].
           apply (Hstep p resolved (Responded r) (Some r) lf o rest); try done.
        * destruct (retry_loop e model remaining _ _ _ _) as [o rest] eqn:Er.
          intros [= <- <-].
          apply (Hstep p resolved (Failed err) lr (Some err) o rest); try done.
    + intros Hout. split; [|split].
      * destruct (Nat.eqb attempt 1); injection Hout as <- <-; constructor.
      * destruct (Nat.eqb attempt 1); injection Hout as <- <-; simpl; lia.
      * right.
        assert (trace = []) as -> by (by destruct (Nat.eqb attempt 1);
                                       injection Hout as <- <-).
        split; [constructor|]. cbv zeta. simpl.
        rewrite Nat.add_0_r, union_empty_l_L, Esel.
        right; left. split; [lia|]. split; [done|].
        by destruct (Nat.eqb attempt 1); injection Hout as <-.
    + intros [= <- <-]. split; [constructor|]. split; [simpl; lia|].
      right. split; [constructor|]. cbv zeta. simpl.
      rewrite Nat.add_0_r, union_empty_l_L, Esel.
      right; right. split; [lia|done].
Qed.

(** C9.  For a request whose key is valid.  Every forward goes to the
    provider that the dispatcher selects at that attempt with the ids of
    the providers forwarded to so far excluded, so no provider is forwarded
    to twice, and there are at most [max_retries] forwards.  The first 2xx
    response ends the loop and is returned.  Otherwise the loop ends when
    [max_retries] forwards have been made, or when the dispatcher selects
    nothing: on attempt 1 the response is then HTTP 404 with the
    [model_not_found] error, and in the other cases it is the error
    response captured last or, none having been captured, HTTP 502 with the
    [upstream_error] envelope.  The request raises only when the dispatcher
    does. *)
Theorem chat_completions_retry (e : env) (model : string) :
  key_valid e = true ->
  exists out trace,
    chat_completions e model = (out, trace)
    /\ forwards_from e model 1 ∅ trace
    /\ NoDup (forwarded_ids trace)
    /\ (length trace <= Z.to_nat (max_retries e))%nat
    /\ ((exists pre p m r,
           trace = pre ++ [(p, m, Responded r)] /\ Forall not_success pre
           /\ is_2xx r = true /\ out = Returned r)
        \/ (Forall not_success trace
            /\ ((length trace = Z.to_nat (max_retries e)
                 /\ out = Returned (error_answer trace))
                \/ ((length trace < Z.to_nat (max_retries e))%nat
                    /\ get_provider_for_model
                         (world_at e (S (length trace))) model
                         (elements (list_to_set (forwarded_ids trace)
                                    : gset string)) = NoSelection
                    /\ out = Returned match trace with
                                      | [] => not_found model
                                      | _ => error_answer trace
                                      end)
                \/ ((length trace < Z.to_nat (max_retries e))%nat
                    /\ get_provider_for_model
                         (world_at e (S (length trace))) model
                         (elements (list_to_set (forwarded_ids trace)
                                    : gset string)) = DispatchRaised
                    /\ out = Raised))))
    /\ status_code (not_found model) = 404%Z
    /\ exists message,
         body (not_found model) =
           Error message "invalid_request_error" "model_not_found".
Proof.
  intros Hkey. unfold chat_completions. rewrite Hkey. simpl.
  destruct (retry_loop e model (Z.to_nat (max_retries e)) 1 ∅ None None)
    as [out trace] eqn:Erun.
  exists out, trace. split; [done|].
  destruct (retry_loop_run _ _ _ _ _ _ _ _ _ Erun) as (Hfw & Hlen & Hend).
  split; [exact Hfw|].
  split; [by destruct (forwards_from_fresh _ _ _ _ _ Hfw)|].
  split; [exact Hlen|].
  split; [|split; [done|by eexists]].
  destruct Hend as [Hok|[Hall Hend]]; [by left|].
  right. split; [exact Hall|]. cbv zeta in Hend.
  rewrite union_empty_r_L in Hend.
  change (1 + length trace)%nat with (S (length trace)) in Hend.
  fold (last_response trace) in Hend. fold (last_failure trace) in Hend.
  change (after_loop (last_response trace) (last_failure trace))
    with (error_answer trace) in Hend.
  destruct Hend as [H|[(Hl & Hn & ->)|H]]; [by left| |by right; right].
  right; left. split; [exact Hl|]. split; [exact Hn|].
  by destruct trace.
Qed.

(** The retry scenario: the request goes to [a], then to [b], whose
    response is returned. *)
Lemma a_fails_b_answers_run :
  chat_completions a_fails_b_answers "claude-3-opus" =
    (Returned ok_200,
     [(provider_a, "claude-3-opus", Responded error_500);
      (provider_b, "claude-3-opus", Responded ok_200)]).
Proof. vm_compute. reflexivity. Qed.

Lemma chat_completions_retry_witness :
  exists out trace,
    chat_completions a_fails_b_answers "claude-3-opus" = (out, trace)
    /\ forwards_from a_fails_b_answers "claude-3-opus" 1 ∅ trace
    /\ NoDup (forwarded_ids trace)
    /\ (length trace <= Z.to_nat (max_retries a_fails_b_answers))%nat
    /\ ((exists pre p m r,
           trace = pre ++ [(p, m, Responded r)] /\ Forall not_success pre
           /\ is_2xx r = true /\ out = Returned r)
        \/ (Forall not_success trace
            /\ ((length trace = Z.to_nat (max_retries a_fails_b_answers)
                 /\ out = Returned (error_answer trace))
                \/ ((length trace < Z.to_nat (max_retries a_fails_b_answers))%nat
                    /\ get_provider_for_model
                         (world_at a_fails_b_answers (S (length trace)))
                         "claude-3-opus"
                         (elements (list_to_set (forwarded_ids trace)
                                    : gset string)) = NoSelection
                    /\ out = Returned match trace with
                                      | [] => not_found "claude-3-opus"
                                      | _ => error_answer trace
                                      end)
                \/ ((length trace < Z.to_nat (max_retries a_fails_b_answers))%nat
                    /\ get_provider_for_model
                         (world_at a_fails_b_answers (S (length trace)))
                         "claude-3-opus"
                         (elements (list_to_set (forwarded_ids trace)
                                    : gset string)) = DispatchRaised
                    /\ out = Raised)))).
Proof.
  destruct (chat_completions_retry a_fails_b_answers "claude-3-opus" eq_refl)
    as (out & trace & Hrun & Hfw & Hnodup & Hlen & Hout & _).
  exists out, trace.
  exact (conj Hrun (conj Hfw (conj Hnodup (conj Hlen Hout)))).
Defined.

(** C1 on the code.  Provider [a] lists the model [2] and provider [b]
    the model [2-pro].  The two identifiers are in different families with
    the same preferred canonical, [2], so the family processed last
    overwrites the variant set stored under it: [variant_to_canonical]
    sends [2] to the canonical [2], whose variant set is that of [2-pro]
    and does not contain [2].  A request for [2] therefore never goes to
    [a], which lists it: with both providers available and [a] scoring
    higher, it goes to [b] and asks it for [2-pro]. *)
Theorem listed_model_routed_elsewhere :
  "2" ∈ models lists_2
  /\ option_map (fun maps => (variant_to_canonical maps !! "2",
                              canonical_to_variants maps !! "2"))
                (build_model_alias_maps [lists_2; lists_2_pro]) =
       Some (Some "2", Some ({[ "2-pro" ]} ∪ ∅))
  /\ ("2" ∉ ({[ "2-pro" ]} ∪ ∅ : gset string))
  /\ get_provider_for_model both_available "2" [] =
       Selected lists_2_pro "2-pro"
  /\ forall w excluded p resolved,
       all_providers w = [lists_2; lists_2_pro] ->
       get_provider_for_model w "2" excluded = Selected p resolved ->
       p = lists_2_pro.
Proof.
  split; [ModelNormalizerSpec.by_evaluation|].
  split; [vm_compute; reflexivity|].
  split; [ModelNormalizerSpec.by_evaluation|].
  split; [vm_compute; reflexivity|].
  intros w excluded p resolved Hall.
  unfold get_provider_for_model. rewrite Hall.
  destruct (build_model_alias_maps [lists_2; lists_2_pro]) as [maps|] eqn:Emaps;
    [|done].
  vm_compute in Emaps. injection Emaps as <-.
  set (variant_list := elements _).
  assert (variant_list = ["2-pro"]) as -> by (vm_compute; reflexivity).
  assert (is_candidate ["2-pro"] excluded lists_2 = false) as Ha
    by (vm_compute; reflexivity).
  assert (List.filter (is_candidate ["2-pro"] excluded) [lists_2; lists_2_pro]
          = if is_candidate ["2-pro"] excluded lists_2_pro
            then [lists_2_pro] else []) as ->
    by (cbn [List.filter]; by rewrite Ha).
  destruct (is_candidate ["2-pro"] excluded lists_2_pro); [|done].
  destruct (score_candidates w "2" ["2-pro"] [lists_2_pro])
    as [scored|] eqn:Escored; [|done].
  destruct (sort_desc score_lt scored) as [|picked rest] eqn:Esort; [done|].
  intros [= <- <-].
  assert (picked ∈ sort_desc score_lt scored) as Hin by (rewrite Esort; left).
  apply sort_desc_elem in Hin.
  destruct (score_candidates_elem _ _ _ _ _ _ Escored Hin) as (Hq & _).
  by apply list_elem_of_singleton in Hq.
Qed.

(** *** What the dispatcher selects *)

Lemma get_provider_for_model_variants w model excluded :
  get_provider_for_model w model excluded =
    match variant_list_for (all_providers w) model with
    | None => DispatchRaised
    | Some variant_list =>
        match List.filter (is_candidate variant_list excluded) (all_providers w) with
        | [] => NoSelection
        | c :: cs =>
            match score_candidates w model variant_list (c :: cs) with
            | None => DispatchRaised
            | Some scored =>
                match sort_desc score_lt scored with
                | picked :: _ => Selected (sc_provider picked) (sc_resolved picked)
                | [] => NoSelection
                end
            end
        end
    end.
Proof.
  unfold get_provider_for_model, variant_list_for.
  destruct (build_model_alias_maps (all_providers w)); [|done].
  cbv zeta. by destruct (List.filter _ (all_providers w)).
Qed.

(** What a selection tells of the list [scored] it was picked from. *)
Lemma selected_scored w model excluded p resolved :
  get_provider_for_model w model excluded = Selected p resolved ->
  exists variant_list scored picked rest,
    variant_list_for (all_providers w) model = Some variant_list
    /\ score_candidates w model variant_list
         (List.filter (is_candidate variant_list excluded) (all_providers w))
       = Some scored
    /\ sort_desc score_lt scored = picked :: rest
    /\ sc_provider picked = p /\ sc_resolved picked = resolved.
Proof.
  rewrite get_provider_for_model_variants.
  destruct (variant_list_for (all_providers w) model) as [vl|]; [|done].
  destruct (List.filter _ (all_providers w)) as [|c cs] eqn:Ecands; [done|].
  destruct (score_candidates w model vl (c :: cs)) as [scored|] eqn:Esc;
    [|done].
  destruct (sort_desc score_lt scored) as [|picked rest] eqn:Esort; [done|].
  intros [= <- <-]. exists vl, scored, picked, rest. by rewrite Ecands.
Qed.

(** X18.  Whom the dispatcher selects.  When [random.choice] picks an
    element of the list it is given, a selection is a provider of the
    provider list that is active or syncing, is not excluded, answered
    available for the resolved model and was scored, and the resolved
    model is one of the models that provider lists. *)
Theorem selected_is_available_candidate (w : world) (model : string)
    (excluded : list string) (p : provider) (resolved : string) :
  (forall l, l <> [] -> choice w l ∈ l) ->
  get_provider_for_model w model excluded = Selected p resolved ->
  p ∈ all_providers w
  /\ (status p = "active" \/ status p = "syncing")
  /\ (id p ∉ excluded)
  /\ resolved ∈ models p
  /\ _is_available w p resolved = true
  /\ is_Some (score_for w p resolved).
Proof.
  intros Hchoice Hsel.
  destruct (selected_scored _ _ _ _ _ Hsel)
    as (vl & scored & picked & rest & _ & Hsc & Hsort & <- & <-).
  assert (picked ∈ scored) as Hin
    by (apply (sort_desc_elem score_lt); rewrite Hsort; left).
  destruct (score_candidates_elem _ _ _ _ _ _ Hsc Hin)
    as (Hq & Hres & Hav & Hscore).
  apply list_elem_of_In, filter_In in Hq as [Hq Hcand].
  unfold is_candidate in Hcand.
  apply andb_true_iff in Hcand as [Hcand Hex].
  apply andb_true_iff in Hcand as [Hstatus Hlists].
  split; [by apply list_elem_of_In|]. split; [|split; [|split; [|split]]].
  - apply orb_true_iff in Hstatus as [H|H]; apply String.eqb_eq in H; auto.
  - apply negb_true_iff in Hex. by apply bool_decide_eq_false in Hex.
  - rewrite Hres. unfold resolve.
    destruct (List.filter _ vl) as [|v vs] eqn:Efilter.
    + exfalso. apply existsb_exists in Hlists as (v & Hv & Hvp).
      assert (In v (List.filter (fun v => bool_decide (v ∈ models (sc_provider picked))) vl))
        as Hin' by (apply filter_In; done).
      by rewrite Efilter in Hin'.
    + assert (choice w (v :: vs) ∈ v :: vs) as Hc by (by apply Hchoice).
      assert (In (choice w (v :: vs))
                 (List.filter
                    (fun v => bool_decide (v ∈ models (sc_provider picked))) vl))
        as Hc' by (rewrite Efilter; by apply list_elem_of_In).
      apply filter_In in Hc' as [_ Hc'].
      by apply bool_decide_eq_true in Hc'.
  - exact Hav.
  - by eexists.
Qed.

Lemma selected_is_available_candidate_witness :
  lists_2_pro ∈ all_providers both_available
  /\ (status lists_2_pro = "active" \/ status lists_2_pro = "syncing")
  /\ (id lists_2_pro ∉ ([] : list string))
  /\ "2-pro" ∈ models lists_2_pro
  /\ _is_available both_available lists_2_pro "2-pro" = true
  /\ is_Some (score_for both_available lists_2_pro "2-pro").
Proof.
  apply (selected_is_available_candidate both_available "2" []).
  - intros [|x l] Hl; [done|]. simpl. left.
  - vm_compute. reflexivity.
Defined.

(** *** The order of the scores *)

Lemma score_lt_spec a b : score_lt a b = true <-> (sc_score a < sc_score b)%Q.
Proof.
  unfold score_lt. rewrite negb_true_iff. split.
  - intros H. apply Qnot_le_lt. intros Hle.
    apply Qle_bool_iff in Hle. congruence.
  - intros H. destruct (Qle_bool _ _) eqn:E; [|done].
    apply Qle_bool_iff in E. exfalso. by eapply Qlt_not_le.
Qed.

Lemma score_lt_trans a b c :
  score_lt a b = true -> score_lt b c = true -> score_lt a c = true.
Proof. rewrite !score_lt_spec. apply Qlt_trans. Qed.

Lemma score_lt_cotrans a b c :
  score_lt a c = true -> score_lt a b = true \/ score_lt b c = true.
Proof.
  rewrite !score_lt_spec. intros Hac.
  destruct (Qlt_le_dec (sc_score a) (sc_score b)) as [|Hle]; [by left|].
  right. by eapply Qle_lt_trans.
Qed.

(** The sorted list starts with an entry that none of the list is
    above. *)
Lemma sort_desc_top (scored : list scored_entry) picked rest :
  sort_desc score_lt scored = picked :: rest ->
  forall s, s ∈ scored -> (sc_score s <= sc_score picked)%Q.
Proof.
  intros Hsort s Hs.
  assert (scored <> []) as Hne by (intros ->; by apply elem_of_nil in Hs).
  destruct (first_maximum score_lt score_lt_trans score_lt_cotrans scored Hne)
    as (before & best & after & -> & Hbefore & Hafter).
  destruct (sort_desc_head score_lt before best after Hbefore Hafter)
    as [rest' Hhead].
  rewrite Hhead in Hsort. injection Hsort as -> _.
  apply elem_of_app in Hs as [Hs|Hs].
  - rewrite Forall_forall in Hbefore.
    apply Qlt_le_weak, score_lt_spec, Hbefore, Hs.
  - apply elem_of_cons in Hs as [->|Hs]; [apply Qle_refl|].
    rewrite Forall_forall in Hafter. specialize (Hafter _ Hs).
    unfold score_lt in Hafter. apply negb_false_iff in Hafter.
    by apply Qle_bool_iff.
Qed.

(** Every candidate that is available and scored is in [scored]. *)
Lemma score_candidates_complete w model variant_list cands : forall scored q sq,
  score_candidates w model variant_list cands = Some scored ->
  q ∈ cands ->
  _is_available w q (resolve w model variant_list q) = true ->
  score_for w q (resolve w model variant_list q) = Some sq ->
  {| sc_provider := q; sc_resolved := resolve w model variant_list q;
     sc_score := sq |} ∈ scored.
Proof.
  induction cands as [|p cands IH]; intros scored q sq Hsc Hq Hav Hscore.
  - by apply elem_of_nil in Hq.
  - simpl in Hsc. apply elem_of_cons in Hq as [->|Hq].
    + rewrite Hav, Hscore in Hsc.
      destruct (score_candidates w model variant_list cands); [|done].
      injection Hsc as <-. left.
    + destruct (_is_available w p _).
      * destruct (score_for w p _); [|done].
        destruct (score_candidates w model variant_list cands) as [rest|];
          [|done].
        injection Hsc as <-. right. by eapply IH.
      * by eapply IH.
Qed.

(** X19.  The dispatcher selects a top score.  The selected provider was
    scored, and no provider of the list that is a candidate for the
    request (active or syncing, listing one of the variants, not
    excluded), answered available for its resolved model and was scored
    has a higher score. *)
Theorem selected_has_top_score (w : world) (model : string)
    (excluded : list string) (p : provider) (resolved : string) :
  get_provider_for_model w model excluded = Selected p resolved ->
  exists variant_list score,
    variant_list_for (all_providers w) model = Some variant_list
    /\ resolved = resolve w model variant_list p
    /\ score_for w p resolved = Some score
    /\ forall q sq,
         q ∈ all_providers w ->
         is_candidate variant_list excluded q = true ->
         _is_available w q (resolve w model variant_list q) = true ->
         score_for w q (resolve w model variant_list q) = Some sq ->
         (sq <= score)%Q.
Proof.
  intros Hsel.
  destruct (selected_scored _ _ _ _ _ Hsel)
    as (vl & scored & picked & rest & Hvl & Hsc & Hsort & <- & <-).
  assert (picked ∈ scored) as Hin
    by (apply (sort_desc_elem score_lt); rewrite Hsort; left).
  destruct (score_candidates_elem _ _ _ _ _ _ Hsc Hin)
    as (_ & Hres & _ & Hscore).
  exists vl, (sc_score picked). split; [exact Hvl|]. split; [exact Hres|].
  split; [exact Hscore|].
  intros q sq Hq Hcand Hav Hsq.
  apply (sort_desc_top scored picked rest Hsort
           {| sc_provider := q; sc_resolved := resolve w model vl q;
              sc_score := sq |}).
  eapply score_candidates_complete; try done.
  apply list_elem_of_In, filter_In. split; [by apply list_elem_of_In|done].
Qed.

Lemma selected_has_top_score_witness :
  exists variant_list score,
    variant_list_for (all_providers (world_at a_fails_b_answers 1))
                     "claude-3-opus" = Some variant_list
    /\ "claude-3-opus" =
         resolve (world_at a_fails_b_answers 1) "claude-3-opus" variant_list
                 provider_a
    /\ score_for (world_at a_fails_b_answers 1) provider_a "claude-3-opus"
         = Some score
    /\ forall q sq,
         q ∈ all_providers (world_at a_fails_b_answers 1) ->
         is_candidate variant_list [] q = true ->
         _is_available (world_at a_fails_b_answers 1) q
           (resolve (world_at a_fails_b_answers 1) "claude-3-opus"
                    variant_list q) = true ->
         score_for (world_at a_fails_b_answers 1) q
           (resolve (world_at a_fails_b_answers 1) "claude-3-opus"
                    variant_list q) = Some sq ->
         (sq <= score)%Q.
Proof.
  apply (selected_has_top_score (world_at a_fails_b_answers 1)
           "claude-3-opus" [] provider_a "claude-3-opus").
  vm_compute. reflexivity.
Defined.

End ChatOrchestratorSpec.
